(** * ctqtools: protocol normalisation, series aggregation, organisation and QA

    A shallow embedding of the pure core of [src/ctqtools]
    ([config.py], [qa.py], [cli.py], [organize_dicom.py]) and the properties
    the specification states about it.

    Conventions of the embedding
    - a Python [str] is a [string] whose characters are code points below 256;
    - a table cell is an [option string]: [None] is pandas' NA (a Python
      [None] or a NaN), which is how [isna], [dropna], [count], [groupby] and
      [drop_duplicates] see it;
    - an exception is an explicit [Raise] result;
    - what the program delegates to libraries outside the repository (the
      [re] engine, [yaml], the file system, pandas' numeric parser, [os.path])
      is an interface (a class) the definitions are parametric in. *)

From Stdlib Require Import ZArith String Ascii List Lia Permutation Sorted.
From stdpp Require Import base option list gmap strings pretty list_numbers sorting.

Open Scope string_scope.
Open Scope list_scope.
Open Scope nat_scope.

(** ** Python values *)

Module Py.

(** The exceptions that can escape the modelled functions. *)
Inductive exn := ReError | OSError | YAMLError | AttributeError.

Inductive result (A : Type) : Type :=
| Ok (a : A)
| Raise (e : exn).
Arguments Ok {A} a.
Arguments Raise {A} e.

(** [str.isspace] on one character (code points below 256): TAB..CR,
    FS..US, SPACE, NEL and NBSP. *)
Definition isspace (c : ascii) : bool :=
  let n := nat_of_ascii c in
  (((9 <=? n) && (n <=? 13)) || ((28 <=? n) && (n <=? 32))
   || (n =? 133) || (n =? 160))%nat.

Fixpoint lstrip (s : string) : string :=
  match s with
  | EmptyString => EmptyString
  | String c s' => if isspace c then lstrip s' else s
  end.

Fixpoint rstrip (s : string) : string :=
  match s with
  | EmptyString => EmptyString
  | String c s' =>
      match rstrip s' with
      | EmptyString => if isspace c then EmptyString else String c EmptyString
      | t => String c t
      end
  end.

(** [s.strip()] *)
Definition strip (s : string) : string := rstrip (lstrip s).

(** Every character of [s] is white space (the empty string included). *)
Fixpoint all_space (s : string) : bool :=
  match s with
  | EmptyString => true
  | String c s' => isspace c && all_space s'
  end.

(** [s] neither starts nor ends with white space. *)
Fixpoint ends_with_space (s : string) : bool :=
  match s with
  | EmptyString => false
  | String c EmptyString => isspace c
  | String _ s' => ends_with_space s'
  end.

Definition starts_with_space (s : string) : bool :=
  match s with
  | EmptyString => false
  | String c _ => isspace c
  end.

(** A dictionary entry as [d.get(k)] sees it: the key is missing, bound to
    [None], or bound to a value. *)
Inductive entry (A : Type) : Type :=
| Missing
| Null
| Val (a : A).
Arguments Missing {A}.
Arguments Null {A}.
Arguments Val {A} a.

(** [d.get(k, dflt) or dflt] for a default that is the empty container:
    the empty value [dflt] is returned for a missing key, for [None], and for
    a falsy (empty) value alike. *)
Definition get_or {A : Type} (dflt : A) (e : entry A) : A :=
  match e with
  | Val a => a
  | _ => dflt
  end.

(** [d.setdefault(k, dflt)]: binds a missing key only. *)
Definition setdefault {A : Type} (dflt : A) (e : entry A) : entry A :=
  match e with
  | Missing => Val dflt
  | _ => e
  end.

End Py.
Import Py.

(** ** config.py *)

Module Config.

(** One element of [protocol_regex]: [{pattern: ..., replace: ...}].
    [None] is what [rule.get] returns for a missing key. *)
Record rule := Rule {
  pattern : option string;
  replace : option string;
}.

(** The configuration dictionary, restricted to the two keys the program
    reads. *)
Record config := Cfg {
  protocol_map : entry (gmap string string);
  protocol_regex : entry (list rule);
}.

(** [{"protocol_map": {}, "protocol_regex": []}] *)
Definition empty_rules : config :=
  {| protocol_map := Val ∅; protocol_regex := Val [] |}.

(** Python's [re] module, as [normalize_protocol] uses it, always with
    [flags=re.IGNORECASE].  A pattern (or replacement template) the engine
    rejects raises [re.error]: the answer is then [None]. *)
Class Regex := {
  (** [re.search(pat, s, flags=re.IGNORECASE)] is not [None] *)
  re_search : string → string → option bool;
  (** [re.sub(pat, rep, s, flags=re.IGNORECASE)] *)
  re_sub : string → string → string → option string;
}.

(** What [load_config] sees of the outside world. *)
Class FileSystem := {
  (** [os.path.exists(path)] *)
  os_path_exists : string → bool;
  (** [open(path, "r", encoding="utf-8")] then reading it whole; [None]
      when this raises [OSError] (no permission, a directory,
      undecodable bytes, ...). *)
  open_read : string → option string;
}.

(** The value [yaml.safe_load] returns, by what [load_config] does with it. *)
Inductive yaml_value :=
| YFalsy                    (* None, {}, [], "", 0, False: replaced by {} *)
| YMapping (c : config)     (* a non-empty mapping *)
| YOther.                   (* any other truthy value: no [setdefault] *)

Class Yaml := {
  (** [yaml.safe_load(text)]; [None] when it raises [yaml.YAMLError]. *)
  safe_load : string → option yaml_value;
}.

Section Definitions.
Context {RE : Regex} {FS : FileSystem} {YA : Yaml}.

Definition with_defaults (c : config) : config :=
  {| protocol_map := setdefault ∅ (protocol_map c);
     protocol_regex := setdefault [] (protocol_regex c) |}.

(** [load_config(path)] *)
Definition load_config (path : option string) : result config :=
  match path with
  | None | Some EmptyString => Ok empty_rules            (* if not path *)
  | Some p =>
      if negb (os_path_exists p) then Ok empty_rules
      else
        match open_read p with
        | None => Raise OSError
        | Some text =>
            match safe_load text with
            | None => Raise YAMLError
            | Some YFalsy => Ok (with_defaults (Cfg Missing Missing))
            | Some (YMapping c) => Ok (with_defaults c)
            | Some YOther => Raise AttributeError
            end
        end
  end.

(** The loop over [protocol_regex] in [normalize_protocol], on the stripped
    label [s]. *)
Fixpoint apply_rules (rules : list rule) (s : string) : result string :=
  match rules with
  | [] => Ok s
  | r :: rest =>
      match pattern r with
      | None | Some EmptyString => apply_rules rest s    (* if not pat: continue *)
      | Some pat =>
          match re_search pat s with
          | None => Raise ReError
          | Some true =>
              match re_sub pat (default "" (replace r)) s with
              | Some t => Ok t
              | None => Raise ReError
              end
          | Some false => apply_rules rest s
          end
      end
  end.

(** [normalize_protocol(name, cfg)] *)
Definition normalize_protocol (name : option string) (cfg : config) : result string :=
  match name with
  | None | Some EmptyString => Ok "NA"                   (* if not name *)
  | Some n =>
      let s := strip n in
      match get_or ∅ (protocol_map cfg) !! s with
      | Some v => Ok v
      | None => apply_rules (get_or [] (protocol_regex cfg)) s
      end
  end.

(** The engine accepts the rule: searching with its pattern never raises,
    and neither does substituting where the pattern matched.  A rule without
    a pattern is skipped, whatever it holds. *)
Definition well_formed (r : rule) : Prop :=
  ∀ pat, pattern r = Some pat → pat ≠ "" →
    (∀ s, is_Some (re_search pat s))
    ∧ (∀ s, re_search pat s = Some true → is_Some (re_sub pat (default "" (replace r)) s)).

(** The rule's pattern was searched for in [s] and not found. *)
Definition no_match (s : string) (r : rule) : Prop :=
  ∀ pat, pattern r = Some pat → pat ≠ "" → re_search pat s = Some false.

End Definitions.

End Config.

(** ** pandas, as far as the program uses it *)

Module Frame.

(** A row of a [DataFrame]: column name to [str]; a column the row has no
    value for (a [None] or a NaN cell) is simply not bound. *)
Abbreviation row := (gmap string string).

(** A [DataFrame]: its column labels ([df.columns], in order) and its rows
    in index order.  A group [g] of [df.groupby(...)] has the columns of
    [df] and a sub-list of its rows. *)
Record frame := DataFrame {
  columns : list string;
  rows : list row;
}.

(** [c in df.columns] *)
Definition has_column (c : string) (cols : list string) : bool :=
  bool_decide (c ∈ cols).

(** The key tuple of a row for [groupby(keys, dropna=False)]: NA is a key
    value of its own. *)
Definition key_of (keys : list string) (r : row) : list (option string) :=
  (λ k, r !! k) <$> keys.

Section Grouping.
Context {K A : Type} `{EqDecision K}.

Fixpoint add_to_group (k : K) (x : A) (gs : list (K * list A)) : list (K * list A) :=
  match gs with
  | [] => [(k, [x])]
  | (k', g) :: gs' =>
      if decide (k = k') then (k', g ++ [x]) :: gs'
      else (k', g) :: add_to_group k x gs'
  end.

(** [groupby(..., dropna=False, sort=False)]: the groups in the order their
    keys first appear, each with its rows in the frame's order. *)
Definition groupby (key : A → K) (l : list A) : list (K * list A) :=
  foldl (λ gs x, add_to_group (key x) x gs) [] l.

(** [drop_duplicates(subset=[...], keep="first")]: a row is dropped when an
    earlier row has the same value ([seen] holds the values met so far); NA
    equals NA here. *)
Fixpoint drop_dups_from (key : A → K) (seen : list K) (l : list A) : list A :=
  match l with
  | [] => []
  | x :: l' =>
      if decide (key x ∈ seen) then drop_dups_from key seen l'
      else x :: drop_dups_from key (key x :: seen) l'
  end.

Definition drop_duplicates (key : A → K) (l : list A) : list A :=
  drop_dups_from key [] l.

(** [gs] is the grouping of [l] by [key]: the keys are distinct, every
    group is the non-empty sub-list of the elements with its key, in the
    order of [l], and every element's key has a group. *)
Definition grouped (key : A → K) (gs : list (K * list A)) (l : list A) : Prop :=
  NoDup (gs.*1)
  ∧ (∀ k g, (k, g) ∈ gs → g ≠ [] ∧ g = filter (λ x, key x = k) l)
  ∧ (∀ x, x ∈ l → key x ∈ (gs.*1)).

End Grouping.

Section Sorting.
Context {A : Type}.

Fixpoint insert_by (le : A → A → bool) (x : A) (l : list A) : list A :=
  match l with
  | [] => [x]
  | y :: l' => if le x y then x :: l else y :: insert_by le x l'
  end.

(** A stable sort: of two rows that compare equal, the one that came first
    stays first.  [sort_values] on several columns is stable; on the single
    column [_path] pandas leaves the order of equal paths open, and the
    records of an index have distinct paths. *)
Definition sort_by (le : A → A → bool) (l : list A) : list A :=
  foldr (insert_by le) [] l.

(** Comparison of two cells of a sort column; NA goes first or last by
    [na_position]. *)
Definition cell_le {B : Type} (na_first : bool) (le : B → B → bool)
    (x y : option B) : bool :=
  match x, y with
  | None, None => true
  | None, Some _ => na_first
  | Some _, None => negb na_first
  | Some a, Some b => le a b
  end.

(** [sort_values([c1, c2])]: by [c1], ties broken by [c2]. *)
Definition lex_le (le1 le2 : A → A → bool) (x y : A) : bool :=
  le1 x y && (negb (le1 y x) || le2 x y).

(** [le], read as a relation. *)
Definition leR (le : A → A → bool) (x y : A) : Prop := le x y = true.

End Sorting.

(** [g[col].count()]: the number of rows whose cell is not NA. *)
Definition count (col : string) (g : list row) : nat :=
  length (filter (λ r, is_Some (r !! col)) g).

End Frame.
Import Frame.

(** ** Numbers read from text *)

(** What the program leaves to pandas and Python when it turns text into
    numbers.  [num] is a finite float; a NaN result is [None].  (The texts
    come from pydicom, which hands out an instance number only if it is an
    integer string; infinities are not modelled.) *)
Class Numeric := {
  num : Type;
  (** [x <= y] on floats *)
  num_le : num → num → bool;
  (** [pd.to_numeric(..., errors="coerce")] on one [str] cell *)
  to_numeric : string → option num;
  (** [Series.astype(int)] on one value *)
  astype_int : num → Z;
  (** [float(s)]; [None] when it raises [ValueError] (or gives NaN) *)
  py_float : string → option num;
  (** [float(ast.literal_eval(s)[2])]; [None] when any step raises *)
  literal_eval_third : string → option num;
  num_le_total : ∀ x y, num_le x y = true ∨ num_le y x = true;
  num_le_trans : ∀ x y z, num_le x y = true → num_le y z = true → num_le x z = true;
}.

(** ** qa.py *)

Module QA.

(** U+2026, the truncation mark of [missing_list], written as the three
    bytes of its UTF-8 form; nothing looks inside it. *)
Definition ellipsis : string := "…".

(** One row of the table [detect_instance_gaps] returns. *)
Record gap := Gap {
  SeriesInstanceUID : option string;
  min : Z;
  max : Z;
  n_expected : nat;
  n_actual : nat;
  n_missing : nat;
  missing_list : string;
}.

(** [set(range(lo, hi + 1))] *)
Definition expected (lo hi : Z) : gset Z := list_to_set (seqZ lo (hi - lo + 1)).

(** [sorted(expected - actual)] *)
Definition missing (lo hi : Z) (nums : list Z) : list Z :=
  sort_by Z.leb (elements (expected lo hi ∖ list_to_set nums)).

(** [",".join(map(str, missing[:50])) + ("…" if len(missing) > 50 else "")] *)
Definition render_missing (ms : list Z) : string :=
  String.append (String.concat "," (pretty <$> take 50 ms))
                (if 50 <? length ms then ellipsis else "").

Section Gaps.
Context {NU : Numeric}.

(** [g["InstanceNumber_num"].dropna().astype(int)]: the instance numbers
    of the rows that have a parseable one, as integers, in row order. *)
Definition observed (g : list row) : list Z :=
  omap (λ r : row, astype_int <$> (r !! "InstanceNumber" ≫= to_numeric)) g.

(** [nums]: the same after [.sort_values().tolist()] *)
Definition nums_of (g : list row) : list Z := sort_by Z.leb (observed g).

(** The body of the loop over the series: [None] is [continue]. *)
Definition gap_of (sid : option string) (g : list row) : option gap :=
  let nums := nums_of g in
  match head nums, last nums with
  | Some lo, Some hi =>
      let ms := missing lo hi nums in
      Some {| SeriesInstanceUID := sid;
              min := lo;
              max := hi;
              n_expected := size (expected lo hi);
              n_actual := size (list_to_set nums : gset Z);
              n_missing := length ms;
              missing_list := render_missing ms |}
  | _, _ => None                                  (* if not nums: continue *)
  end.

(** [tmp.groupby("SeriesInstanceUID", dropna=False)]: [sort=True] is the
    default, the NA group comes last. *)
Definition series_groups (rs : list row) : list (option string * list row) :=
  sort_by (λ a b, cell_le false String.leb a.1 b.1)
          (groupby (λ r : row, r !! "SeriesInstanceUID") rs).

(** [detect_instance_gaps(df)]: the rows of the returned table. *)
Definition detect_instance_gaps (df : frame) : list gap :=
  if negb (has_column "InstanceNumber" (columns df))
     || negb (has_column "SeriesInstanceUID" (columns df))
  then []
  else omap (λ sg, gap_of sg.1 sg.2) (series_groups (rows df)).

(** The members of the series [sid] (NA is a series of its own). *)
Definition series (sid : option string) (rs : list row) : list row :=
  filter (λ r : row, r !! "SeriesInstanceUID" = sid) rs.

(** What the claim says of the report [rep] of a series with the observed
    values [obs]. *)
Record gap_ok (sid : option string) (obs : list Z) (rep : gap) : Prop := GapOk {
  ok_sid : SeriesInstanceUID rep = sid;
  ok_min : min rep ∈ obs ∧ ∀ z, z ∈ obs → (min rep ≤ z)%Z;
  ok_max : max rep ∈ obs ∧ ∀ z, z ∈ obs → (z ≤ max rep)%Z;
  ok_expected : n_expected rep = Z.to_nat (max rep - min rep + 1);
  ok_actual : n_actual rep = size (list_to_set obs : gset Z);
  ok_missing :
    ∃ ms : list Z,
      (∀ z, z ∈ ms ↔ (min rep ≤ z ≤ max rep)%Z ∧ z ∉ obs)
      ∧ StronglySorted Z.lt ms
      ∧ n_missing rep = length ms
      ∧ missing_list rep
        = String.append (String.concat "," (pretty <$> take 50 ms))
                        (if 50 <? length ms then ellipsis else "");
}.

End Gaps.

Definition crit : list string :=
  ["PatientID"; "StudyInstanceUID"; "SeriesInstanceUID"; "SOPInstanceUID"].

(** [df[c].isna() | (df[c].astype(str) == "")], on one row *)
Definition tag_missing (c : string) (r : row) : bool :=
  match r !! c with
  | None => true
  | Some s => String.eqb s ""
  end.

(** One turn of the loop that builds [mask]: [None] is the initial [False],
    which is no [Series], so the first column replaces it and the later ones
    are or-ed in. *)
Definition mask_step (mask : option (row → bool)) (c : string) : option (row → bool) :=
  match mask with
  | Some m => Some (λ r, m r || tag_missing c r)
  | None => Some (tag_missing c)
  end.

(** Restriction of a row to some columns ([df.loc[:, cols]]). *)
Definition project (cols : list string) (r : row) : row :=
  filter (λ kv, kv.1 ∈ cols) r.

(** [missing_critical_tags(df)] *)
Definition missing_critical_tags (df : frame) : frame :=
  let present := filter (λ c, c ∈ columns df) crit in
  match foldl mask_step None present with
  | None => DataFrame [] []                       (* if not present *)
  | Some mask =>
      let cols := present ++ (if has_column "_path" (columns df) then ["_path"] else []) in
      DataFrame cols (project cols <$> filter (λ r, mask r = true) (rows df))
  end.

(** [DataFrame.empty]: some axis has length 0. *)
Definition empty (df : frame) : bool :=
  match columns df, rows df with
  | [], _ | _, [] => true
  | _, _ => false
  end.

(** The row has a non-empty value in column [c]. *)
Definition filled (c : string) (r : row) : Prop :=
  ∃ s, r !! c = Some s ∧ s ≠ "".

End QA.

(** ** organize_dicom.py: one group of the loop over the series *)

Module Organizer.

Definition backslash : ascii := ascii_of_nat 92.
Definition comma : ascii := ascii_of_nat 44.
Definition lbracket : ascii := ascii_of_nat 91.

(** [s.split(sep)] for a separator of one character. *)
Fixpoint split (sep : ascii) (s : string) : list string :=
  match s with
  | EmptyString => [EmptyString]
  | String c s' =>
      if Ascii.eqb c sep then EmptyString :: split sep s'
      else match split sep s' with
           | h :: t => String c h :: t
           | [] => [String c EmptyString]
           end
  end.

(** [sep in s] *)
Fixpoint contains (sep : ascii) (s : string) : bool :=
  match s with
  | EmptyString => false
  | String c s' => Ascii.eqb c sep || contains sep s'
  end.

(** [s.startswith(c)] *)
Definition startswith (c : ascii) (s : string) : bool :=
  match s with
  | String c' _ => Ascii.eqb c' c
  | EmptyString => false
  end.

(** [str(n).zfill(width)], the [{idx:0{pad}d}] of the new name. *)
Definition zero_padded (width n : nat) : string :=
  let s := pretty n in
  String.append (String.concat "" (replicate (width - String.length s) "0")) s.

Inductive collision := Skip | Overwrite | Rename.
Inductive link := Copy | Hardlink | Symlink.

(** The command-line options the group loop reads. *)
Record options := Options {
  dry_run : bool;
  pad_width : Z;
  on_collision : collision;
  link_mode : link;
}.

(** The calls into [os.path], [os] and [shutil]. *)
Class Os := {
  basename : string → string;
  splitext : string → string * string;
  join : string → string → string;
  (** [shutil.copy2], [os.link] or [os.symlink] from [src] to [dst] returns
      (it raises otherwise, and [materialize] returns [None]) *)
  transfer : link → string → string → bool;
  (** [os.remove(dst)] on an existing path leaves the path gone: it returns,
      or it raises [FileNotFoundError], which [materialize] catches.  It
      raises another [OSError] otherwise ([IsADirectoryError],
      [PermissionError]): the path stays and the exception is not caught. *)
  remove : string → bool;
}.

(** What a call of [materialize] comes to: the value it returns, or the
    exception of [os.remove] that escapes it. *)
Inductive attempt := Returns (res : option string) | Raises.

(** A row of [manifest.csv]. *)
Record manifest_row := ManifestRow {
  new_name : string;
  original_name : string;
  src_path : string;
}.

(** A submitted copy: [(base, new_name, src, dst)]. *)
Record job := Job {
  job_base : string;
  job_name : string;
  job_src : string;
  job_dst : string;
}.

Section Group.
Context {NU : Numeric} {OS : Os}.

(** [zpos(val)]: the third component of [ImagePositionPatient].  An NA
    cell prints as a word without brackets, backslashes or commas, so its
    [parts] has one element and the result is NaN. *)
Definition zpos (val : option string) : option num :=
  match val with
  | None => None
  | Some s =>
      if startswith lbracket s then literal_eval_third s
      else if contains backslash s then split backslash s !! 2 ≫= py_float
      else split comma s !! 2 ≫= py_float
  end.

Definition instance_number_num (r : row) : option num := r !! "InstanceNumber" ≫= to_numeric.
Definition zpos_of (r : row) : option num := zpos (r !! "ImagePositionPatient").

(** Comparison of two rows on one sort column. *)
Definition on_column {B : Type} (na_first : bool) (le : B → B → bool)
    (col : row → option B) (r r' : row) : bool :=
  cell_le na_first le (col r) (col r').

Definition by_path (na_first : bool) : row → row → bool :=
  on_column na_first String.leb (λ r, r !! "_path").

(** The [# Orden] block: the rows of the group in the order they are named. *)
Definition order (cols : list string) (g : list row) : list row :=
  if has_column "InstanceNumber" cols then
    sort_by (lex_le (on_column true num_le instance_number_num) (by_path true)) g
  else if has_column "ImagePositionPatient" cols then
    if existsb (λ r, bool_decide (is_Some (zpos_of r))) g then
      sort_by (lex_le (on_column true num_le zpos_of) (by_path true)) g
    else if has_column "AcquisitionTime" cols then
      sort_by (lex_le (on_column false String.leb (λ r, r !! "AcquisitionTime")) (by_path false)) g
    else sort_by (by_path false) g
  else if has_column "AcquisitionTime" cols then
    sort_by (lex_le (on_column false String.leb (λ r, r !! "AcquisitionTime")) (by_path false)) g
  else sort_by (by_path false) g.

(** [# Deduplicación por SOPInstanceUID] *)
Definition dedup (cols : list string) (g : list row) : list row :=
  if has_column "SOPInstanceUID" cols
  then drop_duplicates (λ r : row, r !! "SOPInstanceUID") g
  else g.

(** [pad] *)
Definition pad_of (ns : options) (total : nat) : nat :=
  if (0 <? pad_width ns)%Z then Z.to_nat (pad_width ns)
  else Nat.max 4 (String.length (pretty total)).

(** The rename policy's search for a free name, [base__i.ext] for
    i = 1, 2, ...  At most [size fs] candidates can exist, so after that
    many failed tests the next candidate is free: the loop ends. *)
Fixpoint free_name (fuel i : nat) (base ext : string) (fs : gset string) : string :=
  let cand := String.append base (String.append "__" (String.append (pretty i) ext)) in
  match fuel with
  | 0 => cand
  | S fuel' => if decide (cand ∈ fs) then free_name fuel' (S i) base ext fs else cand
  end.

(** [materialize(src_path, dst_path)] on the set [fs] of existing paths:
    what it comes to and the paths that exist afterwards.  Under the
    overwrite policy only the [FileNotFoundError] of [os.remove] is caught:
    any other exception of it leaves the function before the copy. *)
Definition materialize (ns : options) (fs : gset string) (src dst : string)
    : attempt * gset string :=
  let place (fs : gset string) (dst : string) :=
    if transfer (link_mode ns) src dst then (Returns (Some dst), {[dst]} ∪ fs)
    else (Returns None, fs) in
  if decide (dst ∈ fs) then
    match on_collision ns with
    | Skip => (Returns (Some "skipped"), fs)
    | Overwrite => if remove dst then place (fs ∖ {[dst]}) dst else (Raises, fs)
    | Rename => place fs (free_name (size fs) 1 (splitext dst).1 (splitext dst).2 fs)
    end
  else place fs dst.

(** The first loop, for the row at 1-based position [idx]: [None] is
    [continue] (no source path, or the source does not exist). *)
Definition submit (fs : gset string) (target_dir : string) (pad : nat)
    (ir : nat * row) : option job :=
  match ir.2 !! "_path" with
  | None | Some EmptyString => None
  | Some src =>
      if decide (src ∈ fs) then
        let base := basename src in
        let name := String.append (zero_padded pad ir.1) (splitext base).2 in
        Some (Job base name src (join target_dir name))
      else None
  end.

(** The second loop: the results of the futures, taken in submission order
    (the pool is modelled by running the copies in that order).  An
    exception that escaped [materialize] is raised again by [fut.result()]
    and ends [main]: there are no manifest rows then ([None]).  The pool is
    left through its [with] block, which waits for the submitted copies, so
    the paths that exist afterwards are those left by all of them. *)
Fixpoint collect (ns : options) (fs : gset string) (jobs : list job)
    : option (list manifest_row) * gset string :=
  match jobs with
  | [] => (Some [], fs)
  | j :: jobs' =>
      let '(res, fs1) := materialize ns fs (job_src j) (job_dst j) in
      let '(rows, fs2) := collect ns fs1 jobs' in
      match res with
      | Raises => (None, fs2)
      | Returns None => (rows, fs2)
      | Returns (Some p) =>
          (cons (ManifestRow (basename p) (job_base j) (job_src j)) <$> rows, fs2)
      end
  end.

(** The rows in naming order with their 1-based index
    ([enumerate(g.iterrows(), start=1)]). *)
Definition numbered (cols : list string) (g : list row) : list (nat * row) :=
  let g' := order cols (dedup cols g) in
  zip (seq 1 (length g')) g'.

(** The body of the loop over the groups, for a group [g] of a frame with
    columns [cols]: the manifest rows ([None] when [main] is ended by an
    exception) and the paths that exist afterwards.  A dry run calls
    [materialize] for no record. *)
Definition organize_group (ns : options) (cols : list string) (target_dir : string)
    (fs : gset string) (g : list row) : option (list manifest_row) * gset string :=
  let plan := numbered cols g in
  let pad := pad_of ns (length plan) in
  let jobs := omap (submit fs target_dir pad) plan in
  if dry_run ns then
    (Some ((λ j, ManifestRow (job_name j) (job_base j) (job_src j)) <$> jobs), fs)
  else collect ns fs jobs.

(** *** The words of the statements about a group *)

(** The four ways of ordering a group. *)
Inductive strategy := ByInstanceNumber | ByPosition | ByTime | ByPath.

(** The comparison each of them sorts with: missing keys first for the two
    numeric keys, last for the two textual ones; the path breaks ties. *)
Definition strategy_le (s : strategy) : row → row → bool :=
  match s with
  | ByInstanceNumber => lex_le (on_column true num_le instance_number_num) (by_path true)
  | ByPosition => lex_le (on_column true num_le zpos_of) (by_path true)
  | ByTime =>
      lex_le (on_column false String.leb (λ r : row, r !! "AcquisitionTime")) (by_path false)
  | ByPath => by_path false
  end.

(** The choice, as the code makes it: by the columns of the table, and for
    the position also by the group having a parseable one. *)
Definition select_strategy (cols : list string) (g : list row) : strategy :=
  if decide ("InstanceNumber" ∈ cols) then ByInstanceNumber
  else if decide ("ImagePositionPatient" ∈ cols
                  ∧ Exists (λ r, is_Some (zpos_of r)) g) then ByPosition
  else if decide ("AcquisitionTime" ∈ cols) then ByTime
  else ByPath.

Definition path_of (r : row) : option string := r !! "_path".
Definition uid_of (r : row) : option string := r !! "SOPInstanceUID".







End Group.

End Organizer.

(** ** cli.py and organize_dicom.py: the series-level table *)

Module Aggregator.

(** [series_cols] of [cli.py] *)
Definition series_cols : list string :=
  ["PatientID"; "StudyInstanceUID"; "SeriesInstanceUID"; "SeriesNumber";
   "ProtocolNorm"; "Modality"].

(** [s_cols] of [organize_dicom.py], before the filter on [df.columns].
    For a table without a [SeriesNumber] column the list names
    [SeriesInstanceUID] twice, and the filter keeps both. *)
Definition s_cols (cols : list string) : list string :=
  ["PatientID"; "StudyInstanceUID"; "SeriesInstanceUID";
   (if has_column "SeriesNumber" cols then "SeriesNumber" else "SeriesInstanceUID");
   "ProtocolNorm"]
  ++ (if has_column "Modality" cols then ["Modality"] else []).

(** [base_col]: the column whose non-NA cells [n_instances] counts.  [None]
    only for a frame without columns. *)
Definition base_col (cols existing : list string) : option string :=
  if has_column "SOPInstanceUID" cols then Some "SOPInstanceUID"
  else match existing with
       | c :: _ => Some c
       | [] => head cols
       end.

(** A row of [series_df]: the key tuple and [n_instances]. *)
Record series_row := SeriesRow {
  key : list (option string);
  n_instances : nat;
}.

(** [df.groupby(keys, dropna=False, sort=False).agg(n_instances=(base, "count"))] *)
Definition aggregate (keys : list string) (base : string) (rs : list row) : list series_row :=
  (λ kg, SeriesRow kg.1 (count base kg.2)) <$> groupby (key_of keys) rs.

(** What building [series_df] comes to: the table, or the [ValueError] of
    pandas. *)
Inductive series_result := Table (t : list series_row) | ValueError.

(** The series table of a frame, for the candidate key columns [wanted]
    ([series_cols], or [s_cols (columns df)]).  [groupby] raises
    [ValueError] for an empty key list.  For a key list that names a column
    twice the grouping and the aggregation go through, and [reset_index]
    raises [ValueError] when it inserts the second key column of that name
    into the table. *)
Definition series_table (wanted : list string) (df : frame) : series_result :=
  let existing := filter (λ c, c ∈ columns df) wanted in
  match existing, base_col (columns df) existing with
  | _ :: _, Some base =>
      if decide (NoDup existing) then Table (aggregate existing base (rows df))
      else ValueError
  | _, _ => ValueError
  end.

End Aggregator.

(** ** Concrete libraries for the worked examples *)

Module Sample.
Import Config Organizer.

Definition lower (c : ascii) : ascii :=
  let n := nat_of_ascii c in
  if (65 <=? n) && (n <=? 90) then ascii_of_nat (n + 32) else c.

Definition plain_char (c : ascii) : bool :=
  let n := nat_of_ascii c in
  ((48 <=? n) && (n <=? 57)) || ((65 <=? n) && (n <=? 90))
  || ((97 <=? n) && (n <=? 122)) || (n =? 32).

(** The pattern consists of letters, digits and spaces: no metacharacter. *)
Fixpoint plain (s : string) : bool :=
  match s with
  | EmptyString => true
  | String c s' => plain_char c && plain s'
  end.

Fixpoint prefix_ci (p s : string) : bool :=
  match p, s with
  | EmptyString, _ => true
  | String _ _, EmptyString => false
  | String a p', String b s' => Ascii.eqb (lower a) (lower b) && prefix_ci p' s'
  end.

Fixpoint search_ci (p s : string) : bool :=
  prefix_ci p s
  || match s with
     | EmptyString => false
     | String _ s' => search_ci p s'
     end.

(** Every occurrence of [p], left to right and not overlapping, replaced by
    [rep]; [skip] characters of a match are still to be passed over. *)
Fixpoint sub_ci (p rep : string) (skip : nat) (s : string) : string :=
  match s with
  | EmptyString => EmptyString
  | String c s' =>
      match skip with
      | S k => sub_ci p rep k s'
      | 0 =>
          if prefix_ci p s
          then String.append rep (sub_ci p rep (String.length p - 1) s')
          else String c (sub_ci p rep 0 s')
      end
  end.

(** A fragment of Python's [re]: a non-empty pattern of letters, digits and
    spaces is a literal, searched without regard to case; a template of such
    characters stands for itself.  Everything else is answered the way the
    unbalanced pattern "(" is, by [re.error]; the examples below use no other
    pattern outside the fragment. *)
#[export] Instance literal_re : Regex := {|
  re_search pat s := if plain pat then Some (search_ci pat s) else None;
  re_sub pat rep s :=
    if plain pat && plain rep then Some (sub_ci pat rep 0 s) else None;
|}.

(** A file system with a readable file ["rules.yaml"] and the directory
    ["/"], which exists and cannot be opened for reading. *)
#[export] Instance small_fs : FileSystem := {|
  os_path_exists p := String.eqb p "/" || String.eqb p "rules.yaml";
  open_read p := if String.eqb p "rules.yaml" then Some "protocol_map: {}" else None;
|}.

(** A YAML reader that knows the one document of [small_fs]. *)
#[export] Instance small_yaml : Yaml := {|
  safe_load text :=
    if String.eqb text "protocol_map: {}" then Some (YMapping (Cfg (Val ∅) Missing))
    else None;
|}.

Definition digit (c : ascii) : option Z :=
  let n := nat_of_ascii c in
  if (48 <=? n) && (n <=? 57) then Some (Z.of_nat (n - 48)) else None.

Fixpoint digits (acc : Z) (s : string) : option Z :=
  match s with
  | EmptyString => Some acc
  | String c s' => d ← digit c; digits (10 * acc + d)%Z s'
  end.

(** Decimal integers, with an optional minus sign. *)
Definition parse_int (s : string) : option Z :=
  match s with
  | EmptyString => None
  | String c s' =>
      if Ascii.eqb c (ascii_of_nat 45)
      then match s' with
           | EmptyString => None
           | _ => Z.opp <$> digits 0 s'
           end
      else digits 0 s
  end.

(** The third element of a bracketed list of integers, ["[1, 2, 3]"]. *)
Definition third_of_list (s : string) : option Z :=
  match s with
  | String _ body =>
      match split (ascii_of_nat 93) body with
      | [inner; EmptyString] => split comma inner !! 2 ≫= (λ t, parse_int (strip t))
      | _ => None
      end
  | EmptyString => None
  end.

(** Numbers restricted to integer literals: on these [pd.to_numeric],
    [float] and [astype(int)] are exact. *)
#[export] Program Instance integers : Numeric := {|
  num := Z;
  num_le := Z.leb;
  to_numeric := parse_int;
  astype_int := id;
  py_float := parse_int;
  literal_eval_third := third_of_list;
|}.
Next Obligation. intros x y. rewrite !Z.leb_le. lia. Qed.
Next Obligation. intros x y z. rewrite !Z.leb_le. lia. Qed.

(** POSIX paths without the corner cases of dots and trailing slashes. *)
Fixpoint after_last (sep : ascii) (s : string) : string :=
  match s with
  | EmptyString => EmptyString
  | String c s' => if contains sep s then after_last sep s' else s
  end.

Fixpoint before_last (sep : ascii) (s : string) : string :=
  match s with
  | EmptyString => EmptyString
  | String c s' => if contains sep s' then String c (before_last sep s') else
                   if Ascii.eqb c sep then EmptyString else s
  end.

Definition dot : ascii := ascii_of_nat 46.
Definition slash : ascii := ascii_of_nat 47.

(** Every copy and every removal succeeds. *)
#[export] Instance posix : Os := {|
  basename p := after_last slash p;
  splitext p :=
    if contains dot (after_last slash p)
    then (before_last dot p, String dot (after_last dot p))
    else (p, "");
  join d f := String.append d (String slash f);
  transfer _ _ _ := true;
  remove _ := true;
|}.

(** Rule sets of the examples. *)
Definition head_rules : config :=
  Cfg (Val {["CT HEAD" := "HEAD"]})
      (Val [Rule (Some "head") (Some "HEAD"); Rule None None]).

Definition unbalanced_rule : config :=
  Cfg Missing (Val [Rule (Some "(") (Some "")]).

Definition empty_key_table : config := Cfg (Val {["" := "EMPTY"]}) Missing.

Definition blank_key_table : config := Cfg (Val {[" " := "BLANK"]}) Missing.

Definition mk (l : list (string * string)) : row := list_to_map l.

(** Two indexed files, the second one without a SOP instance UID (its
    cell is NA). *)
Definition two_files : frame :=
  DataFrame ["PatientID"; "SeriesInstanceUID"; "SOPInstanceUID"; "ProtocolNorm"; "_path"]
    [mk [("PatientID", "P1"); ("SeriesInstanceUID", "1.2"); ("SOPInstanceUID", "1.2.1");
         ("ProtocolNorm", "NA"); ("_path", "/in/a.dcm")];
     mk [("PatientID", "P1"); ("SeriesInstanceUID", "1.2");
         ("ProtocolNorm", "NA"); ("_path", "/in/b.dcm")]].

(** A complete index: every cell of the key columns is filled. *)
Definition full_index : frame :=
  DataFrame ["PatientID"; "StudyInstanceUID"; "SeriesInstanceUID"; "SOPInstanceUID";
             "ProtocolNorm"; "_path"]
    [mk [("PatientID", "P1"); ("StudyInstanceUID", "1"); ("SeriesInstanceUID", "1.2");
         ("SOPInstanceUID", "1.2.1"); ("ProtocolNorm", "NA"); ("_path", "/in/a.dcm")];
     mk [("PatientID", "P2"); ("StudyInstanceUID", "2"); ("SeriesInstanceUID", "2.1");
         ("SOPInstanceUID", "2.1.1"); ("ProtocolNorm", "NA"); ("_path", "/in/b.dcm")]].

(** An index read with every tag of files that carry no study UID: the
    table has no such column. *)
Definition no_study_column : frame :=
  DataFrame ["PatientID"; "SeriesInstanceUID"; "SOPInstanceUID"; "_path"]
    [mk [("PatientID", "P1"); ("SeriesInstanceUID", "1.2"); ("SOPInstanceUID", "1.2.1");
         ("_path", "/in/a.dcm")]].

(** A series with instance numbers 1, 5, 2, 4 and a slice without a
    number, and a series whose only number is not numeric. *)
Definition gapped_index : frame :=
  DataFrame ["SeriesInstanceUID"; "InstanceNumber"; "_path"]
    [mk [("SeriesInstanceUID", "1.2"); ("InstanceNumber", "1"); ("_path", "/in/a")];
     mk [("SeriesInstanceUID", "1.2"); ("InstanceNumber", "5"); ("_path", "/in/b")];
     mk [("SeriesInstanceUID", "1.2"); ("InstanceNumber", "2"); ("_path", "/in/c")];
     mk [("SeriesInstanceUID", "1.2"); ("_path", "/in/d")];
     mk [("SeriesInstanceUID", "1.2"); ("InstanceNumber", "4"); ("_path", "/in/e")];
     mk [("SeriesInstanceUID", "1.1"); ("InstanceNumber", "x"); ("_path", "/in/f")]].

(** Two slices of one series as the fixed-key reader leaves them when the
    files carry no instance number: the column is there, its cells are NA.
    The slice whose path comes first lies deeper. *)
Definition unnumbered_columns : list string :=
  ["SeriesInstanceUID"; "ImagePositionPatient"; "SOPInstanceUID"; "InstanceNumber"; "_path"].

Definition unnumbered_slices : list row :=
  [mk [("SeriesInstanceUID", "1.2"); ("ImagePositionPatient", "[0, 0, 5]");
       ("SOPInstanceUID", "1.2.1"); ("_path", "/in/a.dcm")];
   mk [("SeriesInstanceUID", "1.2"); ("ImagePositionPatient", "[0, 0, 1]");
       ("SOPInstanceUID", "1.2.2"); ("_path", "/in/b.dcm")]].

(** The same slices in a table that has no instance-number column. *)
Definition positioned_columns : list string :=
  ["SeriesInstanceUID"; "ImagePositionPatient"; "SOPInstanceUID"; "_path"].

(** Two records of one instance: the one met first has the greater
    instance number. *)
Definition numbered_columns : list string :=
  ["SeriesInstanceUID"; "SOPInstanceUID"; "InstanceNumber"; "_path"].

Definition twice_indexed : list row :=
  [mk [("SeriesInstanceUID", "1.2"); ("SOPInstanceUID", "1.2.1");
       ("InstanceNumber", "2"); ("_path", "/in/b.dcm")];
   mk [("SeriesInstanceUID", "1.2"); ("SOPInstanceUID", "1.2.1");
       ("InstanceNumber", "1"); ("_path", "/in/a.dcm")]].

Definition sources : gset string := {["/in/a.dcm"; "/in/b.dcm"]}.

Definition dry : options := Options true 0 Skip Copy.
Definition wet : options := Options false 0 Skip Copy.

End Sample.

(** ** organize_dicom.py: the words of the statements about placed files *)

Module Placing.
Import Organizer.

Section Candidates.
Context {NU : Numeric} {OS : Os}.

(** The [i]-th name the rename policy tries for the destination [dst]:
    [f"{base}__{i}{ext}"]. *)
Definition candidate (dst : string) (i : nat) : string :=
  String.append (splitext dst).1
    (String.append "__" (String.append (pretty i) (splitext dst).2)).

(** The jobs the first loop submits for a group. *)
Definition jobs_of (ns : options) (cols : list string) (target_dir : string)
    (fs : gset string) (g : list row) : list job :=
  omap (submit fs target_dir (pad_of ns (length (numbered cols g)))) (numbered cols g).

End Candidates.

End Placing.

(** ** Decimal numerals *)

Module Digits.

(** The value of a decimal digit. *)
Definition digit_of (c : ascii) : option N :=
  let n := N_of_ascii c in
  if ((48 <=? n) && (n <=? 57))%N then Some (n - 48)%N else None.

(** The number a text starts with: its longest prefix of decimal digits,
    read in base ten after [acc]. *)
Fixpoint leading_number (acc : N) (s : string) : N :=
  match s with
  | EmptyString => acc
  | String c s' =>
      match digit_of c with
      | Some d => leading_number (10 * acc + d) s'
      | None => acc
      end
  end.

(** [n] zeros, the padding of [zero_padded]. *)
Definition zeros (n : nat) : string := String.concat "" (replicate n "0").

(** The numeral of [x] in exactly [w] digits (the last [w] digits of [x],
    zeros in front), before [s]. *)
Fixpoint fixed (w : nat) (x : N) (s : string) : string :=
  match w with
  | 0 => s
  | S w' => fixed w' (x `div` 10)%N (String (pretty_N_char (x `mod` 10)%N) s)
  end.

(** An extension as [os.path.splitext] gives it: empty, or a dot and the
    rest. *)
Definition dotted (ext : string) : Prop :=
  ext = "" ∨ ∃ e, ext = String "." e.

End Digits.

(** ** utils.py *)

Module Utils.
Import Organizer.

(** The default of [keep]. *)
Definition default_keep : string := "-_. ".

(** [ch in "abc...xyzABC...XYZ0123456789"] *)
Definition alnum (c : ascii) : bool :=
  let n := nat_of_ascii c in
  ((97 <=? n) && (n <=? 122)) || ((65 <=? n) && (n <=? 90)) || ((48 <=? n) && (n <=? 57)).

(** [ch in allowed] *)
Definition allowed (keep : string) (c : ascii) : bool := alnum c || contains c keep.

(** [re.sub(r"[\s]+", " ", t)]: every maximal run of white space becomes
    one space.  [in_run]: the character before was white space, the space of
    its run is written already. *)
Fixpoint collapse (in_run : bool) (t : string) : string :=
  match t with
  | EmptyString => EmptyString
  | String c t' =>
      if isspace c then
        if in_run then collapse true t' else String " " (collapse true t')
      else String c (collapse false t')
  end.

(** ["".join(f(ch) for ch in t)] *)
Fixpoint map_chars (f : ascii → ascii) (t : string) : string :=
  match t with
  | EmptyString => EmptyString
  | String c t' => String (f c) (map_chars f t')
  end.

(** [sanitize(text, keep)] *)
Definition sanitize (keep : string) (text : option string) : string :=
  match text with
  | None => "NA"
  | Some t =>
      map_chars (λ ch, if allowed keep ch then ch else "_"%char)
                (collapse false (strip t))
  end.

(** Every character of [t] satisfies [p]. *)
Fixpoint all_chars (p : ascii → bool) (t : string) : bool :=
  match t with
  | EmptyString => true
  | String c t' => p c && all_chars p t'
  end.

(** [t] is laid out as [sanitize] leaves a text: no white space but single
    spaces between other characters.  [b]: a space may not come next. *)
Fixpoint tidy_from (b : bool) (t : string) : bool :=
  match t with
  | EmptyString => negb b
  | String c t' =>
      if isspace c then Ascii.eqb c " " && negb b && tidy_from true t'
      else tidy_from false t'
  end.

Definition tidy (t : string) : bool :=
  match t with
  | EmptyString => true
  | _ => tidy_from true t
  end.

End Utils.

(** ** cli.py and organize_dicom.py: the effective protocol and the filters *)

Module Pipeline.
Import Config.

(** [df[c] = ...]: a new column goes last, an existing one keeps its place. *)
Definition assign_column (c : string) (cols : list string) : list string :=
  if has_column c cols then cols else cols ++ [c].

(** [proto_eff], the cell of [ProtocolEffective], for one row: the protocol
    name, else the series description, else ["NA"]. *)
Definition protocol_effective (cols : list string) (r : row) : string :=
  let proto_eff :=
    if has_column "ProtocolName" cols then default "" (r !! "ProtocolName") else "" in
  let proto_eff :=
    if has_column "SeriesDescription" cols then
      if String.eqb proto_eff "" then default "" (r !! "SeriesDescription") else proto_eff
    else proto_eff in
  if String.eqb proto_eff "" then "NA" else proto_eff.

(** [Series.map(f)] for an [f] that may raise: the first row that raises
    ends the run. *)
Fixpoint map_rows {A B : Type} (f : A → result B) (l : list A) : result (list B) :=
  match l with
  | [] => Ok []
  | x :: l' =>
      match f x with
      | Raise e => Raise e
      | Ok y =>
          match map_rows f l' with
          | Raise e => Raise e
          | Ok ys => Ok (y :: ys)
          end
      end
  end.

(** How pandas and Python print NA, which depends on the kind of the NA
    cell and the version of pandas. *)
Class Pandas := {
  (** what [astype(str)] makes of an NA cell: the text [None] or [nan], or
      NA again *)
  astype_str_na : option string;
  (** [str(k)] for the NA key [k] of a group *)
  str_na : string;
}.

(** The filter options of [organize_dicom.py]; a repeatable option that is
    not given is the empty list. *)
Record filters := Filters {
  modality : list string;
  date_range : option string;
  patient_ids : list string;
  protocol_include : option string;
  protocol_exclude : option string;
}.

(** [s.split(sep, 1)] unpacked into two names: [None] when [sep] is not in
    [s] (the unpacking raises [ValueError]). *)
Fixpoint split_once (sep : ascii) (s : string) : option (string * string) :=
  match s with
  | EmptyString => None
  | String c s' =>
      if Ascii.eqb c sep then Some (EmptyString, s')
      else (λ ab : string * string, (String c ab.1, ab.2)) <$> split_once sep s'
  end.

(** [Series.isin(values)] on one cell: NA is in no list of texts. *)
Definition isin (values : list string) (cell : option string) : bool :=
  match cell with
  | Some v => bool_decide (v ∈ values)
  | None => false
  end.

(** [(col >= start) & (col <= end)] on one cell: a comparison with NA is
    false. *)
Definition between (start end_ : string) (cell : option string) : bool :=
  match cell with
  | Some d => String.leb start d && String.leb d end_
  | None => false
  end.

(** [df[mask]] *)
Definition select (mask : row → bool) (df : frame) : frame :=
  DataFrame (columns df) (filter (λ r, mask r = true) (rows df)).

(** [s or dflt] *)
Definition or_else (s dflt : string) : string :=
  match s with
  | EmptyString => dflt
  | _ => s
  end.

Section Main.
Context {RE : Regex} {PD : Pandas}.

(** The two lines that derive the protocol columns, for one row. *)
Definition enrich_row (cfg : config) (cols : list string) (r : row) : result row :=
  let eff := protocol_effective cols r in
  match normalize_protocol (Some eff) cfg with
  | Ok norm => Ok (<["ProtocolNorm" := norm]> (<["ProtocolEffective" := eff]> r))
  | Raise e => Raise e
  end.

(** [# Derivar protocolo normalizado]: the frame with its two new columns. *)
Definition enrich (cfg : config) (df : frame) : result frame :=
  match map_rows (enrich_row cfg (columns df)) (rows df) with
  | Ok rs =>
      Ok (DataFrame (assign_column "ProtocolNorm"
                       (assign_column "ProtocolEffective" (columns df))) rs)
  | Raise e => Raise e
  end.

(** [col.astype(str).str.contains(pat, case=False, na=False, regex=True)]
    on one row. *)
Definition contains_re (pat : string) (r : row) : option bool :=
  match from_option Some astype_str_na (r !! "ProtocolNorm") with
  | Some s => re_search pat s
  | None => Some false
  end.

(** The same on the column: the pattern is compiled first (as [re.search]
    does on any text), then searched for in every row. *)
Definition str_contains (pat : string) (rs : list row) : result (list bool) :=
  match re_search pat "" with
  | None => Raise ReError
  | Some _ =>
      map_rows (λ r, match contains_re pat r with
                     | Some b => Ok b
                     | None => Raise ReError
                     end) rs
  end.

(** [df[mask]] for a mask given row by row. *)
Definition select_by (mask : list bool) (df : frame) : frame :=
  DataFrame (columns df)
            ((filter (λ rb : row * bool, rb.2 = true) (zip (rows df) mask)).*1).

Definition by_modality (ns : filters) (df : frame) : frame :=
  match modality ns with
  | [] => df
  | _ => if has_column "Modality" (columns df)
         then select (λ r, isin (modality ns) (r !! "Modality")) df
         else df
  end.

Definition by_date (ns : filters) (df : frame) : frame :=
  match date_range ns with
  | None | Some EmptyString => df
  | Some dr =>
      if has_column "StudyDate" (columns df) then
        match split_once ":" dr with
        | Some (start, end_) =>
            select (λ r, between (or_else (strip start) "00000101")
                                 (or_else (strip end_) "99991231")
                                 (r !! "StudyDate")) df
        | None => df                              (* except Exception: pass *)
        end
      else df
  end.

Definition by_patient (ns : filters) (df : frame) : frame :=
  match patient_ids ns with
  | [] => df
  | _ => if has_column "PatientID" (columns df)
         then select (λ r, isin (patient_ids ns) (r !! "PatientID")) df
         else df
  end.

(** The include filter ([exclude] false) and the exclude filter. *)
Definition by_protocol (exclude : bool) (pat : option string) (df : frame) : result frame :=
  match pat with
  | None | Some EmptyString => Ok df
  | Some p =>
      if has_column "ProtocolNorm" (columns df) then
        match str_contains p (rows df) with
        | Ok mask => Ok (select_by (if exclude then negb <$> mask else mask) df)
        | Raise e => Raise e
        end
      else Ok df
  end.

(** [apply_filters(df_in)] *)
Definition apply_filters (ns : filters) (df_in : frame) : result frame :=
  let df_out := by_modality ns df_in in
  let df_out := by_date ns df_out in
  let df_out := by_patient ns df_out in
  match by_protocol false (protocol_include ns) df_out with
  | Ok df_out => by_protocol true (protocol_exclude ns) df_out
  | Raise e => Raise e
  end.

End Main.

(** No filter is given. *)
Definition no_filters : filters := Filters [] None [] None None.

End Pipeline.

(** ** qa.py: duplicated instances and the summary *)

Module Reports.
Import QA Organizer.

(** What a report comes to: a table, or the [KeyError] of a label that is
    no column of the table. *)
Inductive outcome (A : Type) : Type :=
| Done (a : A)
| KeyError (label : string).
Arguments Done {A} a.
Arguments KeyError {A} label.

(** [Series.duplicated(keep=False)] at the row [x]: its value occurs at
    least twice in the column (NA equals NA here). *)
Definition duplicated {K A : Type} `{EqDecision K} (key : A → K) (l : list A) (x : A) : bool :=
  bool_decide (2 ≤ length (filter (λ y, key y = key x) l)).

(** [sort_values([c1, c2, c3])]: ascending on the text of the cells, NA
    last, ties in the order of the table. *)
Definition by_columns (c1 c2 c3 : string) : row → row → bool :=
  lex_le (on_column false String.leb (λ r : row, r !! c1))
         (lex_le (on_column false String.leb (λ r : row, r !! c2))
                 (on_column false String.leb (λ r : row, r !! c3))).

(** [detect_duplicates(df)] *)
Definition detect_duplicates (df : frame) : outcome frame :=
  if negb (has_column "SOPInstanceUID" (columns df)) then Done (DataFrame [] [])
  else
    let dups := filter (λ r, duplicated uid_of (rows df) r = true) (rows df) in
    let third :=
      if has_column "InstanceNumber" (columns df) then "InstanceNumber" else "_path" in
    if negb (has_column "SeriesInstanceUID" (columns df)) then KeyError "SeriesInstanceUID"
    else if negb (has_column third (columns df)) then KeyError third
    else Done (DataFrame (columns df)
                 (sort_by (by_columns "SOPInstanceUID" "SeriesInstanceUID" third) dups)).

(** The ["summary"] of [run_qa]. *)
Record summary := Summary {
  series_with_gaps : nat;
  duplicate_sops : nat;
  rows_missing_critical : nat;
}.

(** The summary [run_qa] draws from its three reports. *)
Definition summary_of (gaps : list gap) (dups missing : frame) : summary :=
  {| series_with_gaps :=
       match gaps with
       | [] => 0
       | _ => length (filter (λ rep, 0 < n_missing rep) gaps)
       end;
     duplicate_sops := if empty dups then 0 else length (rows dups);
     rows_missing_critical := if empty missing then 0 else length (rows missing) |}.

End Reports.

(** ** indexer.py *)

Module Indexer.

Definition DEFAULT_KEYS : list string :=
  ["PatientID"; "PatientName"; "PatientBirthDate"; "StudyInstanceUID"; "StudyDate";
   "AcquisitionTime"; "StudyID"; "AccessionNumber"; "SeriesInstanceUID"; "SeriesNumber";
   "SeriesDescription"; "ProtocolName"; "Modality"; "Manufacturer"; "ImageType";
   "ImagePositionPatient"; "SOPInstanceUID"; "InstanceNumber"; "ConvolutionKernel"; "KVP";
   "ExposureTime"; "ExposureTimeInms"; "XRayTubeCurrent"; "Exposure"; "SpiralPitchFactor";
   "PitchFactor"].

(** A Python [dict] from column names to [str] or [None], in insertion
    order. *)
Definition dict := list (string * option string).

(** [d[k] = v]: a new key goes last, a key that is there keeps its place. *)
Fixpoint dict_set (k : string) (v : option string) (d : dict) : dict :=
  match d with
  | [] => [(k, v)]
  | (k', v') :: d' =>
      if decide (k' = k) then (k', v) :: d' else (k', v') :: dict_set k v d'
  end.

(** A data element as [flatten_dataset] reads it. *)
Record element := Element {
  keyword : string;
  name : string;
  VR : string;
  (** [len(elem.value)] of a sequence *)
  items : nat;
  (** [str(elem.value)]; [None] when reading or printing the value raises *)
  value : option string;
}.

(** pydicom and [os.path.getsize]. *)
Class Dicom := {
  dataset : Type;
  (** [pydicom.dcmread(path, stop_before_pixels=True, force=True)]; [None]
      when it raises *)
  dcmread : string → option dataset;
  (** [str(getattr(ds, k, None))]; [None] when the attribute is absent or
      [None], or reading it raises *)
  getattr : dataset → string → option string;
  (** [ds.iterall()] *)
  iterall : dataset → list element;
  (** [os.path.getsize(path)]; [None] when it raises *)
  getsize : string → option N;
}.

(** The thread pool: [as_completed] hands the futures out in the order they
    complete, some order of the submitted ones. *)
Class Pool := {
  as_completed : ∀ A : Type, list A → list A;
  as_completed_perm : ∀ (A : Type) (l : list A), as_completed A l ≡ₚ l;
}.

(** [s.replace(" ", "")] *)
Fixpoint without_spaces (s : string) : string :=
  match s with
  | EmptyString => EmptyString
  | String c s' =>
      if Ascii.eqb c " " then without_spaces s' else String c (without_spaces s')
  end.

Section Reading.
Context {DI : Dicom} {PO : Pool}.

(** The body of the loop of [flatten_dataset]: [None] is the [continue] of
    the handler. *)
Definition flatten_step (row : dict) (elem : element) : dict :=
  let name := match keyword elem with
              | EmptyString => without_spaces (name elem)
              | k => k
              end in
  if String.eqb (VR elem) "SQ"
  then dict_set name
         (Some (String.append "SQ[" (String.append (pretty (items elem)) "]"))) row
  else match value elem with
       | Some v => dict_set name (Some v) row
       | None => row
       end.

(** [flatten_dataset(ds)] *)
Definition flatten_dataset (ds : dataset) : dict :=
  foldl flatten_step [] (iterall ds).

(** [read_metadata(path, all_tags)]; [None] when it raises. *)
Definition read_metadata (all_tags : bool) (path : string) : option dict :=
  match dcmread path with
  | None => None
  | Some ds =>
      let row :=
        if all_tags then flatten_dataset ds
        else foldl (λ row k, dict_set k (getattr ds k) row) [] DEFAULT_KEYS in
      let row := dict_set "_path" (Some path) row in
      Some (dict_set "_size_bytes" (pretty <$> getsize path) row)
  end.

(** [build_index(inputs, max_workers, all_tags)] *)
Definition build_index (inputs : list string) (all_tags : bool) : list dict :=
  omap id (as_completed _ (read_metadata all_tags <$> inputs)).

End Reading.

(** The labels of [pd.DataFrame(rows)]: the keys of the dictionaries, each
    where it is met first. *)
Definition labels (recs : list dict) : list string :=
  drop_duplicates (λ k : string, k) (concat ((λ d : dict, d.*1) <$> recs)).

(** The cells of a dictionary that are not [None]. *)
Definition cells (d : dict) : row :=
  list_to_map (omap (λ kv : string * option string, (kv.1,.) <$> kv.2) d).

(** [pd.DataFrame(rows)] *)
Definition to_frame (recs : list dict) : frame :=
  DataFrame (labels recs) (cells <$> recs).

End Indexer.

(** ** cli.py: the files of a patient *)

Module Exports.
Import Aggregator.

(** [a == b] on two cells: NA equals nothing, not even NA. *)
Definition eq_cell (a b : option string) : bool :=
  match a, b with
  | Some x, Some y => String.eqb x y
  | _, _ => false
  end.

(** [srow[c]] in a series table with the key columns [keys]; [None] when
    [c] is no key column. *)
Definition key_cell (keys : list string) (c : string) (s : series_row)
    : option (option string) :=
  match list_find (λ k, k = c) keys with
  | Some (i, _) => key s !! i
  | None => None
  end.

(** What is written for one patient: [patient_{spid}_instances.csv] and
    [patient_{spid}_series.csv]; [None] where no series file is written. *)
Record patient_files := PatientFiles {
  pid : option string;
  instances : list row;
  series_of_patient : option (list series_row);
}.

(** [series_df[series_df["PatientID"] == pid]] *)
Definition series_subset (keys : list string) (series_df : list series_row)
    (pid : option string) : option (list series_row) :=
  if has_column "PatientID" keys
  then Some (filter (λ s, from_option (λ c, eq_cell c pid) false
                            (key_cell keys "PatientID" s) = true) series_df)
  else None.

(** [# Per patient instances and series]: the loop over the patients, for
    the series table [series_df] with the key columns [keys]. *)
Definition per_patient (df : frame) (keys : list string) (series_df : list series_row)
    : list patient_files :=
  if has_column "PatientID" (columns df) then
    (λ pg : option string * list row,
       PatientFiles pg.1 pg.2 (series_subset keys series_df pg.1))
      <$> groupby (λ r : row, r !! "PatientID") (rows df)
  else [].

End Exports.

(** ** organize_dicom.py: the columns, the groups and the directories of the
    organizer *)

Module Layout.
Import Utils Reports Pipeline.

(** One turn of [# Garantizar columnas base]: [df[col] = "NA"] when [col] is
    no column. *)
Definition add_missing (df : frame) (col : string) : frame :=
  if has_column col (columns df) then df
  else DataFrame (columns df ++ [col]) ((λ r : row, <[col := "NA"]> r) <$> rows df).

Definition ensure_base_columns (df : frame) : frame :=
  foldl add_missing df ["PatientName"; "PatientID"; "SeriesInstanceUID"].

(** [series_cols] of [organize_dicom.py] *)
Definition series_cols (cols : list string) : list string :=
  ["PatientName"; "PatientID"; "ProtocolNorm"; "StudyInstanceUID"; "SeriesInstanceUID";
   if has_column "SeriesNumber" cols then "SeriesNumber" else "SeriesInstanceUID"].

(** [df.groupby(series_cols, dropna=False, sort=False)]: a label that is no
    column is a [KeyError]. *)
Definition series_groups (df : frame) : outcome (list (list (option string) * list row)) :=
  match filter (λ c, c ∉ columns df) (series_cols (columns df)) with
  | c :: _ => KeyError c
  | [] => Done (groupby (key_of (series_cols (columns df))) (rows df))
  end.

Section Names.
Context {PD : Pandas}.

(** [sanitize(str(k))] for a component [k] of the key of a group *)
Definition component (k : option string) : string :=
  sanitize default_keep (Some (default str_na k)).

(** [test_dirname], for the key of a group; [None] when the key has not
    six components (the unpacking raises). *)
Definition test_dirname (key : list (option string)) : option string :=
  match key with
  | [patient_name; patient_id; proto_norm; study_uid; series_uid; series_number] =>
      Some (String.append "Prueba_"
             (String.append (component patient_name)
               (String.append "__"
                 (String.append (component proto_norm)
                   (String.append "__Series_"
                     (String.append (component series_number)
                       (String.append "_" (component series_uid))))))))
  | _ => None
  end.

End Names.

End Layout.

(** ** scripts/scan_preview.py: the protocols of the sample *)

Module Preview.

(** [a or b] on two values that are a [str] or [None]: the first one that
    is neither [None] nor empty, else the second. *)
Definition or_ (a b : option string) : option string :=
  match a with
  | None | Some EmptyString => b
  | _ => a
  end.

(** [proto], the protocol of a sampled instance. *)
Definition proto (r : row) : string :=
  strip (default "<NA>"
           (or_ (r !! "ProtocolName") (or_ (r !! "SeriesDescription") (Some "<NA>")))).

(** [protocols[proto] = protocols.get(proto, 0) + 1] on a [dict] in
    insertion order. *)
Fixpoint count_one (proto : string) (protocols : list (string * nat)) : list (string * nat) :=
  match protocols with
  | [] => [(proto, 1)]
  | (k, n) :: protocols' =>
      if decide (proto = k) then (k, S n) :: protocols'
      else (k, n) :: count_one proto protocols'
  end.

(** [protocols] after the loop over the instances. *)
Definition protocols (instances : list row) : list (string * nat) :=
  foldl (λ d r, count_one (proto r) d) [] instances.

(** The order of [key=lambda x: (-x[1], x[0])]. *)
Definition by_count (x y : string * nat) : bool :=
  lex_le (λ a b : string * nat, b.2 <=? a.2) (λ a b : string * nat, String.leb a.1 b.1) x y.

(** [top_protocols] *)
Definition top_protocols (instances : list row) : list (string * nat) :=
  take 10 (sort_by by_count (protocols instances)).

End Preview.

(** ** Further worked examples *)

Module Cases.
Import Config Organizer Sample.

(** A target that takes no file: every copy fails. *)
Definition read_only : Os := {|
  basename := basename (Os := posix);
  splitext := splitext (Os := posix);
  join := join (Os := posix);
  transfer _ _ _ := false;
  remove := remove (Os := posix);
|}.


Definition renaming : options := Options false 0 Rename Copy.
Definition overwriting : options := Options false 0 Overwrite Copy.

(** The two sources and a target directory in which the first name and its
    first alternative are taken. *)
Definition organized_once : gset string :=
  {["/in/a.dcm"; "/in/b.dcm"; "/out/T/0001.dcm"; "/out/T/0001__1.dcm"; "/out/T/0002.dcm"]}.

(** An index of three files: one with a protocol name, one with a blank
    name and a series description, one with neither. *)
Definition protocol_index : frame :=
  DataFrame ["PatientID"; "Modality"; "StudyDate"; "ProtocolName"; "SeriesDescription"; "_path"]
    [mk [("PatientID", "P1"); ("Modality", "CT"); ("StudyDate", "20200131");
         ("ProtocolName", " CT Head "); ("SeriesDescription", "axial"); ("_path", "/in/a")];
     mk [("PatientID", "P1"); ("Modality", "MR"); ("StudyDate", "20210101");
         ("ProtocolName", " "); ("SeriesDescription", "sagittal"); ("_path", "/in/b")];
     mk [("PatientID", "P2"); ("StudyDate", "20200201"); ("_path", "/in/c")]].

(** An NA cell keeps being NA under [astype(str)]; the NA key of a group
    is a NaN. *)
#[export] Instance pandas3 : Pipeline.Pandas := {|
  Pipeline.astype_str_na := None;
  Pipeline.str_na := "nan";
|}.

Definition ct_in_2020 : Pipeline.filters :=
  Pipeline.Filters ["CT"] (Some "20200101:20201231") [] None None.

(** The first record of [protocol_index], the only computed-tomography
    record of 2020. *)
Definition head_record : row :=
  mk [("PatientID", "P1"); ("Modality", "CT"); ("StudyDate", "20200131");
      ("ProtocolName", " CT Head "); ("SeriesDescription", "axial"); ("_path", "/in/a")].

(** The second one: its protocol name is a blank. *)
Definition blank_record : row :=
  mk [("PatientID", "P1"); ("Modality", "MR"); ("StudyDate", "20210101");
      ("ProtocolName", " "); ("SeriesDescription", "sagittal"); ("_path", "/in/b")].

(** [protocol_index] with its protocol columns, under [head_rules]. *)
Definition enriched_index : frame :=
  DataFrame ["PatientID"; "Modality"; "StudyDate"; "ProtocolName"; "SeriesDescription"; "_path";
             "ProtocolEffective"; "ProtocolNorm"]
    [mk [("PatientID", "P1"); ("Modality", "CT"); ("StudyDate", "20200131");
         ("ProtocolName", " CT Head "); ("SeriesDescription", "axial"); ("_path", "/in/a");
         ("ProtocolEffective", " CT Head "); ("ProtocolNorm", "CT HEAD")];
     mk [("PatientID", "P1"); ("Modality", "MR"); ("StudyDate", "20210101");
         ("ProtocolName", " "); ("SeriesDescription", "sagittal"); ("_path", "/in/b");
         ("ProtocolEffective", " "); ("ProtocolNorm", "")];
     mk [("PatientID", "P2"); ("StudyDate", "20200201"); ("_path", "/in/c");
         ("ProtocolEffective", "NA"); ("ProtocolNorm", "NA")]].

(** The index of [twice_indexed]: one instance read from two files. *)
Definition twice_indexed_frame : frame := DataFrame numbered_columns twice_indexed.

(** The futures complete in the order they were submitted. *)
#[export] Instance in_order : Indexer.Pool := {|
  Indexer.as_completed _ l := l;
  Indexer.as_completed_perm _ l := reflexivity l;
|}.

(** Two files, the second of which pydicom cannot read.  A data set is the
    list of its attributes. *)
#[export] Instance two_file_disk : Indexer.Dicom := {|
  Indexer.dataset := list (string * string);
  Indexer.dcmread p :=
    if String.eqb p "/in/a.dcm"
    then Some [("PatientID", "P1"); ("SOPInstanceUID", "1.2.1"); ("InstanceNumber", "1")]
    else None;
  Indexer.getattr ds k := (list_to_map ds : gmap string string) !! k;
  Indexer.iterall ds := (λ kv, Indexer.Element kv.1 kv.1 "LO" 0 (Some kv.2)) <$> ds;
  Indexer.getsize p := if String.eqb p "/in/a.dcm" then Some 132%N else None;
|}.

(** An index with a record that has no patient identifier. *)
Definition anonymous_index : frame :=
  DataFrame ["PatientID"; "SeriesInstanceUID"; "SOPInstanceUID"; "ProtocolNorm"; "_path"]
    [mk [("PatientID", "P1"); ("SeriesInstanceUID", "1.2"); ("SOPInstanceUID", "1.2.1");
         ("ProtocolNorm", "NA"); ("_path", "/in/a.dcm")];
     mk [("SeriesInstanceUID", "1.3"); ("SOPInstanceUID", "1.3.1");
         ("ProtocolNorm", "NA"); ("_path", "/in/b.dcm")]].

Definition anonymous_record : row :=
  mk [("SeriesInstanceUID", "1.3"); ("SOPInstanceUID", "1.3.1");
      ("ProtocolNorm", "NA"); ("_path", "/in/b.dcm")].

(** Its series table. *)
Definition anonymous_series : list Aggregator.series_row :=
  [Aggregator.SeriesRow [Some "P1"; Some "1.2"; Some "NA"] 1;
   Aggregator.SeriesRow [None; Some "1.3"; Some "NA"] 1].

End Cases.

(** * Properties *)

(** ** White space *)

Section StripFacts.

Lemma lstrip_all_space s : all_space s = true → lstrip s = "".
Proof.
  induction s as [|c s IH]; simpl; [done|].
  intros [Hc Hs]%andb_prop. rewrite Hc. auto.
Qed.

Lemma strip_all_space s : all_space s = true → strip s = "".
Proof. intros H. unfold strip. by rewrite lstrip_all_space. Qed.

Lemma lstrip_noop s : starts_with_space s = false → lstrip s = s.
Proof. destruct s as [|c s]; simpl; [done|]. by intros ->. Qed.

Lemma rstrip_noop s : ends_with_space s = false → rstrip s = s.
Proof.
  induction s as [|c s IH]; [done|].
  destruct s as [|d s].
  - simpl. by intros ->.
  - intros H. change (ends_with_space (String d s) = false) in H.
    specialize (IH H).
    change (rstrip (String c (String d s)))
      with (match rstrip (String d s) with
            | EmptyString => if isspace c then EmptyString else String c EmptyString
            | t => String c t
            end).
    by rewrite IH.
Qed.

Lemma strip_noop s :
  starts_with_space s = false → ends_with_space s = false → strip s = s.
Proof. intros H1 H2. unfold strip. rewrite lstrip_noop by done. by apply rstrip_noop. Qed.

Lemma lstrip_no_leading s : starts_with_space (lstrip s) = false.
Proof.
  induction s as [|c s IH]; simpl; [done|].
  destruct (isspace c) eqn:E; [done|]. simpl. by rewrite E.
Qed.

Lemma rstrip_cons c s :
  rstrip (String c s)
  = match rstrip s with
    | EmptyString => if isspace c then EmptyString else String c EmptyString
    | t => String c t
    end.
Proof. reflexivity. Qed.

Lemma rstrip_no_trailing s : ends_with_space (rstrip s) = false.
Proof.
  induction s as [|c s IH]; [done|].
  rewrite rstrip_cons. destruct (rstrip s) as [|d t].
  - destruct (isspace c) eqn:E; [done|]. simpl. by rewrite E.
  - done.
Qed.

Lemma rstrip_keeps_head s :
  starts_with_space s = false → starts_with_space (rstrip s) = false.
Proof.
  destruct s as [|c s]; [done|]. simpl starts_with_space at 1. intros Hc.
  rewrite rstrip_cons. destruct (rstrip s); [by rewrite Hc|done].
Qed.

Lemma strip_fixed s :
  strip s = s ↔ starts_with_space s = false ∧ ends_with_space s = false.
Proof.
  split; [|by intros [? ?]; apply strip_noop].
  intros E. rewrite <- E. unfold strip. split.
  - apply rstrip_keeps_head, lstrip_no_leading.
  - apply rstrip_no_trailing.
Qed.

End StripFacts.

(** ** The protocol normalizer *)

Section NormalizerFacts.
Import Config.
Context {RE : Regex}.

Lemma apply_rules_skip r rest s :
  no_match s r → apply_rules (r :: rest) s = apply_rules rest s.
Proof.
  intros H. simpl. destruct (pattern r) as [[|c pat]|] eqn:E; try done.
  by rewrite (H _ E).
Qed.

Lemma apply_rules_unmatched rules s :
  Forall (no_match s) rules → apply_rules rules s = Ok s.
Proof.
  induction 1 as [|r rest Hr _ IH]; [done|].
  by rewrite apply_rules_skip.
Qed.

Lemma apply_rules_total rules s :
  Forall well_formed rules → ∃ t, apply_rules rules s = Ok t.
Proof.
  induction 1 as [|r rest Hr _ IH]; simpl; [by eexists|].
  destruct (pattern r) as [[|c pat]|] eqn:E; try done.
  destruct (Hr _ E) as [Hs Hsub]; [done|].
  destruct (Hs s) as [[|] Hb]; rewrite Hb; [|done].
  destruct (Hsub s Hb) as [t ->]. by eexists.
Qed.

Lemma apply_rules_malformed r rest s pat :
  pattern r = Some pat → pat ≠ "" → re_search pat s = None →
  apply_rules (r :: rest) s = Raise ReError.
Proof.
  intros E Hne Hs. simpl. rewrite E.
  destruct pat; [done|]. by rewrite Hs.
Qed.

Lemma normalize_nonempty n cfg :
  n ≠ "" →
  normalize_protocol (Some n) cfg =
    match get_or ∅ (protocol_map cfg) !! strip n with
    | Some v => Ok v
    | None => apply_rules (get_or [] (protocol_regex cfg)) (strip n)
    end.
Proof. by destruct n. Qed.

(** C2, as the code has it: with rules the regex engine accepts,
    [normalize_protocol] returns a string for every label; a rule whose
    pattern is not found is passed over; a rule whose pattern the engine
    rejects raises [re.error] out of the loop when it is reached. *)
Theorem normalize_returns_on_well_formed_rules (name : option string) (cfg : config) :
  Forall well_formed (get_or [] (protocol_regex cfg)) →
  (∃ t, normalize_protocol name cfg = Ok t)
  ∧ (∀ r rest s, no_match s r → apply_rules (r :: rest) s = apply_rules rest s)
  ∧ (∀ r rest s pat, pattern r = Some pat → pat ≠ "" → re_search pat s = None →
       apply_rules (r :: rest) s = Raise ReError).
Proof.
  intros Hwf. split; [|split].
  - destruct name as [n|]; [|by eexists].
    destruct (decide (n = "")) as [->|Hn]; [by eexists|].
    rewrite normalize_nonempty by done.
    destruct (_ !! _); [by eexists|]. by apply apply_rules_total.
  - apply apply_rules_skip.
  - apply apply_rules_malformed.
Qed.

(** C6, as the code has it: a non-empty label that no table entry and no
    rule matches comes back stripped of its surrounding white space, and so
    unchanged exactly when it has none. *)
Theorem unmatched_label_comes_back_stripped (n : string) (cfg : config) :
  n ≠ "" →
  get_or ∅ (protocol_map cfg) !! strip n = None →
  Forall (no_match (strip n)) (get_or [] (protocol_regex cfg)) →
  normalize_protocol (Some n) cfg = Ok (strip n)
  ∧ (normalize_protocol (Some n) cfg = Ok n
     ↔ starts_with_space n = false ∧ ends_with_space n = false).
Proof.
  intros Hn Hmp Hrules.
  assert (normalize_protocol (Some n) cfg = Ok (strip n)) as H.
  { rewrite normalize_nonempty by done. rewrite Hmp.
    by apply apply_rules_unmatched. }
  split; [done|]. rewrite H, <- strip_fixed.
  split; [by intros [= ?] | by intros ->].
Qed.

(** C9, as the code has it: for a non-empty label whose stripped form has
    an entry in the table, the result is that entry, whatever the regex
    rules are and whatever the engine would answer for them. *)
Theorem exact_entry_wins_over_rules
    (mp : entry (gmap string string)) (rules : entry (list rule)) (n v : string) :
  n ≠ "" →
  get_or ∅ mp !! strip n = Some v →
  normalize_protocol (Some n) (Cfg mp rules) = Ok v.
Proof.
  intros Hn Hv. rewrite normalize_nonempty by done. simpl. by rewrite Hv.
Qed.

(** C10: with no table entry for the empty string and no rule matching
    it, a label of white space only normalizes to the empty string; among
    absent and blank labels, "NA" is the answer for the absent and the empty
    one only. *)
Theorem blank_label_normalizes_to_empty (cfg : config) (name : option string) :
  get_or ∅ (protocol_map cfg) !! "" = None →
  Forall (no_match "") (get_or [] (protocol_regex cfg)) →
  (∀ n, name = Some n → all_space n = true) →
  (∀ n, name = Some n → n ≠ "" → normalize_protocol name cfg = Ok "")
  ∧ (normalize_protocol name cfg = Ok "NA" ↔ name = None ∨ name = Some "").
Proof.
  intros Hmp Hrules Hblank.
  assert (∀ n, name = Some n → n ≠ "" → normalize_protocol name cfg = Ok "") as H.
  { intros n -> Hn. rewrite normalize_nonempty by done.
    rewrite (strip_all_space n) by auto. rewrite Hmp.
    by apply apply_rules_unmatched. }
  split; [done|]. split.
  - destruct name as [n|]; [|auto].
    destruct (decide (n = "")) as [->|Hn]; [auto|].
    rewrite (H n eq_refl Hn). discriminate.
  - by intros [->| ->].
Qed.

End NormalizerFacts.

Section LoadConfigFacts.
Import Config.
Context {FS : FileSystem} {YA : Yaml}.

(** C3, as the code has it: without a path, or with a path at which
    nothing exists, [load_config] returns the empty rule set; a path that
    exists and cannot be read, or does not hold a YAML mapping, raises. *)
Theorem load_config_without_file_is_empty (path : option string) :
  (∀ p, path = Some p → p = "" ∨ os_path_exists p = false) →
  load_config path = Ok empty_rules
  ∧ (∀ p, p ≠ "" → os_path_exists p = true → open_read p = None →
       load_config (Some p) = Raise OSError)
  ∧ (∀ p text, p ≠ "" → os_path_exists p = true → open_read p = Some text →
       safe_load text = None → load_config (Some p) = Raise YAMLError).
Proof.
  intros Habsent. split; [|split].
  - destruct path as [p|]; [|done].
    destruct (Habsent p eq_refl) as [->|He]; [done|].
    destruct p; [done|]. simpl. by rewrite He.
  - intros p Hp He Ho. destruct p; [done|]. simpl. by rewrite He, Ho.
  - intros p text Hp He Ho Hy. destruct p; [done|]. simpl. by rewrite He, Ho, Hy.
Qed.

End LoadConfigFacts.

(** ** The normalizer and the loader on concrete inputs *)

(** Splits [Forall P [x1; ...; xn]] into [P x1], ..., [P xn]. *)
Ltac forall_list :=
  simpl; repeat first [apply Forall_nil_2 | apply Forall_cons_2].

Section ConfigExamples.
Import Config Sample.

Lemma head_rules_well_formed :
  Forall well_formed (get_or [] (protocol_regex head_rules)).
Proof.
  forall_list; intros pat E Hne; simplify_eq/=.
  split; intros s; [by eexists|]. intros _. by eexists.
Qed.

Lemma normalize_returns_witness :
  ∃ t, normalize_protocol (Some " ct Head x") head_rules = Ok t.
Proof.
  exact (proj1 (normalize_returns_on_well_formed_rules
                  (Some " ct Head x") head_rules head_rules_well_formed)).
Defined.

(** C2 fails as stated: the pattern "(" is no regular expression, and
    [re.search] raises on it; nothing in [normalize_protocol] catches that. *)
Lemma malformed_pattern_escapes :
  normalize_protocol (Some "CT") unbalanced_rule = Raise ReError.
Proof. reflexivity. Qed.

(** C6 fails as stated: the label " CT ", which nothing matches, comes
    back as "CT". *)
Lemma padded_label_is_changed :
  ∃ t, normalize_protocol (Some " CT ") empty_rules = Ok t ∧ t ≠ " CT ".
Proof. exists "CT". split; [reflexivity | discriminate]. Qed.

Lemma unmatched_label_witness :
  normalize_protocol (Some " Thorax 1mm ") head_rules = Ok "Thorax 1mm"
  ∧ normalize_protocol (Some "Thorax 1mm") head_rules = Ok "Thorax 1mm".
Proof.
  split.
  - refine (proj1 (unmatched_label_comes_back_stripped " Thorax 1mm " head_rules _ _ _));
      [discriminate | reflexivity |].
    forall_list; intros pat E Hne; by simplify_eq/=.
  - refine (proj2 (proj2 (unmatched_label_comes_back_stripped "Thorax 1mm" head_rules _ _ _)) _);
      [discriminate | reflexivity | | split; reflexivity].
    forall_list; intros pat E Hne; by simplify_eq/=.
Defined.

(** C9 fails as stated, in two ways: the empty label never reaches the
    table, and a label is looked up stripped, so an entry under a key with
    outer white space is never found. *)
Lemma exact_entry_not_returned :
  normalize_protocol (Some "") empty_key_table = Ok "NA"
  ∧ normalize_protocol (Some " ") blank_key_table = Ok "".
Proof. split; reflexivity. Qed.

Lemma exact_entry_witness :
  normalize_protocol (Some " CT HEAD ") head_rules = Ok "HEAD".
Proof.
  apply (exact_entry_wins_over_rules _ _ " CT HEAD " "HEAD"); [discriminate | reflexivity].
Defined.

Lemma blank_label_witness :
  normalize_protocol (Some "   ") head_rules = Ok "".
Proof.
  refine (proj1 (blank_label_normalizes_to_empty head_rules (Some "   ") _ _ _) "   " eq_refl _).
  - reflexivity.
  - forall_list; intros pat E Hne; by simplify_eq/=.
  - intros n [= <-]. reflexivity.
  - discriminate.
Defined.

(** C3 fails as stated: "/" exists and cannot be opened for reading, and
    [load_config] lets the [OSError] of [open] escape. *)
Lemma unreadable_config_raises :
  os_path_exists "/" = true ∧ open_read "/" = None
  ∧ load_config (Some "/") = Raise OSError.
Proof. repeat split. Qed.

Lemma load_config_witness :
  load_config (Some "missing.yaml") = Ok empty_rules.
Proof.
  refine (proj1 (load_config_without_file_is_empty (Some "missing.yaml") _)).
  intros p [= <-]. right. reflexivity.
Defined.

End ConfigExamples.

(** ** Sorting and grouping *)

Section SortFacts.
Context {A : Type} (le : A → A → bool).

Lemma insert_by_perm x l : insert_by le x l ≡ₚ x :: l.
Proof.
  induction l as [|y l IH]; simpl; [done|].
  destruct (le x y); [done|]. by rewrite IH, Permutation_swap.
Qed.

Lemma sort_by_perm l : sort_by le l ≡ₚ l.
Proof.
  induction l as [|x l IH]; simpl; [done|].
  by rewrite insert_by_perm, IH.
Qed.

Lemma elem_of_sort_by x l : x ∈ sort_by le l ↔ x ∈ l.
Proof. by rewrite sort_by_perm. Qed.

Hypothesis le_total : ∀ x y, le x y = true ∨ le y x = true.

Lemma insert_by_HdRel a x l :
  leR le a x → HdRel (leR le) a l → HdRel (leR le) a (insert_by le x l).
Proof.
  intros Hax Hal. destruct l as [|y l]; simpl; [by constructor|].
  destruct (le x y); constructor; [done|]. by inversion Hal.
Qed.

Lemma insert_by_sorted x l :
  Sorted (leR le) l → Sorted (leR le) (insert_by le x l).
Proof.
  induction 1 as [|y l Hs IH Hhd]; simpl; [by repeat constructor|].
  destruct (le x y) eqn:E.
  - constructor; [by constructor|]. by constructor.
  - constructor; [done|]. apply insert_by_HdRel; [|done].
    destruct (le_total x y) as [H|H]; [congruence|done].
Qed.

Lemma sort_by_sorted l : Sorted (leR le) (sort_by le l).
Proof.
  induction l as [|x l IH]; simpl; [constructor|]. by apply insert_by_sorted.
Qed.

End SortFacts.

Section GroupFacts.
Context {K A : Type} `{EqDecision K} (key : A → K).

Lemma add_to_group_keys (k : K) (x : A) (gs : list (K * list A)) :
  ∀ k', k' ∈ (add_to_group k x gs).*1 ↔ k' = k ∨ k' ∈ (gs.*1).
Proof.
  induction gs as [|[k0 g0] gs IH]; intros k'; simpl.
  - rewrite list_elem_of_singleton. split; [by left|].
    intros [H|H]; [done | by apply elem_of_nil in H].
  - destruct (decide (k = k0)) as [->|Hne]; simpl.
    + rewrite !elem_of_cons. tauto.
    + rewrite !elem_of_cons, IH. tauto.
Qed.

Lemma add_to_group_NoDup (k : K) (x : A) (gs : list (K * list A)) : NoDup (gs.*1) → NoDup ((add_to_group k x gs).*1).
Proof.
  induction gs as [|[k0 g0] gs IH]; simpl.
  - intros _. apply NoDup_singleton.
  - rewrite NoDup_cons. intros [Hk0 Hnd].
    destruct (decide (k = k0)) as [->|Hne]; simpl.
    + by apply NoDup_cons.
    + apply NoDup_cons. split; [|by apply IH].
      rewrite add_to_group_keys. intros [?|?]; [congruence|done].
Qed.

Lemma add_to_group_elem (k : K) (x : A) (gs : list (K * list A)) k' g' :
  NoDup (gs.*1) →
  (k', g') ∈ add_to_group k x gs →
  (k' ≠ k ∧ (k', g') ∈ gs)
  ∨ (k' = k ∧ ((∃ g, (k, g) ∈ gs ∧ g' = g ++ [x]) ∨ (¬ (k ∈ gs.*1) ∧ g' = [x]))).
Proof.
  induction gs as [|[k0 g0] gs IH]; simpl.
  - intros _ [= -> ->]%list_elem_of_singleton. right. split; [done|]. right.
    split; [apply not_elem_of_nil | done].
  - rewrite NoDup_cons. intros [Hk0 Hnd].
    destruct (decide (k = k0)) as [->|Hne].
    + rewrite elem_of_cons. intros [[= -> ->]|Hin].
      * right. split; [done|]. left. exists g0. split; [left|done].
      * left. split; [|by right]. intros ->. apply Hk0.
        apply list_elem_of_fmap. by exists (k0, g').
    + rewrite elem_of_cons. intros [[= -> ->]|Hin].
      * left. split; [done|left].
      * destruct (IH Hnd Hin) as [[? ?]|[-> [(g & Hg & ->)|[Hk ->]]]].
        -- left. split; [done|by right].
        -- right. split; [done|]. left. exists g. split; [by right|done].
        -- right. split; [done|]. right. split; [|done].
           simpl. intros [?|?]%elem_of_cons; [congruence|done].
Qed.

Lemma filter_snoc_eq (P : A → Prop) `{∀ x, Decision (P x)} l x :
  filter P (l ++ [x]) = filter P l ++ (if decide (P x) then [x] else []).
Proof. rewrite filter_app. f_equal. Qed.

Lemma filter_none (P : A → Prop) `{∀ x, Decision (P x)} l :
  (∀ x, x ∈ l → ¬ P x) → filter P l = [].
Proof.
  induction l as [|y l IH]; intros Hl; [done|].
  rewrite filter_cons, decide_False by (apply Hl; left).
  apply IH. intros x Hx. apply Hl. by right.
Qed.

Lemma grouped_step gs l x :
  grouped key gs l → grouped key (add_to_group (key x) x gs) (l ++ [x]).
Proof.
  intros (Hnd & Hgs & Hall). split; [|split].
  - by apply add_to_group_NoDup.
  - intros k g Hin.
    destruct (add_to_group_elem _ _ _ _ _ Hnd Hin)
      as [[Hne Hin']|[-> [(g0 & Hg0 & ->)|[Hk ->]]]].
    + destruct (Hgs _ _ Hin') as [Hg ->]. split; [done|].
      rewrite filter_snoc_eq. rewrite decide_False by done. by rewrite app_nil_r.
    + destruct (Hgs _ _ Hg0) as [Hg ->]. split; [by destruct (filter _ l)|].
      rewrite filter_snoc_eq. by rewrite decide_True.
    + split; [done|]. rewrite filter_snoc_eq, decide_True by done.
      replace (filter (λ y, key y = key x) l) with (@nil A); [done|].
      symmetry. apply filter_none.
      intros y Hy Hkey. apply Hk. rewrite <- Hkey. by apply Hall.
  - intros y. rewrite elem_of_app, list_elem_of_singleton, add_to_group_keys.
    intros [Hy| ->]; [right; by apply Hall | by left].
Qed.

Lemma foldl_grouped l : ∀ gs pre,
  grouped key gs pre →
  grouped key (foldl (λ gs x, add_to_group (key x) x gs) gs l) (pre ++ l).
Proof.
  induction l as [|x l IH]; intros gs pre Hg; simpl.
  - by rewrite app_nil_r.
  - rewrite (cons_middle x pre l), app_assoc. apply IH. by apply grouped_step.
Qed.

Lemma groupby_grouped l : grouped key (groupby key l) l.
Proof.
  apply (foldl_grouped l [] []). repeat split.
  - simpl. apply NoDup_nil_2.
  - by apply elem_of_nil in H.
  - by apply elem_of_nil in H.
  - intros x Hx. by apply elem_of_nil in Hx.
Qed.

Lemma add_to_group_concat (k : K) (x : A) (gs : list (K * list A)) :
  concat ((add_to_group k x gs).*2) ≡ₚ x :: concat (gs.*2).
Proof.
  induction gs as [|[k0 g0] gs IH]; simpl; [done|].
  destruct (decide (k = k0)); simpl.
  - rewrite <- app_assoc. simpl. symmetry. apply Permutation_middle.
  - rewrite IH. symmetry. apply Permutation_middle.
Qed.

Lemma groupby_concat l : concat ((groupby key l).*2) ≡ₚ l.
Proof.
  unfold groupby.
  enough (∀ gs, concat ((foldl (λ gs x, add_to_group (key x) x gs) gs l).*2)
                ≡ₚ concat (gs.*2) ++ l) as H by apply (H []).
  induction l as [|x l IH]; intros gs; simpl; [by rewrite app_nil_r|].
  rewrite IH, add_to_group_concat. simpl. apply Permutation_middle.
Qed.

End GroupFacts.

(** Elements of a list without repeated keys are told apart by their keys. *)
Lemma NoDup_fmap_inj_on {A K} (key : A → K) (l : list A) (x y : A) :
  NoDup (key <$> l) → x ∈ l → y ∈ l → key x = key y → x = y.
Proof.
  induction l as [|a l IH]; [by intros _ ?%elem_of_nil|].
  rewrite fmap_cons, NoDup_cons. intros [Ha Hnd] Hx Hy E.
  apply elem_of_cons in Hx as [->|Hx]; apply elem_of_cons in Hy as [->|Hy].
  - done.
  - exfalso. apply Ha. rewrite E. apply list_elem_of_fmap. by exists y.
  - exfalso. apply Ha. rewrite <- E. apply list_elem_of_fmap. by exists x.
  - by apply IH.
Qed.

(** ** The series table *)

Section AggregatorFacts.
Import Aggregator.

Lemma count_perm (base : string) (g1 g2 : list row) :
  g1 ≡ₚ g2 → count base g1 = count base g2.
Proof. intros H. unfold count. by rewrite H. Qed.

Lemma count_concat (base : string) (gs : list (list row)) :
  sum_list (count base <$> gs) = count base (concat gs).
Proof.
  induction gs as [|g gs IH]; csimpl; [done|].
  rewrite IH. unfold count. by rewrite filter_app, length_app.
Qed.

Lemma filter_all_length {A} (P : A → Prop) `{∀ x, Decision (P x)} (l : list A) :
  length (filter P l) = length l ↔ ∀ x, x ∈ l → P x.
Proof.
  split.
  - intros Hlen x Hx. destruct (decide (P x)) as [|Hn]; [done|].
    pose proof (length_filter_lt P l x Hx Hn). lia.
  - intros Hall. induction l as [|y l IH]; [done|].
    rewrite filter_cons, decide_True by (apply Hall; left).
    simpl. f_equal. apply IH. intros x Hx. apply Hall. by right.
Qed.

Lemma drop_dups_from_id {K A} `{EqDecision K} (key : A → K) (l : list A) : ∀ seen,
  NoDup (key <$> l) → (∀ x, x ∈ l → key x ∉ seen) → drop_dups_from key seen l = l.
Proof.
  induction l as [|x l IH]; intros seen Hnd Hseen; simpl; [done|].
  apply NoDup_cons in Hnd as [Hx Hnd].
  rewrite decide_False by (apply Hseen; left). f_equal.
  apply IH; [done|]. intros y Hy [Heq|Hin]%elem_of_cons.
  - apply Hx. apply list_elem_of_fmap. by exists y.
  - apply (Hseen y); [by right | done].
Qed.

Lemma aggregate_sum (keys : list string) (base : string) (rs : list row) :
  sum_list (n_instances <$> aggregate keys base rs) = count base rs.
Proof.
  unfold aggregate. rewrite <- list_fmap_compose.
  rewrite <- (count_perm base _ _ (groupby_concat (key_of keys) rs)).
  rewrite <- count_concat. by rewrite <- list_fmap_compose.
Qed.

Lemma aggregate_keys (keys : list string) (base : string) (rs : list row) :
  key <$> aggregate keys base rs = (groupby (key_of keys) rs).*1.
Proof. unfold aggregate. by rewrite <- list_fmap_compose. Qed.

Lemma aggregate_elem_of (keys : list string) (base : string) (rs : list row) s :
  s ∈ aggregate keys base rs
  ↔ ∃ g, (key s, g) ∈ groupby (key_of keys) rs ∧ n_instances s = count base g.
Proof.
  unfold aggregate. rewrite list_elem_of_fmap. split.
  - intros ([k g] & -> & Hin). by exists g.
  - intros (g & Hin & Hn). exists (key s, g). split; [|done].
    destruct s as [k n]. simpl in *. by subst n.
Qed.

Lemma series_table_raises (wanted : list string) (df : frame) :
  series_table wanted df = ValueError
  ↔ filter (λ c, c ∈ columns df) wanted = []
    ∨ ¬ NoDup (filter (λ c, c ∈ columns df) wanted).
Proof.
  unfold series_table. destruct (filter _ wanted) as [|c keys'] eqn:Ekeys.
  - split; [by left|done].
  - assert (∃ base, base_col (columns df) (c :: keys') = Some base) as [base ->].
    { unfold base_col. destruct (has_column _ _); by eexists. }
    destruct (decide (NoDup (c :: keys'))) as [Hnd|Hnd].
    + split; [done|]. by intros [?|?].
    + split; [by right|done].
Qed.

Lemma series_table_returns (wanted : list string) (df : frame) (table : list series_row) :
  series_table wanted df = Table table →
  NoDup (filter (λ c, c ∈ columns df) wanted)
  ∧ filter (λ c, c ∈ columns df) wanted ≠ []
  ∧ ∃ base, base_col (columns df) (filter (λ c, c ∈ columns df) wanted) = Some base
            ∧ table = aggregate (filter (λ c, c ∈ columns df) wanted) base (rows df).
Proof.
  unfold series_table. destruct (filter _ wanted) as [|c keys'] eqn:Ekeys; [done|].
  destruct (base_col _ _) as [base|] eqn:Ebase; [|done].
  destruct (decide (NoDup (c :: keys'))) as [Hnd|Hnd]; [|done].
  intros [= <-]. split; [done|]. split; [done|]. by exists base.
Qed.

(** C4, as the code has it.  The series table is built only for a list of
    key columns that is not empty and names no column twice; otherwise
    pandas raises [ValueError].  The rows of the table then partition the
    records: no two rows have the same key tuple, every record has its key
    tuple (an NA value included) in exactly one row, and every row stands
    for at least one record.  [n_instances] of a row is the number of the
    records with the row's key whose cell in the counted column is not NA.
    The counts therefore add up to the number of records with a value in
    that column, which is the number of all records exactly when no record
    lacks it (and records with distinct paths are as many as their paths). *)
Theorem series_table_partitions_and_counts
    (wanted : list string) (df : frame) (keys : list string) :
  keys = filter (λ c, c ∈ columns df) wanted →
  (series_table wanted df = ValueError ↔ keys = [] ∨ ¬ NoDup keys)
  ∧ ∀ table, series_table wanted df = Table table →
    ∃ base,
      base_col (columns df) keys = Some base
      ∧ NoDup (key <$> table)
      ∧ (∀ r, r ∈ rows df →
           ∃ s, s ∈ table ∧ key s = key_of keys r
                ∧ ∀ s', s' ∈ table → key s' = key_of keys r → s' = s)
      ∧ (∀ s, s ∈ table →
           (∃ r, r ∈ rows df ∧ key_of keys r = key s)
           ∧ n_instances s
             = length (filter (λ r : row, is_Some (r !! base) ∧ key_of keys r = key s)
                              (rows df)))
      ∧ sum_list (n_instances <$> table)
        = length (filter (λ r : row, is_Some (r !! base)) (rows df))
      ∧ (sum_list (n_instances <$> table) = length (rows df)
         ↔ ∀ r : row, r ∈ rows df → is_Some (r !! base))
      ∧ (NoDup ((λ r : row, r !! "_path") <$> rows df) →
         length (drop_duplicates (λ r : row, r !! "_path") (rows df)) = length (rows df)).
Proof.
  intros ->. split; [apply series_table_raises|].
  intros table (_ & _ & base & Hbase & ->)%series_table_returns.
  exists base. split; [done|].
  set (keys := filter (λ c, c ∈ columns df) wanted).
  destruct (groupby_grouped (key_of keys) (rows df)) as (Hnd & Hgs & Hall).
  assert (NoDup (key <$> aggregate keys base (rows df))) as Hkeys
    by (by rewrite aggregate_keys).
  split; [done|]. split; [|split; [|split; [|split]]].
  - intros r Hr. apply Hall, list_elem_of_fmap in Hr as ([k g] & Hk & Hin).
    simpl in Hk. exists (SeriesRow k (count base g)).
    assert (SeriesRow k (count base g) ∈ aggregate keys base (rows df)) as Hs
      by (apply aggregate_elem_of; by exists g).
    split; [done|]. split; [done|].
    intros s' Hs' Hk'. apply (NoDup_fmap_inj_on key (aggregate keys base (rows df))); try done.
    by rewrite Hk'.
  - intros s (g & Hin & Hn)%aggregate_elem_of.
    destruct (Hgs _ _ Hin) as [Hne Hg]. split.
    + destruct g as [|r g']; [done|]. exists r.
      assert (r ∈ filter (λ r, key_of keys r = key s) (rows df)) as Hr
        by (rewrite <- Hg; left).
      by apply list_elem_of_filter in Hr as [? ?].
    + rewrite Hn. unfold count. rewrite Hg. by rewrite list_filter_filter.
  - apply aggregate_sum.
  - rewrite aggregate_sum. unfold count. apply filter_all_length.
  - intros Hnd'. unfold drop_duplicates. rewrite drop_dups_from_id; try done.
    intros x _. apply not_elem_of_nil.
Qed.

End AggregatorFacts.

Section AggregatorExamples.
Import Aggregator Sample.

(** C4 fails as stated: the second file has no SOP instance UID, so the
    one row of the table of [cli.py] counts one instance, while there are
    two records with two paths.  For the same records [organize_dicom.py]
    builds no table: they have no series number, so its key list names the
    series UID twice. *)
Lemma counts_skip_rows_without_uid :
  (∃ table, series_table series_cols two_files = Table table
     ∧ sum_list (n_instances <$> table) = 1
     ∧ length (drop_duplicates (λ r : row, r !! "_path") (rows two_files)) = 2)
  ∧ filter (λ c, c ∈ columns two_files) (s_cols (columns two_files))
    = ["PatientID"; "SeriesInstanceUID"; "SeriesInstanceUID"; "ProtocolNorm"]
  ∧ series_table (s_cols (columns two_files)) two_files = ValueError.
Proof.
  split; [eexists; repeat split; vm_compute; reflexivity|].
  split; vm_compute; reflexivity.
Qed.

Lemma series_table_witness :
  series_table series_cols full_index
  = Table [SeriesRow [Some "P1"; Some "1"; Some "1.2"; Some "NA"] 1;
           SeriesRow [Some "P2"; Some "2"; Some "2.1"; Some "NA"] 1]
  ∧ sum_list (n_instances
                <$> [SeriesRow [Some "P1"; Some "1"; Some "1.2"; Some "NA"] 1;
                     SeriesRow [Some "P2"; Some "2"; Some "2.1"; Some "NA"] 1])
    = length (rows full_index).
Proof.
  assert (series_table series_cols full_index
          = Table [SeriesRow [Some "P1"; Some "1"; Some "1.2"; Some "NA"] 1;
                   SeriesRow [Some "P2"; Some "2"; Some "2.1"; Some "NA"] 1]) as Htable
    by (vm_compute; reflexivity).
  split; [done|].
  destruct (proj2 (series_table_partitions_and_counts series_cols full_index
                     ["PatientID"; "StudyInstanceUID"; "SeriesInstanceUID"; "ProtocolNorm"]
                     ltac:(vm_compute; reflexivity)) _ Htable)
    as (base & Hbase & _ & _ & _ & _ & Hall & _).
  apply Hall. vm_compute in Hbase. injection Hbase as <-.
  apply Forall_forall. repeat constructor; vm_compute; by eexists.
Defined.

End AggregatorExamples.

(** ** Missing critical tags *)

Section MissingTagsFacts.
Import QA.

Lemma tag_missing_false (c : string) (r : row) :
  tag_missing c r = false ↔ filled c r.
Proof.
  unfold tag_missing, filled. destruct (r !! c) as [s|].
  - rewrite String.eqb_neq. split; [by exists s | by intros (? & [= <-] & ?)].
  - split; [done | by intros (? & ? & ?)].
Qed.

Lemma mask_fold (present : list string) : ∀ m,
  ∃ m', foldl mask_step (Some m) present = Some m'
        ∧ ∀ r, m' r = m r || existsb (λ c, tag_missing c r) present.
Proof.
  induction present as [|c present IH]; intros m; simpl.
  - exists m. split; [done|]. intros r. by rewrite orb_false_r.
  - destruct (IH (λ r, m r || tag_missing c r)) as (m' & -> & Hm').
    exists m'. split; [done|]. intros r. by rewrite Hm', orb_assoc.
Qed.

Lemma mask_of (present : list string) :
  match foldl mask_step None present with
  | None => present = []
  | Some m => present ≠ [] ∧ ∀ r, m r = existsb (λ c, tag_missing c r) present
  end.
Proof.
  destruct present as [|c present]; simpl; [done|].
  destruct (mask_fold present (tag_missing c)) as (m' & -> & Hm'). by split.
Qed.

Lemma report_empty_iff (df : frame) :
  empty (missing_critical_tags df) = true
  ↔ ∀ r c, r ∈ rows df → c ∈ crit → c ∈ columns df → filled c r.
Proof.
  unfold missing_critical_tags.
  pose proof (mask_of (filter (λ c, c ∈ columns df) crit)) as Hmask.
  destruct (foldl mask_step None _) as [m|].
  - destruct Hmask as [Hne Hm].
    destruct (filter (λ c, c ∈ columns df) crit) as [|c0 present] eqn:Epresent; [done|].
    rewrite <- Epresent in Hm. clear Hne.
    unfold empty. cbn [columns rows app].
    split.
    + intros Hempty r c Hr Hc Hcol. apply tag_missing_false.
      destruct (tag_missing c r) eqn:Emiss; [|done]. exfalso.
      assert (r ∈ filter (λ r, m r = true) (rows df)) as Hin.
      { apply list_elem_of_filter. split; [|done]. rewrite Hm.
        apply existsb_exists. exists c. split; [|done].
        apply list_elem_of_In, list_elem_of_filter. by split. }
      destruct (filter _ (rows df)); [by apply elem_of_nil in Hin | done].
    + intros Hall.
      rewrite (filter_none (λ r, m r = true) (rows df)); [done|].
      intros r Hr. rewrite Hm. intros (c & Hc & Hmiss)%existsb_exists.
      apply list_elem_of_In, list_elem_of_filter in Hc as [Hcol Hc].
      apply (Hall r c Hr Hc), tag_missing_false in Hcol. congruence.
  - split; [|done]. intros _ r c Hr Hc Hcol. exfalso.
    assert (c ∈ filter (λ c, c ∈ columns df) crit) as Hin
      by (apply list_elem_of_filter; by split).
    rewrite Hmask in Hin. by apply elem_of_nil in Hin.
Qed.

(** C7, as the code has it: the report is empty if and only if every
    record has a non-empty value for each of the four mandatory identifiers
    that is a column of the table; an identifier that is no column is not
    looked at.  For a table with the four columns this is the claim. *)
Theorem missing_report_empty_iff_present_tags_filled (df : frame) :
  (empty (missing_critical_tags df) = true
   ↔ ∀ r c, r ∈ rows df → c ∈ crit → c ∈ columns df → filled c r)
  ∧ ((∀ c, c ∈ crit → c ∈ columns df) →
     (empty (missing_critical_tags df) = true
      ↔ ∀ r c, r ∈ rows df → c ∈ crit → filled c r)).
Proof.
  split; [apply report_empty_iff|].
  intros Hcols. rewrite report_empty_iff. split.
  - intros H r c Hr Hc. by apply H; [..|apply Hcols].
  - intros H r c Hr Hc _. by apply H.
Qed.

End MissingTagsFacts.

Section MissingTagsExamples.
Import QA Sample.

(** C7 fails as stated: no file carries a study UID, the table has no
    such column, and the report is empty. *)
Lemma absent_column_is_not_reported :
  empty (missing_critical_tags no_study_column) = true
  ∧ ¬ (∀ r c, r ∈ rows no_study_column → c ∈ crit → filled c r).
Proof.
  split; [vm_compute; reflexivity|].
  intros H.
  destruct (H (mk [("PatientID", "P1"); ("SeriesInstanceUID", "1.2");
                   ("SOPInstanceUID", "1.2.1"); ("_path", "/in/a.dcm")])
              "StudyInstanceUID") as (s & Hs & _).
  - left.
  - right. left.
  - vm_compute in Hs. discriminate Hs.
Qed.

End MissingTagsExamples.

(** ** Instance-number gaps *)

Section SortedZFacts.

Lemma Sorted_weaken {A} (R1 R2 : relation A) (l : list A) :
  (∀ x y, R1 x y → R2 x y) → Sorted R1 l → Sorted R2 l.
Proof.
  intros HR. induction 1 as [|x l Hs IH Hhd]; constructor; [done|].
  destruct Hhd; constructor. by apply HR.
Qed.

Lemma sort_Z_strongly_sorted (l : list Z) : StronglySorted Z.le (sort_by Z.leb l).
Proof.
  apply Sorted_StronglySorted; [apply _|].
  apply (Sorted_weaken (leR Z.leb)).
  - intros x y H. by apply Z.leb_le.
  - apply sort_by_sorted. intros x y. rewrite !Z.leb_le. lia.
Qed.

Lemma strongly_sorted_head (l : list Z) lo :
  StronglySorted Z.le l → head l = Some lo → ∀ z, z ∈ l → (lo ≤ z)%Z.
Proof.
  intros Hs Hhd z Hz. destruct l as [|x l]; simplify_eq/=.
  apply StronglySorted_inv in Hs as [_ Hall].
  apply elem_of_cons in Hz as [->|Hz]; [lia|].
  by apply (proj1 (Forall_forall _ _) Hall).
Qed.

Lemma strongly_sorted_last (l : list Z) hi :
  StronglySorted Z.le l → last l = Some hi → ∀ z, z ∈ l → (z ≤ hi)%Z.
Proof.
  induction 1 as [|x l Hs IH Hall]; intros Hlast z Hz; [done|].
  destruct l as [|y l].
  - simplify_eq/=. apply list_elem_of_singleton in Hz as ->. lia.
  - rewrite last_cons_cons in Hlast.
    apply elem_of_cons in Hz as [->|Hz]; [|by apply IH].
    apply (proj1 (Forall_forall _ _) Hall). by apply last_Some_elem_of.
Qed.

Lemma strongly_sorted_strict (l : list Z) :
  StronglySorted Z.le l → NoDup l → StronglySorted Z.lt l.
Proof.
  induction 1 as [|x l Hs IH Hall]; intros Hnd; constructor.
  - apply IH. by apply NoDup_cons in Hnd as [_ ?].
  - apply NoDup_cons in Hnd as [Hx _].
    apply Forall_forall. intros y Hy.
    pose proof (proj1 (Forall_forall _ _) Hall y Hy).
    assert (x ≠ y) by (by intros ->). lia.
Qed.

Lemma strictly_sorted_NoDup (l : list Z) : StronglySorted Z.lt l → NoDup l.
Proof.
  induction 1 as [|x l Hs IH Hall]; [apply NoDup_nil_2|].
  apply NoDup_cons. split; [|done]. intros Hx.
  pose proof (proj1 (Forall_forall _ _) Hall x Hx). lia.
Qed.

Lemma nodup_singleton {A} (l : list A) (a : A) :
  NoDup l → (∀ z, z ∈ l ↔ z = a) → l = [a].
Proof.
  intros Hnd Hl. destruct l as [|x l].
  - pose proof (proj2 (Hl a) eq_refl) as H. by apply elem_of_nil in H.
  - assert (x = a) as -> by (apply Hl; left).
    apply NoDup_cons in Hnd as [Hx _].
    destruct l as [|y l]; [done|].
    assert (y = a) as -> by (apply Hl; right; left).
    exfalso. apply Hx. left.
Qed.

End SortedZFacts.

Section GapFacts.
Import QA.
Context {NU : Numeric}.

Lemma nums_of_observed (g : list row) : nums_of g = sort_by Z.leb (observed g).
Proof. reflexivity. Qed.

Lemma missing_spec (lo hi : Z) (nums : list Z) :
  (∀ z, z ∈ missing lo hi nums ↔ (lo ≤ z ≤ hi)%Z ∧ z ∉ nums)
  ∧ StronglySorted Z.lt (missing lo hi nums).
Proof.
  unfold missing. split.
  - intros z. rewrite elem_of_sort_by, elem_of_elements, elem_of_difference.
    unfold expected. rewrite !elem_of_list_to_set, elem_of_seqZ.
    split; intros [? ?]; (split; [lia|done]).
  - apply strongly_sorted_strict; [apply sort_Z_strongly_sorted|].
    rewrite sort_by_perm. apply NoDup_elements.
Qed.

Lemma gap_of_ok (sid : option string) (g : list row) (rep : gap) :
  gap_of sid g = Some rep → observed g ≠ [] ∧ gap_ok sid (observed g) rep.
Proof.
  unfold gap_of. rewrite nums_of_observed.
  pose proof (sort_Z_strongly_sorted (observed g)) as Hs.
  pose proof (elem_of_sort_by Z.leb) as Hin.
  destruct (head (sort_by Z.leb (observed g))) as [lo|] eqn:Ehd; [|done].
  destruct (last (sort_by Z.leb (observed g))) as [hi|] eqn:Elast; [|done].
  intros [= <-].
  assert (lo ∈ observed g) as Hlo by (by apply Hin, head_Some_elem_of).
  assert (hi ∈ observed g) as Hhi by (by apply Hin, last_Some_elem_of).
  split; [intros E; rewrite E in Hlo; by apply elem_of_nil in Hlo|].
  destruct (missing_spec lo hi (sort_by Z.leb (observed g))) as [Hms Hsorted].
  split; simpl.
  - done.
  - split; [done|]. intros z Hz. apply (strongly_sorted_head _ _ Hs Ehd). by apply Hin.
  - split; [done|]. intros z Hz. apply (strongly_sorted_last _ _ Hs Elast). by apply Hin.
  - unfold expected. rewrite size_list_to_set by apply NoDup_seqZ. apply length_seqZ.
  - f_equal. apply set_eq. intros z. by rewrite !elem_of_list_to_set, Hin.
  - exists (missing lo hi (sort_by Z.leb (observed g))). split; [|done].
    intros z. rewrite Hms. by rewrite Hin.
Qed.

Lemma gap_of_some (sid : option string) (g : list row) :
  observed g ≠ [] → is_Some (gap_of sid g).
Proof.
  intros Hne. unfold gap_of. rewrite nums_of_observed.
  destruct (sort_by Z.leb (observed g)) as [|x l] eqn:E.
  - exfalso. apply Hne. apply Permutation_nil_r. by rewrite <- E, sort_by_perm.
  - simpl. destruct (last (x :: l)) eqn:El; [by eexists|].
    by apply last_None in El.
Qed.

Lemma elem_of_series_groups (rs : list row) sid g :
  (sid, g) ∈ series_groups rs ↔ g ≠ [] ∧ g = series sid rs.
Proof.
  unfold series_groups. rewrite elem_of_sort_by.
  destruct (groupby_grouped (λ r : row, r !! "SeriesInstanceUID") rs) as (Hnd & Hgs & Hall).
  split; [apply Hgs|]. intros [Hne ->].
  destruct (series sid rs) as [|r g'] eqn:E; [done|].
  assert (r ∈ series sid rs) as [Hsid Hr]%list_elem_of_filter by (rewrite E; left).
  apply Hall in Hr. rewrite Hsid in Hr.
  apply list_elem_of_fmap in Hr as ([sid' g0] & -> & Hin). simpl.
  destruct (Hgs _ _ Hin) as [_ Hg0]. simpl in *. fold (series sid' rs) in Hg0.
  by rewrite <- E, <- Hg0.
Qed.

Lemma series_groups_NoDup (rs : list row) : NoDup ((series_groups rs).*1).
Proof.
  unfold series_groups. rewrite sort_by_perm.
  apply (groupby_grouped (λ r : row, r !! "SeriesInstanceUID") rs).
Qed.

Lemma reports_NoDup (gs : list (option string * list row)) :
  NoDup (gs.*1) → NoDup (SeriesInstanceUID <$> omap (λ sg, gap_of sg.1 sg.2) gs).
Proof.
  induction gs as [|[sid g] gs IH]; simpl; [intros; apply NoDup_nil_2|].
  intros [Hsid Hnd]%NoDup_cons.
  destruct (gap_of sid g) as [rep|] eqn:E; simpl; [|by apply IH].
  apply NoDup_cons. split; [|by apply IH].
  intros (rep' & Heq & ([sid' g'] & Hin & Hrep')%list_elem_of_omap)%list_elem_of_fmap.
  apply Hsid. apply list_elem_of_fmap. exists (sid', g'). split; [|done]. simpl in *.
  apply gap_of_ok in E as [_ [E _ _ _ _ _]].
  apply gap_of_ok in Hrep' as [_ [E' _ _ _ _ _]]. congruence.
Qed.

End GapFacts.

Section GapTheorem.
Import QA.
Context {NU : Numeric}.

Lemma detect_instance_gaps_unfold (df : frame) :
  "InstanceNumber" ∈ columns df → "SeriesInstanceUID" ∈ columns df →
  detect_instance_gaps df
  = omap (λ sg, gap_of sg.1 sg.2) (series_groups (rows df)).
Proof.
  intros H1 H2. unfold detect_instance_gaps, has_column.
  by rewrite !bool_decide_eq_true_2.
Qed.

Lemma observed_report (df : frame) (sid : option string) :
  "InstanceNumber" ∈ columns df → "SeriesInstanceUID" ∈ columns df →
  observed (series sid (rows df)) ≠ [] →
  ∃ rep, rep ∈ detect_instance_gaps df
         ∧ gap_ok sid (observed (series sid (rows df))) rep.
Proof.
  intros H1 H2 Hobs. rewrite detect_instance_gaps_unfold by done.
  destruct (gap_of_some sid _ Hobs) as [rep Hrep].
  exists rep. split; [|by apply gap_of_ok in Hrep as [_ ?]].
  apply list_elem_of_omap. exists (sid, series sid (rows df)). split; [|done].
  apply elem_of_series_groups. split; [|done].
  intros E. by rewrite E in Hobs.
Qed.

Lemma gap_12_45 (obs : list Z) (sid : option string) (rep : gap) :
  (∀ z, z ∈ obs ↔ z ∈ [1; 2; 4; 5]%Z) → gap_ok sid obs rep →
  min rep = 1%Z ∧ max rep = 5%Z ∧ n_expected rep = 5 ∧ n_actual rep = 4
  ∧ n_missing rep = 1 ∧ missing_list rep = "3".
Proof.
  intros Hobs [_ [Hmin Hmin'] [Hmax Hmax'] Hexp Hact (ms & Hms & Hsorted & Hn & Hlist)].
  assert (∀ z, z ∈ obs ↔ z = 1 ∨ z = 2 ∨ z = 4 ∨ z = 5)%Z as Hobs'.
  { intros z. rewrite Hobs, !elem_of_cons, elem_of_nil. tauto. }
  assert (min rep = 1)%Z as Emin.
  { pose proof (Hmin' 1%Z (proj2 (Hobs' _) (or_introl eq_refl))).
    apply Hobs' in Hmin. lia. }
  assert (max rep = 5)%Z as Emax.
  { pose proof (Hmax' 5%Z (proj2 (Hobs' _) (or_intror (or_intror (or_intror eq_refl))))).
    apply Hobs' in Hmax. lia. }
  assert (ms = [3%Z]) as ->.
  { apply nodup_singleton; [by apply strictly_sorted_NoDup|].
    intros z. rewrite Hms, Emin, Emax, Hobs'. lia. }
  repeat split; try done.
  - rewrite Hexp, Emin, Emax. reflexivity.
  - rewrite Hact.
    replace (list_to_set obs : gset Z) with (list_to_set [1; 2; 4; 5]%Z : gset Z);
      [reflexivity|].
    apply set_eq. intros z. by rewrite !elem_of_list_to_set, Hobs.
Qed.

(** C8: for a table with the two columns, every series with a parseable
    instance number has one row in the report, no other series has one, and
    the row gives the least and greatest observed value, the size of the
    range between them, the number of distinct observed values, and the
    integers of the range that were not observed, in ascending order, of
    which the first 50 are listed, with the mark after them when there are
    more; observed values 1, 2, 4, 5 give 3 as the one missing value, 5
    expected and 4 actual. *)
Theorem gap_report_is_range_minus_observed (df : frame) :
  "InstanceNumber" ∈ columns df → "SeriesInstanceUID" ∈ columns df →
  (∀ sid, observed (series sid (rows df)) ≠ [] →
     ∃ rep, rep ∈ detect_instance_gaps df
            ∧ gap_ok sid (observed (series sid (rows df))) rep)
  ∧ (∀ rep, rep ∈ detect_instance_gaps df →
       observed (series (SeriesInstanceUID rep) (rows df)) ≠ []
       ∧ gap_ok (SeriesInstanceUID rep)
                (observed (series (SeriesInstanceUID rep) (rows df))) rep)
  ∧ NoDup (SeriesInstanceUID <$> detect_instance_gaps df)
  ∧ (∀ sid, (∀ z, z ∈ observed (series sid (rows df)) ↔ z ∈ [1; 2; 4; 5]%Z) →
       ∃ rep, rep ∈ detect_instance_gaps df ∧ SeriesInstanceUID rep = sid
              ∧ min rep = 1%Z ∧ max rep = 5%Z ∧ n_expected rep = 5
              ∧ n_actual rep = 4 ∧ n_missing rep = 1 ∧ missing_list rep = "3").
Proof.
  intros H1 H2. split; [|split; [|split]].
  - intros sid. by apply observed_report.
  - intros rep. rewrite detect_instance_gaps_unfold by done.
    intros ([sid g] & [Hne ->]%elem_of_series_groups & Hrep)%list_elem_of_omap.
    simpl in Hrep. pose proof Hrep as [Hobs Hok]%gap_of_ok.
    destruct Hok as [<- ? ? ? ? ?]. by split.
  - rewrite detect_instance_gaps_unfold by done.
    apply reports_NoDup, series_groups_NoDup.
  - intros sid Hobs.
    destruct (observed_report df sid H1 H2) as (rep & Hin & Hok).
    { intros E. rewrite E in Hobs.
      assert (1%Z ∈ @nil Z) as H by (apply Hobs; left).
      by apply elem_of_nil in H. }
    exists rep. split; [done|]. split; [by destruct Hok|].
    by apply (gap_12_45 (observed (series sid (rows df))) sid).
Qed.

End GapTheorem.

Section GapExamples.
Import QA Sample.

Example gapped_index_report :
  detect_instance_gaps gapped_index
  = [Gap (Some "1.2") 1 5 5 4 1 "3"].
Proof. vm_compute. reflexivity. Qed.

Lemma gap_report_witness :
  ∃ rep, rep ∈ detect_instance_gaps gapped_index
         ∧ SeriesInstanceUID rep = Some "1.2"
         ∧ min rep = 1%Z ∧ max rep = 5%Z ∧ n_expected rep = 5
         ∧ n_actual rep = 4 ∧ n_missing rep = 1 ∧ missing_list rep = "3".
Proof.
  refine (proj2 (proj2 (proj2
            (gap_report_is_range_minus_observed gapped_index _ _))) (Some "1.2") _).
  - compute_done.
  - compute_done.
  - replace (observed (series (Some "1.2") (rows gapped_index)))
      with [1; 5; 2; 4]%Z by (vm_compute; reflexivity).
    intros z. rewrite !elem_of_cons, !elem_of_nil. tauto.
Defined.

End GapExamples.

(** ** The naming order of a group *)

Section CellOrderFacts.
Context {B : Type} (le : B → B → bool).

Lemma cell_le_total (na_first : bool) :
  (∀ a b, le a b = true ∨ le b a = true) →
  ∀ x y, cell_le na_first le x y = true ∨ cell_le na_first le y x = true.
Proof.
  intros Htot [a|] [b|]; simpl; auto. destruct na_first; auto.
  destruct na_first; auto.
Qed.

Lemma cell_le_trans (na_first : bool) :
  (∀ a b c, le a b = true → le b c = true → le a c = true) →
  ∀ x y z, cell_le na_first le x y = true → cell_le na_first le y z = true →
           cell_le na_first le x z = true.
Proof.
  intros Htr [a|] [b|] [c|]; simpl; try done; try (by destruct na_first).
  apply Htr.
Qed.

End CellOrderFacts.

Section LexFacts.
Context {A : Type} (le1 le2 : A → A → bool).

Lemma lex_le_total :
  (∀ x y, le1 x y = true ∨ le1 y x = true) →
  (∀ x y, le2 x y = true ∨ le2 y x = true) →
  ∀ x y, lex_le le1 le2 x y = true ∨ lex_le le1 le2 y x = true.
Proof.
  intros H1 H2 x y. unfold lex_le.
  destruct (le1 x y) eqn:Exy, (le1 y x) eqn:Eyx; simpl; auto.
  destruct (H1 x y); congruence.
Qed.

Lemma lex_le_first x y : lex_le le1 le2 x y = true → le1 x y = true.
Proof. unfold lex_le. by intros [? _]%andb_prop. Qed.

End LexFacts.

Section ListOrderFacts.
Context {A : Type}.

Lemma Sorted_weaken_in (R1 R2 : relation A) (l : list A) :
  (∀ x y, x ∈ l → y ∈ l → R1 x y → R2 x y) → Sorted R1 l → Sorted R2 l.
Proof.
  intros HR Hs. induction Hs as [|x l Hs IH Hhd]; constructor.
  - apply IH. intros y z Hy Hz. apply HR; by right.
  - destruct Hhd as [|y l' Hxy]; constructor.
    apply HR; [left | right; left | done].
Qed.

Lemma strongly_sorted_lookup (R : relation A) (l : list A) i j x y :
  StronglySorted R l → i < j → l !! i = Some x → l !! j = Some y → R x y.
Proof.
  intros Hs. revert i j. induction Hs as [|a l Hs IH Hall]; intros i j Hij Hi Hj.
  - done.
  - destruct j as [|j]; [lia|]. destruct i as [|i]; simpl in *.
    + injection Hi as <-. apply (proj1 (Forall_forall _ _) Hall).
      by apply list_elem_of_lookup_2 in Hj.
    + apply (IH i j); [lia|done..].
Qed.

End ListOrderFacts.

Section OrderFacts.
Import Organizer.
Context {NU : Numeric}.

Lemma existsb_parseable (g : list row) :
  existsb (λ r, bool_decide (is_Some (zpos_of r))) g = true
  ↔ Exists (λ r, is_Some (zpos_of r)) g.
Proof.
  rewrite existsb_exists, Exists_exists. split.
  - intros (r & Hr%list_elem_of_In & Hp%bool_decide_eq_true). eauto.
  - intros (r & Hr%list_elem_of_In & Hp). exists r. by rewrite bool_decide_eq_true.
Qed.

Lemma order_by_strategy (cols : list string) (g : list row) :
  order cols g = sort_by (strategy_le (select_strategy cols g)) g.
Proof.
  unfold order, select_strategy, has_column.
  destruct (decide ("InstanceNumber" ∈ cols)) as [Hin|Hin].
  { by rewrite bool_decide_eq_true_2. }
  rewrite (bool_decide_eq_false_2 _ Hin).
  destruct (decide ("ImagePositionPatient" ∈ cols)) as [Hip|Hip].
  - rewrite (bool_decide_eq_true_2 _ Hip).
    destruct (existsb _ g) eqn:Eex.
    + apply existsb_parseable in Eex. by rewrite decide_True.
    + rewrite decide_False; [by destruct (decide (_ ∈ cols)); [rewrite bool_decide_eq_true_2|rewrite bool_decide_eq_false_2]|].
      intros [_ Hex%existsb_parseable]. congruence.
  - rewrite (bool_decide_eq_false_2 _ Hip).
    rewrite decide_False by (by intros [? _]).
    by destruct (decide (_ ∈ cols)); [rewrite bool_decide_eq_true_2|rewrite bool_decide_eq_false_2].
Qed.

Lemma order_perm (cols : list string) (g : list row) : order cols g ≡ₚ g.
Proof. rewrite order_by_strategy. apply sort_by_perm. Qed.

Lemma dedup_subset (cols : list string) (g : list row) r : r ∈ dedup cols g → r ∈ g.
Proof.
  unfold dedup, drop_duplicates. destruct (has_column _ _); [|done].
  generalize (@nil (option string)).
  induction g as [|x g IH]; intros seen; simpl; [done|].
  destruct (decide _).
  - intros H. right. by apply (IH seen).
  - intros [->|H]%elem_of_cons; [left | right; by eapply IH].
Qed.

Lemma position_order_ascending (g : list row) :
  StronglySorted (λ r r', on_column true num_le zpos_of r r' = true)
                 (sort_by (strategy_le ByPosition) g).
Proof.
  apply Sorted_StronglySorted.
  { intros x y z. apply cell_le_trans, num_le_trans. }
  apply (Sorted_weaken (leR (strategy_le ByPosition))).
  { intros x y. apply lex_le_first. }
  apply sort_by_sorted. apply lex_le_total.
  - intros x y. apply cell_le_total, num_le_total.
  - intros x y. apply cell_le_total, String.leb_total.
Qed.

Lemma lookup_numbered (cols : list string) (g : list row) i p :
  numbered cols g !! i = Some p ↔
  p.1 = S i ∧ order cols (dedup cols g) !! i = Some p.2.
Proof.
  unfold numbered. destruct p as [n r]. rewrite lookup_zip_Some, lookup_seq. simpl.
  split; [by intros [[-> _] ?]|]. intros [-> Hr]. split; [|done].
  split; [done|]. by apply lookup_lt_Some in Hr.
Qed.

(** X26.  The naming order, as the code computes it: the order is chosen by the
    columns of the table (and, for the position, by the group having a
    parseable one), every row of the deduplicated group gets one number, and
    in a table without an instance-number column a group whose rows all have
    a parseable position is numbered in ascending depth, whatever the order
    of its rows. *)
Theorem naming_order_follows_columns (cols : list string) (g : list row) :
  order cols g = sort_by (strategy_le (select_strategy cols g)) g
  ∧ order cols (dedup cols g) ≡ₚ dedup cols g
  ∧ ("InstanceNumber" ∉ cols → "ImagePositionPatient" ∈ cols →
     (∀ r, r ∈ g → is_Some (zpos_of r)) →
     ∀ i j p q, i < j →
       numbered cols g !! i = Some p → numbered cols g !! j = Some q →
       p.1 = S i ∧ q.1 = S j
       ∧ ∃ z z', zpos_of p.2 = Some z ∧ zpos_of q.2 = Some z' ∧ num_le z z' = true).
Proof.
  split; [apply order_by_strategy|]. split; [apply order_perm|].
  intros Hin Hip Hall i j [n r] [n' r'] Hij [-> Hi]%lookup_numbered [-> Hj]%lookup_numbered.
  simpl in *. split; [done|]. split; [done|].
  assert (r ∈ dedup cols g) as Hr
    by (rewrite <- (order_perm cols); by eapply list_elem_of_lookup_2).
  assert (r' ∈ dedup cols g) as Hr'
    by (rewrite <- (order_perm cols); by eapply list_elem_of_lookup_2).
  destruct (Hall r (dedup_subset _ _ _ Hr)) as [z Hz].
  destruct (Hall r' (dedup_subset _ _ _ Hr')) as [z' Hz'].
  exists z, z'. split; [done|]. split; [done|].
  rewrite order_by_strategy in Hi, Hj.
  assert (select_strategy cols (dedup cols g) = ByPosition) as Esel.
  { unfold select_strategy. rewrite decide_False by done.
    rewrite decide_True; [done|]. split; [done|].
    apply Exists_exists. exists r. split; [done|]. by exists z. }
  rewrite Esel in Hi, Hj.
  pose proof (strongly_sorted_lookup _ _ i j r r' (position_order_ascending _) Hij Hi Hj) as H.
  unfold on_column in H. by rewrite Hz, Hz' in H.
Qed.

End OrderFacts.

(** ** Deduplication and the manifest *)

Section DedupFacts.
Context {K A : Type} `{EqDecision K} (key : A → K).

Lemma drop_dups_from_filter (k : K) (l : list A) : ∀ seen,
  filter (λ x, key x = k) (drop_dups_from key seen l)
  = if decide (k ∈ seen) then [] else take 1 (filter (λ x, key x = k) l).
Proof.
  induction l as [|x l IH]; intros seen; simpl.
  - by destruct (decide (k ∈ seen)).
  - destruct (decide (key x ∈ seen)) as [Hx|Hx].
    + rewrite IH. destruct (decide (k ∈ seen)) as [|Hk]; [done|].
      rewrite (filter_cons _ x l), decide_False; [done|].
      intros E. apply Hk. by rewrite <- E.
    + rewrite !(filter_cons _ x). destruct (decide (key x = k)) as [E|E].
      * rewrite IH, decide_True by (rewrite E; left).
        rewrite decide_False; [done|]. by rewrite <- E.
      * rewrite IH. destruct (decide (k ∈ seen)) as [Hk|Hk].
        -- rewrite decide_True; [done|]. by right.
        -- rewrite decide_False; [done|].
           intros [?|?]%elem_of_cons; [congruence|done].
Qed.


Lemma drop_dups_from_sublist (l : list A) : ∀ seen,
  drop_dups_from key seen l `sublist_of` l.
Proof.
  induction l as [|x l IH]; intros seen; simpl; [done|].
  destruct (decide _); [apply sublist_cons | apply sublist_skip]; apply IH.
Qed.

End DedupFacts.


Section ManifestFacts.
Import Organizer.
Context {NU : Numeric} {OS : Os}.









Lemma collect_snd ns fs (j : job) (jobs : list job) :
  (collect ns fs (j :: jobs)).2
  = (collect ns (materialize ns fs (job_src j) (job_dst j)).2 jobs).2.
Proof.
  simpl. destruct (materialize ns fs (job_src j) (job_dst j)) as [res fs1]. simpl.
  destruct (collect ns fs1 jobs) as [ms fs2]. by destruct res as [[p|]|].
Qed.


(** A call that raises does so under the overwrite policy, at [os.remove]. *)
Lemma materialize_raises ns fs src dst :
  (materialize ns fs src dst).1 = Raises
  ↔ dst ∈ fs ∧ on_collision ns = Overwrite ∧ remove dst = false.
Proof.
  unfold materialize. destruct (decide (dst ∈ fs)) as [Hdst|Hdst].
  - destruct (on_collision ns); [by split; [|intros (_ & ? & _)]| |].
    + destruct (remove dst); [|done].
      destruct (transfer _ _ _); by split; [|intros (_ & _ & ?)].
    + destruct (transfer _ _ _); by split; [|intros (_ & ? & _)].
  - destruct (transfer _ _ _); by split; [|intros (? & _)].
Qed.












End ManifestFacts.

Section DedupTheorem.
Import Organizer Placing.
Context {NU : Numeric} {OS : Os}.







End DedupTheorem.

(** ** The organizer on concrete groups *)

Section OrganizerExamples.
Import Organizer Sample Cases.

(** C1, where the code departs from it: no slice has a parseable instance
    number, both have a position, and the table has the instance-number
    column (as it always has when the fixed keys are read, the cells being
    NA).  The order is then taken from the instance numbers all the same:
    the names follow the paths, and the deeper slice is named first, where
    the claim has the names in ascending depth. *)
Lemma unnumbered_slices_are_named_by_path :
  instance_number_num <$> unnumbered_slices = [None; None]
  ∧ zpos_of <$> unnumbered_slices = [Some 5%Z; Some 1%Z]
  ∧ (λ ir : nat * row, (ir.1, zpos_of ir.2))
      <$> numbered unnumbered_columns unnumbered_slices
    = [(1, Some 5%Z); (2, Some 1%Z)]
  ∧ (organize_group dry unnumbered_columns "/out/T" sources unnumbered_slices).1
    = Some [ManifestRow "0001.dcm" "a.dcm" "/in/a.dcm";
            ManifestRow "0002.dcm" "b.dcm" "/in/b.dcm"].
Proof. repeat split; vm_compute; reflexivity. Qed.

Lemma naming_order_witness :
  ∃ z z' : Z,
    zpos_of (mk [("SeriesInstanceUID", "1.2"); ("ImagePositionPatient", "[0, 0, 1]");
                 ("SOPInstanceUID", "1.2.2"); ("_path", "/in/b.dcm")]) = Some z
    ∧ zpos_of (mk [("SeriesInstanceUID", "1.2"); ("ImagePositionPatient", "[0, 0, 5]");
                   ("SOPInstanceUID", "1.2.1"); ("_path", "/in/a.dcm")]) = Some z'
    ∧ (z <=? z')%Z = true.
Proof.
  refine (proj2 (proj2
    (proj2 (proj2 (naming_order_follows_columns positioned_columns unnumbered_slices))
       _ _ _ 0 1
       (1, mk [("SeriesInstanceUID", "1.2"); ("ImagePositionPatient", "[0, 0, 1]");
               ("SOPInstanceUID", "1.2.2"); ("_path", "/in/b.dcm")])
       (2, mk [("SeriesInstanceUID", "1.2"); ("ImagePositionPatient", "[0, 0, 5]");
               ("SOPInstanceUID", "1.2.1"); ("_path", "/in/a.dcm")])
       _ _ _))).
  - compute_done.
  - compute_done.
  - apply Forall_forall. forall_list; compute_done.
  - lia.
  - vm_compute. reflexivity.
  - vm_compute. reflexivity.
Defined.



End OrganizerExamples.

(** * Further properties of the code *)

(** ** Strings *)

Section StringFacts.

Lemma str_app_cons (c : ascii) (s t : string) :
  String.append (String c s) t = String c (String.append s t).
Proof. reflexivity. Qed.

Lemma str_app_nil_l (t : string) : String.append "" t = t.
Proof. reflexivity. Qed.

Lemma str_length_app (s t : string) :
  String.length (String.append s t) = String.length s + String.length t.
Proof.
  induction s as [|c s IH]; [done|]. rewrite str_app_cons. simpl. by rewrite IH.
Qed.

Lemma str_app_assoc (s t u : string) :
  String.append (String.append s t) u = String.append s (String.append t u).
Proof.
  induction s as [|c s IH]; [done|]. rewrite !str_app_cons. by rewrite IH.
Qed.

Lemma str_app_nil_r (s : string) : String.append s "" = s.
Proof. induction s as [|c s IH]; [done|]. rewrite str_app_cons. by rewrite IH. Qed.

Lemma str_app_inj_r (s t e : string) :
  String.append s e = String.append t e → s = t.
Proof.
  revert t. induction s as [|c s IH]; intros [|d t] E.
  - done.
  - apply (f_equal String.length) in E.
    rewrite str_app_nil_l, str_app_cons in E. simpl in E.
    rewrite str_length_app in E. lia.
  - apply (f_equal String.length) in E.
    rewrite str_app_nil_l, str_app_cons in E. simpl in E.
    rewrite str_length_app in E. lia.
  - rewrite !str_app_cons in E. injection E as -> E. f_equal. by apply IH.
Qed.

End StringFacts.

(** ** Placing a file: the collision policies *)

Section MaterializeFacts.
Import Organizer Placing.
Context {OS : Os}.

Lemma candidate_inj (dst : string) (i j : nat) :
  candidate dst i = candidate dst j → i = j.
Proof.
  unfold candidate. intros E.
  apply (inj (String.append _)) in E. apply (inj (String.append _)) in E.
  apply str_app_inj_r in E. by apply (inj pretty) in E.
Qed.

Lemma free_name_least (dst : string) (fs : gset string) : ∀ fuel i (X : gset string),
  (∀ j, i ≤ j → candidate dst j ∈ fs → candidate dst j ∈ X) →
  size X ≤ fuel →
  ∃ k, i ≤ k
       ∧ free_name fuel i (splitext dst).1 (splitext dst).2 fs = candidate dst k
       ∧ candidate dst k ∉ fs
       ∧ ∀ j, i ≤ j < k → candidate dst j ∈ fs.
Proof.
  induction fuel as [|fuel IH]; intros i X HX Hsize.
  - exists i. split; [done|]. split; [done|]. split; [|intros j ?; lia].
    intros Hin. apply HX in Hin; [|done].
    assert (X ≡ ∅) as HX0 by (apply size_empty_iff; lia).
    rewrite HX0 in Hin. by apply not_elem_of_empty in Hin.
  - simpl. fold (candidate dst i).
    destruct (decide (candidate dst i ∈ fs)) as [Hin|Hout].
    + destruct (IH (S i) (X ∖ {[candidate dst i]})) as (k & Hk & Hres & Hfree & Hused).
      * intros j Hj Hjin. apply elem_of_difference. split; [apply HX; [lia|done]|].
        intros ->%elem_of_singleton%candidate_inj. lia.
      * assert (candidate dst i ∈ X) as HiX by (by apply HX).
        assert (size (X ∖ {[candidate dst i]}) = size X - 1) as ->; [|lia].
        rewrite size_difference by set_solver. by rewrite size_singleton.
      * exists k. split; [lia|]. split; [done|]. split; [done|].
        intros j Hj. destruct (decide (j = i)) as [->|]; [done|]. apply Hused. lia.
    + exists i. split; [done|]. split; [done|]. split; [done|]. intros j ?; lia.
Qed.

(** X1.  Under the rename policy a file whose destination exists is placed
    at the first free name of the series [base__1.ext], [base__2.ext], ...:
    the search ends, every earlier name of the series exists, and no existing
    path is removed or written to. *)
Theorem rename_takes_the_first_free_name
    (ns : options) (fs : gset string) (src dst : string) :
  on_collision ns = Rename → dst ∈ fs →
  ∃ k, 1 ≤ k
    ∧ candidate dst k ∉ fs
    ∧ (∀ j, 1 ≤ j < k → candidate dst j ∈ fs)
    ∧ materialize ns fs src dst
      = (if transfer (link_mode ns) src (candidate dst k)
         then (Returns (Some (candidate dst k)), {[candidate dst k]} ∪ fs)
         else (Returns None, fs)).
Proof.
  intros Hpol Hdst.
  destruct (free_name_least dst fs (size fs) 1 fs) as (k & Hk & Hres & Hfree & Hused);
    [done|done|].
  exists k. split; [done|]. split; [done|]. split; [done|].
  unfold materialize. rewrite decide_True by done. rewrite Hpol, Hres. done.
Qed.

Lemma materialize_loses (ns : options) (fs : gset string) (src dst p : string) :
  p ∈ fs ∧ p ∉ (materialize ns fs src dst).2
  ↔ p = dst ∧ dst ∈ fs ∧ on_collision ns = Overwrite ∧ remove dst = true
    ∧ transfer (link_mode ns) src dst = false.
Proof.
  unfold materialize. split.
  - intros [Hp Hgone]. destruct (decide (dst ∈ fs)) as [Hdst|Hdst].
    + destruct (on_collision ns) eqn:Hpol.
      * done.
      * destruct (remove dst) eqn:Hrm; [|done].
        destruct (transfer (link_mode ns) src dst) eqn:Ht; simpl in Hgone.
        -- destruct (decide (p = dst)) as [->|Hne]; [set_solver|].
           exfalso. apply Hgone. set_solver.
        -- destruct (decide (p = dst)) as [->|Hne]; [done|].
           exfalso. apply Hgone. set_solver.
      * destruct (transfer (link_mode ns) src _); simpl in Hgone; set_solver.
    + destruct (transfer (link_mode ns) src dst); simpl in Hgone; set_solver.
  - intros (-> & Hdst & Hpol & Hrm & Ht).
    rewrite decide_True by done. rewrite Hpol, Hrm, Ht. simpl. set_solver.
Qed.

(** X2.  The only existing path one call of [materialize] can remove is its
    destination, and it does so exactly when the policy is overwrite, the
    removal goes through and the copy that follows it fails.  The call
    raises exactly when, under the overwrite policy, the removal of its
    existing destination raises, and it has changed nothing then. *)
Theorem materialize_loses_only_a_failed_overwrite
    (ns : options) (fs : gset string) (src dst p : string) :
  (p ∈ fs ∧ p ∉ (materialize ns fs src dst).2
   ↔ p = dst ∧ dst ∈ fs ∧ on_collision ns = Overwrite ∧ remove dst = true
     ∧ transfer (link_mode ns) src dst = false)
  ∧ ((materialize ns fs src dst).1 = Raises
     ↔ dst ∈ fs ∧ on_collision ns = Overwrite ∧ remove dst = false)
  ∧ ((materialize ns fs src dst).1 = Raises → (materialize ns fs src dst).2 = fs).
Proof.
  split; [apply materialize_loses|]. split; [apply materialize_raises|].
  intros Hr. pose proof Hr as (Hdst & Hpol & Hrm)%materialize_raises.
  unfold materialize. rewrite decide_True by done. by rewrite Hpol, Hrm.
Qed.

Lemma collect_loses_only_failed_overwrites (ns : options) (jobs : list job) (p : string) :
  ∀ fs, p ∈ fs → p ∉ (collect ns fs jobs).2 →
  on_collision ns = Overwrite
  ∧ ∃ j, j ∈ jobs ∧ job_dst j = p ∧ remove p = true
         ∧ transfer (link_mode ns) (job_src j) p = false.
Proof.
  induction jobs as [|j jobs IH]; intros fs Hp Hgone; [done|].
  rewrite collect_snd in Hgone.
  destruct (decide (p ∈ (materialize ns fs (job_src j) (job_dst j)).2)) as [Hin|Hout].
  - destruct (IH _ Hin Hgone) as (Hpol & j' & Hj' & Hd & Hr & Ht).
    split; [done|]. exists j'. split; [by right|done].
  - destruct (proj1 (materialize_loses ns fs (job_src j) (job_dst j) p))
      as (-> & _ & Hpol & Hrm & Ht); [done|].
    split; [done|]. exists j. split; [by left|done].
Qed.

End MaterializeFacts.

(** ** Decimal numerals and the names of a group *)

Section DigitFacts.
Import Organizer Digits.

Lemma digit_of_char (d : N) : (d < 10)%N → digit_of (pretty_N_char d) = Some d.
Proof.
  intros Hd.
  assert (d = 0 ∨ d = 1 ∨ d = 2 ∨ d = 3 ∨ d = 4 ∨ d = 5 ∨ d = 6 ∨ d = 7 ∨ d = 8 ∨ d = 9)%N
    as Hcases by lia.
  repeat (destruct Hcases as [->|Hcases]; [reflexivity|]). by subst.
Qed.

Lemma leading_number_go (x : N) : ∃ d : N, ∀ acc s,
  leading_number acc (pretty_N_go x s) = leading_number (acc * 10 ^ d + x) s.
Proof.
  induction (N.lt_wf_0 x) as [x _ IH].
  destruct (decide (x = 0%N)) as [->|Hx].
  - exists 0%N. intros acc s. rewrite pretty_N_go_0. f_equal. simpl. lia.
  - destruct (IH (x `div` 10)%N) as [d Hd]; [apply N.div_lt; lia|].
    exists (N.succ d). intros acc s.
    rewrite pretty_N_go_step by lia. rewrite Hd. simpl.
    rewrite digit_of_char by (apply N.mod_lt; lia).
    f_equal. rewrite N.pow_succ_r'.
    pose proof (N.div_mod x 10 ltac:(lia)). lia.
Qed.

Lemma pretty_N_go_app (x : N) : ∀ s e,
  String.append (pretty_N_go x s) e = pretty_N_go x (String.append s e).
Proof.
  induction (N.lt_wf_0 x) as [x _ IH]; intros s e.
  destruct (decide (x = 0%N)) as [->|Hx].
  - by rewrite !pretty_N_go_0.
  - rewrite (pretty_N_go_step x s), (pretty_N_go_step x (String.append s e)) by lia.
    rewrite IH by (apply N.div_lt; lia). by rewrite str_app_cons.
Qed.

Lemma leading_number_stop (acc : N) (e : string) : dotted e → leading_number acc e = acc.
Proof. intros [->|[e' ->]]; reflexivity. Qed.

Lemma leading_number_pretty (n : nat) (e : string) :
  dotted e → leading_number 0 (String.append (pretty n) e) = N.of_nat n.
Proof.
  intros He. unfold pretty, pretty_nat, pretty, pretty_N.
  destruct (decide (N.of_nat n = 0%N)) as [->|Hn].
  - rewrite str_app_cons, str_app_nil_l. simpl. by apply leading_number_stop.
  - rewrite pretty_N_go_app, str_app_nil_l.
    destruct (leading_number_go (N.of_nat n)) as [d Hd]. rewrite Hd.
    rewrite leading_number_stop by done. lia.
Qed.

Lemma zeros_S (n : nat) : zeros (S n) = String "0" (zeros n).
Proof.
  unfold zeros. simpl. destruct (replicate n "0") eqn:E; reflexivity.
Qed.

Lemma leading_number_zeros (n : nat) (s : string) :
  leading_number 0 (String.append (zeros n) s) = leading_number 0 s.
Proof.
  induction n as [|n IH]; [done|]. rewrite zeros_S, str_app_cons. simpl. done.
Qed.

(** Reading a padded index back: [int] of the digits of [f"{idx:0{pad}d}"]. *)
Lemma leading_number_zero_padded (w n : nat) (e : string) :
  dotted e → leading_number 0 (String.append (zero_padded w n) e) = N.of_nat n.
Proof.
  intros He. unfold zero_padded. fold (zeros (w - String.length (pretty n))).
  rewrite str_app_assoc, leading_number_zeros. by apply leading_number_pretty.
Qed.

Lemma zeros_length (n : nat) : String.length (zeros n) = n.
Proof. induction n as [|n IH]; [done|]. rewrite zeros_S. simpl. by rewrite IH. Qed.

Lemma zero_padded_length (w n : nat) :
  String.length (zero_padded w n) = Nat.max w (String.length (pretty n)).
Proof.
  unfold zero_padded. fold (zeros (w - String.length (pretty n))).
  rewrite str_length_app, zeros_length. lia.
Qed.

Lemma zeros_snoc (n : nat) (s : string) :
  String.append (zeros n) (String "0" s) = String.append (zeros (S n)) s.
Proof.
  induction n as [|n IH]; [done|].
  rewrite (zeros_S (S n)), (zeros_S n), !str_app_cons, IH, zeros_S, str_app_cons. done.
Qed.

Lemma fixed_zero (w : nat) : ∀ s, fixed w 0 s = String.append (zeros w) s.
Proof.
  induction w as [|w IH]; intros s; [done|].
  simpl. rewrite IH. change (pretty_N_char 0) with "0"%char. apply zeros_snoc.
Qed.

Lemma fixed_app (w : nat) : ∀ x s e,
  String.append (fixed w x s) e = fixed w x (String.append s e).
Proof.
  induction w as [|w IH]; intros x s e; [done|]. simpl. by rewrite IH, str_app_cons.
Qed.

(** Arithmetic on the last digit and the rest. *)
Ltac decimal_lia x :=
  let Hdm := fresh in
  let Hm := fresh in
  pose proof (N.div_mod x 10 ltac:(lia)) as Hdm;
  pose proof (N.mod_lt x 10 ltac:(lia)) as Hm;
  generalize dependent (x `div` 10)%N; generalize dependent (x `mod` 10)%N;
  intros; lia.

Lemma last_digit_lt (x P : N) : (x `div` 10 < P)%N → (x < 10 * P)%N.
Proof. decimal_lia x. Qed.

Lemma last_digit_le (x P : N) : (P ≤ x `div` 10)%N → (10 * P ≤ x)%N.
Proof. decimal_lia x. Qed.

Lemma div_lt_lt (x y : N) : (x `div` 10 < y `div` 10)%N → (x < y)%N.
Proof.
  pose proof (N.div_mod x 10 ltac:(lia)). pose proof (N.mod_lt x 10 ltac:(lia)).
  decimal_lia y.
Qed.

Lemma div_mod_eq (x y : N) :
  (x `div` 10 = y `div` 10)%N → (x ?= y)%N = (x `mod` 10 ?= y `mod` 10)%N.
Proof.
  intros Hq.
  pose proof (N.div_mod x 10 ltac:(lia)) as Hx.
  pose proof (N.div_mod y 10 ltac:(lia)) as Hy.
  rewrite Hq in Hx.
  generalize dependent (x `mod` 10)%N. generalize dependent (y `mod` 10)%N.
  generalize dependent (y `div` 10)%N. intros q _ my Hy mx Hx.
  destruct (N.compare_spec mx my);
    [apply N.compare_eq_iff|apply N.compare_lt_iff|apply N.compare_gt_iff]; lia.
Qed.

(** The digits of [x]: their number [d], and [pretty] as a numeral of
    fixed width. *)
Lemma pretty_N_go_digits (x : N) : ∃ d : nat,
  (x = 0%N → d = 0)
  ∧ (x < 10 ^ N.of_nat d)%N
  ∧ ((0 < x)%N → (10 ^ N.of_nat (d - 1) ≤ x)%N ∧ 0 < d)
  ∧ ∀ s, String.length (pretty_N_go x s) = d + String.length s
         ∧ ∀ a, String.append (zeros a) (pretty_N_go x s) = fixed (a + d) x s.
Proof.
  induction (N.lt_wf_0 x) as [x _ IH].
  destruct (decide (x = 0%N)) as [->|Hx].
  - exists 0. split; [done|]. split; [simpl; lia|]. split; [lia|]. intros s.
    rewrite pretty_N_go_0. split; [done|]. intros a.
    by rewrite Nat.add_0_r, fixed_zero.
  - destruct (IH (x `div` 10)%N) as (d & Hz & Hlt & Hge & Hs); [apply N.div_lt; lia|].
    exists (S d). split; [lia|]. split; [|split].
    + rewrite Nat2N.inj_succ, N.pow_succ_r'. by apply last_digit_lt.
    + intros _. split; [|lia]. replace (S d - 1) with d by lia.
      destruct (decide (x `div` 10 = 0)%N) as [Hq|Hq].
      * rewrite (Hz Hq). change (10 ^ N.of_nat 0)%N with 1%N. clear -Hx. lia.
      * destruct Hge as [Hge Hd]; [by apply N.neq_0_lt_0|].
        replace d with (S (d - 1)) at 1 by lia.
        rewrite Nat2N.inj_succ, N.pow_succ_r'. by apply last_digit_le.
    + intros s. rewrite pretty_N_go_step by lia.
      destruct (Hs (String (pretty_N_char (x `mod` 10)) s)) as [Hlen Hfix].
      split; [rewrite Hlen; simpl; lia|].
      intros a. rewrite Hfix. replace (a + S d) with (S (a + d)) by lia. done.
Qed.

Lemma pretty_char_compare (a b : N) :
  (a < 10)%N → (b < 10)%N →
  Ascii.compare (pretty_N_char a) (pretty_N_char b) = (a ?= b)%N.
Proof.
  intros Ha Hb.
  assert (a = 0 ∨ a = 1 ∨ a = 2 ∨ a = 3 ∨ a = 4 ∨ a = 5 ∨ a = 6 ∨ a = 7 ∨ a = 8 ∨ a = 9)%N
    as Ha' by lia.
  assert (b = 0 ∨ b = 1 ∨ b = 2 ∨ b = 3 ∨ b = 4 ∨ b = 5 ∨ b = 6 ∨ b = 7 ∨ b = 8 ∨ b = 9)%N
    as Hb' by lia.
  clear Ha Hb.
  repeat (destruct Ha' as [->|Ha']); try subst a;
    repeat (destruct Hb' as [->|Hb']); try subst b; reflexivity.
Qed.

(** Numerals of one width compare as their numbers do. *)
Lemma fixed_compare (w : nat) : ∀ x y s s',
  (x < 10 ^ N.of_nat w)%N → (y < 10 ^ N.of_nat w)%N →
  String.compare (fixed w x s) (fixed w y s')
  = match (x ?= y)%N with Eq => String.compare s s' | c => c end.
Proof.
  induction w as [|w IH]; intros x y s s' Hx Hy.
  - simpl in Hx, Hy. assert (x = 0%N) as -> by lia. assert (y = 0%N) as -> by lia. done.
  - rewrite Nat2N.inj_succ, N.pow_succ_r' in Hx, Hy.
    assert (x `div` 10 < 10 ^ N.of_nat w)%N by (apply N.Div0.div_lt_upper_bound; lia).
    assert (y `div` 10 < 10 ^ N.of_nat w)%N by (apply N.Div0.div_lt_upper_bound; lia).
    simpl. rewrite IH by done.
    destruct (N.compare_spec (x `div` 10) (y `div` 10)) as [Heq|Hl|Hg].
    + simpl. rewrite pretty_char_compare by (apply N.mod_lt; lia).
      rewrite (div_mod_eq x y Heq).
      by destruct (x `mod` 10 ?= y `mod` 10)%N.
    + apply div_lt_lt in Hl. by apply N.compare_lt_iff in Hl as ->.
    + apply div_lt_lt in Hg. by apply N.compare_gt_iff in Hg as ->.
Qed.

Lemma pretty_nat_unfold (n : nat) :
  0 < n → pretty n = pretty_N_go (N.of_nat n) "".
Proof.
  intros Hn. unfold pretty, pretty_nat, pretty, pretty_N.
  rewrite decide_False by lia. done.
Qed.

(** An index that has at most [w] digits, padded to [w]: the numeral of
    width [w]. *)
Lemma zero_padded_fixed (w n : nat) :
  0 < n → String.length (pretty n) ≤ w →
  zero_padded w n = fixed w (N.of_nat n) "" ∧ (N.of_nat n < 10 ^ N.of_nat w)%N.
Proof.
  intros Hn Hw. unfold zero_padded. fold (zeros (w - String.length (pretty n))).
  rewrite pretty_nat_unfold in * by done.
  destruct (pretty_N_go_digits (N.of_nat n)) as (d & _ & Hlt & _ & Hs).
  destruct (Hs "") as [Hlen Hfix]. rewrite Hfix, Hlen in *. simpl in *.
  split; [f_equal; lia|].
  eapply N.lt_le_trans; [done|]. apply N.pow_le_mono_r; lia.
Qed.

Lemma pretty_length_mono (i j : nat) :
  i ≤ j → String.length (pretty i) ≤ String.length (pretty j).
Proof.
  intros Hij. destruct (decide (i = 0)) as [->|Hi].
  - destruct (decide (j = 0)) as [->|Hj]; [done|].
    rewrite (pretty_nat_unfold j) by lia.
    destruct (pretty_N_go_digits (N.of_nat j)) as (d & _ & _ & Hge & Hs).
    destruct (Hs "") as [-> _]. destruct Hge as [_ Hd]; [lia|]. simpl.
    change (String.length (pretty 0)) with 1. lia.
  - rewrite (pretty_nat_unfold i), (pretty_nat_unfold j) by lia.
    destruct (pretty_N_go_digits (N.of_nat i)) as (d & _ & _ & Hge & Hs).
    destruct (pretty_N_go_digits (N.of_nat j)) as (d' & _ & Hlt' & _ & Hs').
    destruct (Hs "") as [-> _]. destruct (Hs' "") as [-> _]. simpl.
    destruct Hge as [Hge Hd]; [lia|].
    destruct (decide (d ≤ d')) as [|Hgt]; [lia|]. exfalso.
    assert (10 ^ N.of_nat d' ≤ 10 ^ N.of_nat (d - 1))%N by (apply N.pow_le_mono_r; lia).
    lia.
Qed.

End DigitFacts.

(** ** The names of a group *)

Section NamingFacts.
Import Organizer Placing Digits.
Context {NU : Numeric} {OS : Os}.

Lemma submit_inv fs dir pad (ir : nat * row) (j : job) :
  submit fs dir pad ir = Some j →
  ∃ src, path_of ir.2 = Some src ∧ src ≠ "" ∧ src ∈ fs
    ∧ j = Job (basename src)
              (String.append (zero_padded pad ir.1) (splitext (basename src)).2) src
              (join dir (String.append (zero_padded pad ir.1) (splitext (basename src)).2)).
Proof.
  unfold submit, path_of. destruct (ir.2 !! "_path") as [[|c s]|] eqn:E; [done| |done].
  destruct (decide (String c s ∈ fs)); [|done].
  intros [= <-]. by exists (String c s).
Qed.

Lemma job_name_index fs dir pad (ir : nat * row) (j : job) :
  (∀ p, dotted (splitext p).2) → submit fs dir pad ir = Some j →
  leading_number 0 (job_name j) = N.of_nat ir.1 ∧ job_dst j = join dir (job_name j).
Proof.
  intros Hext (src & _ & _ & _ & ->)%submit_inv. simpl.
  by rewrite leading_number_zero_padded.
Qed.

(** X3.  Two records of a group that are submitted under different indices
    get different names, whatever their extensions and the pad width (the
    index can be read back from the name), and hence different destinations
    in the directory of the group. *)
Theorem different_indices_give_different_names
    (fs : gset string) (dir : string) (pad : nat) (ir ir' : nat * row) (a b : job) :
  (∀ p, dotted (splitext p).2) →
  submit fs dir pad ir = Some a → submit fs dir pad ir' = Some b →
  ir.1 ≠ ir'.1 →
  job_name a ≠ job_name b ∧ (Inj (=) (=) (join dir) → job_dst a ≠ job_dst b).
Proof.
  intros Hext [Ha Hda]%job_name_index [Hb Hdb]%job_name_index Hne; [|done..].
  assert (job_name a ≠ job_name b) as Hnames.
  { intros E. rewrite E in Ha. lia. }
  split; [done|]. intros Hjoin E. rewrite Hda, Hdb in E. by apply Hjoin in E.
Qed.

(** X4.  With the automatic pad width every index of the group is written
    with the same number of digits, at least four, so that the names of the
    group, compared as text, are in the order of their indices. *)
Theorem automatic_pad_makes_names_sort_by_index
    (ns : options) (total i j : nat) (e e' : string) :
  (pad_width ns ≤ 0)%Z → 0 < i → i < j → j ≤ total →
  4 ≤ pad_of ns total
  ∧ String.length (zero_padded (pad_of ns total) i) = pad_of ns total
  ∧ String.length (zero_padded (pad_of ns total) j) = pad_of ns total
  ∧ String.ltb (String.append (zero_padded (pad_of ns total) i) e)
               (String.append (zero_padded (pad_of ns total) j) e') = true.
Proof.
  intros Hauto Hi Hij Hj.
  assert (pad_of ns total = Nat.max 4 (String.length (pretty total))) as Hpad.
  { unfold pad_of. destruct (0 <? pad_width ns)%Z eqn:E; [lia|done]. }
  pose proof (pretty_length_mono i total ltac:(lia)) as Hli.
  pose proof (pretty_length_mono j total ltac:(lia)) as Hlj.
  split; [lia|]. rewrite !zero_padded_length. split; [lia|]. split; [lia|].
  destruct (zero_padded_fixed (pad_of ns total) i) as [-> Hbi]; [lia|lia|].
  destruct (zero_padded_fixed (pad_of ns total) j) as [-> Hbj]; [lia|lia|].
  unfold String.ltb. rewrite !fixed_app, fixed_compare by done.
  assert (N.of_nat i < N.of_nat j)%N as ->%N.compare_lt_iff by lia. done.
Qed.

Lemma collect_skip (ns : options) (fs : gset string) (jobs : list job) :
  on_collision ns = Skip → (∀ j, j ∈ jobs → job_dst j ∈ fs) →
  collect ns fs jobs
  = (Some ((λ j, ManifestRow (basename "skipped") (job_base j) (job_src j)) <$> jobs), fs).
Proof.
  intros Hpol. induction jobs as [|j jobs IH]; intros Hdst; [done|].
  simpl. unfold materialize. rewrite decide_True by (apply Hdst; by left).
  rewrite Hpol, IH by (intros j' ?; apply Hdst; by right). done.
Qed.

(** X5.  Under the skip policy a group whose destinations all exist is left
    as it is, and yet every one of its records gets a manifest row, named by
    the word [materialize] returns for a skipped file instead of a file name. *)
Theorem skipped_files_are_listed_as_skipped
    (ns : options) (cols : list string) (dir : string) (fs : gset string) (g : list row) :
  dry_run ns = false → on_collision ns = Skip →
  (∀ j, j ∈ jobs_of ns cols dir fs g → job_dst j ∈ fs) →
  organize_group ns cols dir fs g
  = (Some ((λ j, ManifestRow (basename "skipped") (job_base j) (job_src j))
             <$> jobs_of ns cols dir fs g), fs).
Proof.
  intros Hwet Hpol Hdst. unfold organize_group. rewrite Hwet.
  by apply collect_skip.
Qed.

(** X6.  A path that exists before a group is organized and not after it
    was the destination of a record of the group, the policy is overwrite,
    its removal went through and the copy that followed failed; with the
    other policies, and in a dry run, every existing path stays. *)
Theorem organizer_loses_only_failed_overwrites
    (ns : options) (cols : list string) (dir : string) (fs : gset string)
    (g : list row) (p : string) :
  p ∈ fs → p ∉ (organize_group ns cols dir fs g).2 →
  dry_run ns = false ∧ on_collision ns = Overwrite
  ∧ ∃ j, j ∈ jobs_of ns cols dir fs g ∧ job_dst j = p ∧ remove p = true
         ∧ transfer (link_mode ns) (job_src j) p = false.
Proof.
  unfold organize_group. intros Hp Hgone.
  destruct (dry_run ns); [done|]. split; [done|].
  by apply (collect_loses_only_failed_overwrites ns _ p fs).
Qed.

Lemma collect_fresh (ns : options) (jobs : list job) : ∀ fs,
  NoDup (job_dst <$> jobs) →
  (∀ j, j ∈ jobs → job_dst j ∉ fs
                   ∧ basename (job_dst j) = job_name j
                   ∧ transfer (link_mode ns) (job_src j) (job_dst j) = true) →
  collect ns fs jobs
  = (Some ((λ j, ManifestRow (job_name j) (job_base j) (job_src j)) <$> jobs),
     list_to_set (job_dst <$> jobs) ∪ fs).
Proof.
  induction jobs as [|j jobs IH]; intros fs Hnd Hjobs.
  - simpl. f_equal. set_solver.
  - apply NoDup_cons in Hnd as [Hj Hnd].
    destruct (Hjobs j) as (Hfree & Hbase & Ht); [by left|].
    simpl. unfold materialize. rewrite decide_False by done. rewrite Ht.
    rewrite IH; [|done|].
    + rewrite Hbase. f_equal. set_solver.
    + intros j' Hj'. destruct (Hjobs j') as (Hfree' & ? & ?); [by right|].
      split; [|done]. intros [Heq%elem_of_singleton|?]%elem_of_union; [|done].
      apply Hj. rewrite <- Heq. by apply list_elem_of_fmap_2.
Qed.

Lemma jobs_dst_NoDup fs dir pad (plan : list (nat * row)) :
  (∀ p, dotted (splitext p).2) → Inj (=) (=) (join dir) →
  NoDup (plan.*1) → NoDup (job_dst <$> omap (submit fs dir pad) plan).
Proof.
  intros Hext Hjoin. induction plan as [|ir plan IH]; intros Hnd; [constructor|].
  apply NoDup_cons in Hnd as [Hir Hnd]. simpl.
  destruct (submit fs dir pad ir) as [a|] eqn:Ha; [|by apply IH].
  simpl. apply NoDup_cons. split; [|by apply IH].
  intros (b & Hdst & (ir' & Hin & Hb)%list_elem_of_omap)%list_elem_of_fmap.
  apply Hir. assert (ir.1 = ir'.1) as ->; [|by apply list_elem_of_fmap_2].
  apply job_name_index in Ha as [Ha Hda]; [|done].
  apply job_name_index in Hb as [Hb Hdb]; [|done].
  rewrite Hda, Hdb in Hdst. apply Hjoin in Hdst. rewrite Hdst in Ha. lia.
Qed.

Lemma numbered_indices (cols : list string) (g : list row) :
  NoDup ((numbered cols g).*1).
Proof.
  unfold numbered. rewrite fst_zip by (by rewrite length_seq). apply NoDup_seq.
Qed.

(** X7.  Where no destination of the group exists yet and every copy
    succeeds, the run writes exactly the files its dry run lists: the
    manifest is that of the dry run, row by row, and the paths that exist
    afterwards are the old ones and the destinations. *)
Theorem first_run_writes_what_the_dry_run_lists
    (ns : options) (cols : list string) (dir : string) (fs : gset string) (g : list row) :
  dry_run ns = false →
  (∀ p, dotted (splitext p).2) → Inj (=) (=) (join dir) →
  (∀ j, j ∈ jobs_of ns cols dir fs g →
     job_dst j ∉ fs ∧ basename (job_dst j) = job_name j
     ∧ transfer (link_mode ns) (job_src j) (job_dst j) = true) →
  (organize_group ns cols dir fs g).1
  = (organize_group (Options true (pad_width ns) (on_collision ns) (link_mode ns))
                    cols dir fs g).1
  ∧ (organize_group ns cols dir fs g).2
    = list_to_set (job_dst <$> jobs_of ns cols dir fs g) ∪ fs.
Proof.
  intros Hwet Hext Hjoin Hjobs. unfold organize_group. rewrite Hwet. simpl.
  change (omap _ (numbered cols g)) with (jobs_of ns cols dir fs g).
  rewrite (collect_fresh ns (jobs_of ns cols dir fs g) fs); [done| |done].
  apply jobs_dst_NoDup; [done|done|]. apply numbered_indices.
Qed.

End NamingFacts.

(** ** The collision policies and the names on concrete groups *)

Section PlacingExamples.
Import Organizer Placing Digits Sample Cases.

Lemma posix_dotted (p : string) : dotted (splitext p).2.
Proof.
  unfold splitext, posix. destruct (contains dot (after_last slash p)).
  - right. by eexists.
  - by left.
Qed.

Lemma posix_join_inj (dir : string) : Inj (=) (=) (join dir).
Proof.
  intros a b E. unfold join, posix in E.
  apply (inj (String.append dir)) in E. by injection E.
Qed.

Lemma rename_witness :
  ∃ k, 1 ≤ k
    ∧ candidate "/out/T/0001.dcm" k ∉ organized_once
    ∧ (∀ j, 1 ≤ j < k → candidate "/out/T/0001.dcm" j ∈ organized_once)
    ∧ materialize renaming organized_once "/in/a.dcm" "/out/T/0001.dcm"
      = (if transfer (link_mode renaming) "/in/a.dcm" (candidate "/out/T/0001.dcm" k)
         then (Returns (Some (candidate "/out/T/0001.dcm" k)),
               {[candidate "/out/T/0001.dcm" k]} ∪ organized_once)
         else (Returns None, organized_once)).
Proof.
  apply (rename_takes_the_first_free_name renaming organized_once
           "/in/a.dcm" "/out/T/0001.dcm").
  - reflexivity.
  - compute_done.
Defined.

(** The second alternative is the one taken. *)
Example rename_takes_the_second_alternative :
  (materialize renaming organized_once "/in/a.dcm" "/out/T/0001.dcm").1
  = Returns (Some "/out/T/0001__2.dcm").
Proof. vm_compute. reflexivity. Qed.

Lemma failed_overwrite_witness :
  dry_run overwriting = false ∧ on_collision overwriting = Overwrite
  ∧ ∃ j, j ∈ jobs_of (OS := read_only) overwriting positioned_columns "/out/T"
                     organized_once unnumbered_slices
         ∧ job_dst j = "/out/T/0001.dcm"
         ∧ remove (Os := read_only) "/out/T/0001.dcm" = true
         ∧ transfer (Os := read_only) (link_mode overwriting) (job_src j) "/out/T/0001.dcm"
           = false.
Proof.
  apply (organizer_loses_only_failed_overwrites (OS := read_only) overwriting
           positioned_columns "/out/T" organized_once unnumbered_slices "/out/T/0001.dcm").
  - compute_done.
  - compute_done.
Defined.

Lemma skipped_witness :
  organize_group wet positioned_columns "/out/T" organized_once unnumbered_slices
  = (Some ((λ j, ManifestRow (basename "skipped") (job_base j) (job_src j))
             <$> jobs_of wet positioned_columns "/out/T" organized_once unnumbered_slices),
     organized_once).
Proof.
  apply (skipped_files_are_listed_as_skipped wet positioned_columns "/out/T"
           organized_once unnumbered_slices).
  - reflexivity.
  - reflexivity.
  - apply Forall_forall. forall_list; compute_done.
Defined.

Lemma different_names_witness :
  "0001.dcm" ≠ "0002.dcm"
  ∧ (Inj (=) (=) (join "/out/T") → "/out/T/0001.dcm" ≠ "/out/T/0002.dcm").
Proof.
  apply (different_indices_give_different_names sources "/out/T" 4
           (1, mk [("_path", "/in/a.dcm")]) (2, mk [("_path", "/in/b.dcm")])
           (Job "a.dcm" "0001.dcm" "/in/a.dcm" "/out/T/0001.dcm")
           (Job "b.dcm" "0002.dcm" "/in/b.dcm" "/out/T/0002.dcm")).
  - apply posix_dotted.
  - vm_compute. reflexivity.
  - vm_compute. reflexivity.
  - simpl. lia.
Defined.

Lemma automatic_pad_witness :
  4 ≤ pad_of wet 120
  ∧ String.length (zero_padded (pad_of wet 120) 9) = pad_of wet 120
  ∧ String.length (zero_padded (pad_of wet 120) 10) = pad_of wet 120
  ∧ String.ltb (String.append (zero_padded (pad_of wet 120) 9) ".dcm")
               (String.append (zero_padded (pad_of wet 120) 10) "") = true.
Proof.
  apply (automatic_pad_makes_names_sort_by_index wet 120 9 10 ".dcm" "").
  - simpl. lia.
  - lia.
  - lia.
  - lia.
Defined.

Lemma first_run_witness :
  (organize_group wet positioned_columns "/out/T" sources unnumbered_slices).1
  = (organize_group (Options true (pad_width wet) (on_collision wet) (link_mode wet))
                    positioned_columns "/out/T" sources unnumbered_slices).1
  ∧ (organize_group wet positioned_columns "/out/T" sources unnumbered_slices).2
    = list_to_set (job_dst <$> jobs_of wet positioned_columns "/out/T" sources
                                       unnumbered_slices) ∪ sources.
Proof.
  apply (first_run_writes_what_the_dry_run_lists wet positioned_columns "/out/T"
           sources unnumbered_slices).
  - reflexivity.
  - apply posix_dotted.
  - apply posix_join_inj.
  - apply Forall_forall. forall_list; (split; [compute_done|split; vm_compute; reflexivity]).
Defined.

End PlacingExamples.

(** ** Names of directories and files: [sanitize] *)

Section SanitizeFacts.
Import Organizer Utils.

Lemma map_chars_length (f : ascii → ascii) (t : string) :
  String.length (map_chars f t) = String.length t.
Proof. induction t as [|c t IH]; [done|]. simpl. by rewrite IH. Qed.

Lemma collapse_length (t : string) : ∀ b,
  String.length (collapse b t) ≤ String.length t.
Proof.
  induction t as [|c t IH]; intros b; [done|]. simpl.
  pose proof (IH true). pose proof (IH false).
  destruct (isspace c); [destruct b|]; simpl; lia.
Qed.

Lemma lstrip_length (t : string) : String.length (lstrip t) ≤ String.length t.
Proof. induction t as [|c t IH]; [done|]. simpl. destruct (isspace c); simpl; lia. Qed.

Lemma rstrip_length (t : string) : String.length (rstrip t) ≤ String.length t.
Proof.
  induction t as [|c t IH]; [done|]. rewrite rstrip_cons.
  destruct (rstrip t); [destruct (isspace c)|]; simpl in *; lia.
Qed.

Lemma strip_length (t : string) : String.length (strip t) ≤ String.length t.
Proof.
  unfold strip. etrans; [apply rstrip_length|apply lstrip_length].
Qed.

Lemma map_chars_all (keep : string) (t : string) :
  all_chars (λ c, allowed keep c || Ascii.eqb c "_")
            (map_chars (λ ch, if allowed keep ch then ch else "_"%char) t) = true.
Proof.
  induction t as [|c t IH]; [done|]. simpl. rewrite IH.
  destruct (allowed keep c) eqn:E; [by rewrite E|]. by rewrite orb_true_r.
Qed.

Lemma all_chars_weaken (p q : ascii → bool) (t : string) :
  (∀ c, p c = true → q c = true) → all_chars p t = true → all_chars q t = true.
Proof.
  intros Hpq. induction t as [|c t IH]; [done|]. simpl.
  intros [Hc Ht]%andb_true_iff. by rewrite (Hpq c Hc), IH.
Qed.

Lemma all_chars_contains (p : ascii → bool) (t : string) (c : ascii) :
  all_chars p t = true → contains c t = true → p c = true.
Proof.
  induction t as [|c' t IH]; [done|]. simpl.
  intros [Hc Ht]%andb_true_iff [Heq%Ascii.eqb_eq|Hin]%orb_true_iff; [by subst|by apply IH].
Qed.

(** X8.  [sanitize] writes only letters, digits, the characters of [keep]
    and the underscore, and never more characters than it is given; with the
    default [keep], which has the underscore, every character of the result
    is a letter, a digit or one of [-_. ], so that the result holds no path
    separator. *)
Theorem sanitize_writes_only_allowed_characters (keep : string) (text : option string) :
  all_chars (λ c, allowed keep c || Ascii.eqb c "_") (sanitize keep text) = true
  ∧ all_chars (allowed default_keep) (sanitize default_keep text) = true
  ∧ contains "/" (sanitize default_keep text) = false
  ∧ contains backslash (sanitize default_keep text) = false
  ∧ (∀ t, text = Some t → String.length (sanitize keep text) ≤ String.length t).
Proof.
  assert (∀ keep, all_chars (λ c, allowed keep c || Ascii.eqb c "_") (sanitize keep text) = true)
    as Hall.
  { intros k. destruct text as [t|]; [apply map_chars_all|].
    simpl. unfold allowed. by rewrite !orb_true_r || reflexivity. }
  assert (all_chars (allowed default_keep) (sanitize default_keep text) = true) as Hdef.
  { eapply all_chars_weaken; [|apply Hall]. intros c [Hc|Hc%Ascii.eqb_eq]%orb_true_iff; [done|].
    by subst. }
  split; [apply Hall|]. split; [done|]. split; [|split].
  - destruct (contains "/" _) eqn:E; [|done].
    by apply (all_chars_contains _ _ _ Hdef) in E.
  - destruct (contains backslash _) eqn:E; [|done].
    by apply (all_chars_contains _ _ _ Hdef) in E.
  - intros t ->. simpl. rewrite map_chars_length.
    etrans; [apply collapse_length|apply strip_length].
Qed.

Lemma tidy_from_weaken (t : string) : tidy_from true t = true → tidy_from false t = true.
Proof.
  destruct t as [|c t]; [done|]. simpl. destruct (isspace c); [|done].
  by rewrite andb_false_r.
Qed.

Lemma tidy_from_no_leading (t : string) :
  tidy_from true t = true → starts_with_space t = false.
Proof.
  destruct t as [|c t]; [done|]. simpl. destruct (isspace c); [|done].
  by rewrite andb_false_r.
Qed.

Lemma tidy_from_no_trailing (t : string) : ∀ b,
  tidy_from b t = true → ends_with_space t = false.
Proof.
  induction t as [|c t IH]; intros b; [done|]. simpl.
  destruct t as [|c' t].
  - destruct (isspace c); [|done]. simpl. by rewrite andb_false_r.
  - destruct (isspace c).
    + intros [_ Ht]%andb_true_iff. by apply (IH true).
    + by apply (IH false).
Qed.

Lemma tidy_strip (t : string) : tidy t = true → strip t = t.
Proof.
  destruct t as [|c t]; [done|]. unfold tidy. intros Ht. apply strip_noop.
  - by apply tidy_from_no_leading.
  - by apply (tidy_from_no_trailing _ true).
Qed.

Lemma tidy_from_collapse (t : string) :
  (∀ b, tidy_from b t = true → collapse false t = t)
  ∧ (tidy_from true t = true → collapse true t = t).
Proof.
  induction t as [|c t [IH1 IH2]]; [done|]. simpl.
  destruct (isspace c) eqn:Hc.
  - split; [|by rewrite andb_false_r].
    intros b [[Hsp%Ascii.eqb_eq _]%andb_true_iff Ht]%andb_true_iff. subst c.
    f_equal. by apply IH2.
  - split; intros; f_equal; by apply (IH1 false).
Qed.

Lemma tidy_collapse (t : string) : tidy t = true → collapse false t = t.
Proof. destruct t as [|c t]; [done|]. apply (proj1 (tidy_from_collapse _)). Qed.

Lemma collapse_tidy (t : string) :
  ends_with_space t = false →
  tidy_from false (collapse false t) = true
  ∧ (t ≠ "" → tidy_from true (collapse true t) = true).
Proof.
  induction t as [|c t IH]; [done|]. intros Hend.
  assert (t = "" ∧ isspace c = false ∨ t ≠ "" ∧ ends_with_space t = false) as Hcases.
  { destruct t; [left|right]; done. }
  simpl. destruct Hcases as [[-> Hc]|[Hne Hend']].
  - rewrite Hc. simpl. by rewrite Hc.
  - destruct (IH Hend') as [IH1 IH2]. destruct (isspace c) eqn:Hc.
    + simpl. split; [by apply IH2|]. intros _. by apply IH2.
    + simpl. by rewrite Hc.
Qed.

Lemma strip_collapse_tidy (t : string) : tidy (collapse false (strip t)) = true.
Proof.
  pose proof (rstrip_no_trailing (lstrip t)) as Hend.
  pose proof (rstrip_keeps_head _ (lstrip_no_leading t)) as Hhead.
  fold (strip t) in Hend, Hhead.
  destruct (strip t) as [|c u] eqn:E; [done|].
  simpl in Hhead. simpl. rewrite Hhead. simpl. rewrite Hhead.
  destruct u as [|c' u]; [done|]. by apply collapse_tidy.
Qed.

Lemma map_chars_tidy (f : ascii → ascii) (t : string) :
  (∀ c, isspace (f c) = true → f c = c) →
  (∀ c, isspace c = false → isspace (f c) = false) →
  ∀ b, tidy_from b t = true → tidy_from b (map_chars f t) = true.
Proof.
  intros Hsp Hns. induction t as [|c t IH]; intros b; [done|]. simpl.
  destruct (isspace c) eqn:Hc.
  - intros [[Heq Hb]%andb_true_iff Ht]%andb_true_iff.
    destruct (isspace (f c)) eqn:Hfc.
    + rewrite (Hsp c Hfc), Heq, Hb. simpl. by apply IH.
    + apply IH. by apply tidy_from_weaken.
  - intros Ht. rewrite (Hns c Hc). by apply IH.
Qed.

Lemma map_chars_idem (f : ascii → ascii) (t : string) :
  (∀ c, f (f c) = f c) → map_chars f (map_chars f t) = map_chars f t.
Proof. intros Hf. induction t as [|c t IH]; [done|]. simpl. by rewrite Hf, IH. Qed.

Lemma sanitize_tidy (keep t : string) : tidy (sanitize keep (Some t)) = true.
Proof.
  simpl. pose proof (strip_collapse_tidy t) as Ht.
  destruct (collapse false (strip t)) as [|c u] eqn:E; [done|].
  unfold tidy in Ht. change (tidy_from true (map_chars (λ ch, if allowed keep ch then ch else "_"%char) (String c u)) = true).
  apply map_chars_tidy; [| |done].
  - intros ch. destruct (allowed keep ch); [done|]. by compute.
  - intros ch Hch. destruct (allowed keep ch); [done|]. by compute.
Qed.

(** X9.  [sanitize] is idempotent, for every [keep]: a sanitized text has
    no white space but single spaces between other characters, and
    sanitizing it again gives it back. *)
Theorem sanitize_is_idempotent (keep : string) (text : option string) :
  tidy (sanitize keep text) = true
  ∧ sanitize keep (Some (sanitize keep text)) = sanitize keep text.
Proof.
  assert (tidy (sanitize keep text) = true) as Ht.
  { destruct text as [t|]; [apply sanitize_tidy|done]. }
  split; [done|].
  unfold sanitize at 1. rewrite (tidy_strip _ Ht), (tidy_collapse _ Ht).
  destruct text as [t|].
  - simpl. apply map_chars_idem. intros c.
    destruct (allowed keep c) eqn:E; [by rewrite E|].
    by destruct (allowed keep "_").
  - simpl. unfold allowed. simpl. done.
Qed.

End SanitizeFacts.

(** ** The effective protocol *)

Section EnrichFacts.
Import Config Pipeline.
Context {RE : Regex}.

Lemma map_rows_lookup {A B : Type} (f : A → result B) (l : list A) : ∀ l',
  map_rows f l = Ok l' →
  length l' = length l
  ∧ ∀ i y, l' !! i = Some y → ∃ x, l !! i = Some x ∧ f x = Ok y.
Proof.
  induction l as [|x l IH]; intros l'; simpl.
  - intros [= <-]. split; [done|]. intros i y Hy. by rewrite lookup_nil in Hy.
  - destruct (f x) as [y|e] eqn:Hx; [|done].
    destruct (map_rows f l) as [ys|e]; [|done]. intros [= <-].
    destruct (IH ys eq_refl) as [Hlen Hl]. split; [simpl; lia|].
    intros [|i] y' Hy'; simpl in *.
    + injection Hy' as <-. by exists x.
    + by apply Hl.
Qed.

Lemma map_rows_ok {A B : Type} (f : A → result B) (g : A → B) (l : list A) :
  (∀ x, x ∈ l → f x = Ok (g x)) → map_rows f l = Ok (g <$> l).
Proof.
  induction l as [|x l IH]; intros Hf; [done|]. simpl.
  rewrite Hf by (by left). rewrite IH; [done|]. intros y Hy. apply Hf. by right.
Qed.

Lemma protocol_effective_nonempty (cols : list string) (r : row) :
  protocol_effective cols r ≠ "".
Proof.
  unfold protocol_effective.
  destruct (String.eqb _ "") eqn:E; [done|]. by apply String.eqb_neq in E.
Qed.

Lemma elem_of_assign_column (c c' : string) (cols : list string) :
  c' ∈ assign_column c cols ↔ c' = c ∨ c' ∈ cols.
Proof.
  unfold assign_column, has_column. case_bool_decide as Hc.
  - split; [by right|]. by intros [->|?].
  - rewrite elem_of_app, list_elem_of_singleton. tauto.
Qed.

(** X10.  After the protocol columns are derived every record has an
    effective protocol that is not empty and a normalized protocol; the
    other cells, the number and the order of the records are as before.  The
    normalizer is therefore never asked about a missing name: its answer is
    the exact entry of the stripped effective protocol, else what the regex
    rules make of it. *)
Theorem enrich_fills_the_protocol_columns (cfg : config) (df df' : frame) :
  enrich cfg df = Ok df' →
  (∀ c, c ∈ columns df' ↔ c = "ProtocolEffective" ∨ c = "ProtocolNorm" ∨ c ∈ columns df)
  ∧ length (rows df') = length (rows df)
  ∧ ∀ i r', rows df' !! i = Some r' →
      ∃ r eff norm,
        rows df !! i = Some r
        ∧ eff = protocol_effective (columns df) r ∧ eff ≠ ""
        ∧ r' !! "ProtocolEffective" = Some eff
        ∧ r' !! "ProtocolNorm" = Some norm
        ∧ (∀ c, c ≠ "ProtocolEffective" → c ≠ "ProtocolNorm" → r' !! c = r !! c)
        ∧ Ok norm = match get_or ∅ (protocol_map cfg) !! strip eff with
                    | Some v => Ok v
                    | None => apply_rules (get_or [] (protocol_regex cfg)) (strip eff)
                    end.
Proof.
  unfold enrich. destruct (map_rows _ (rows df)) as [rs|e] eqn:Hrs; [|done].
  intros [= <-]. simpl. apply map_rows_lookup in Hrs as [Hlen Hrs].
  split; [|split; [done|]].
  - intros c. rewrite !elem_of_assign_column. tauto.
  - intros i r' Hr'. destruct (Hrs i r' Hr') as (r & Hr & Hrow).
    unfold enrich_row in Hrow.
    pose proof (protocol_effective_nonempty (columns df) r) as Hne.
    destruct (normalize_protocol _ cfg) as [norm|e] eqn:Hnorm; [|done].
    injection Hrow as <-. exists r, (protocol_effective (columns df) r), norm.
    split; [done|]. split; [done|]. split; [done|].
    split; [by rewrite lookup_insert_ne, lookup_insert_eq by done|].
    split; [by rewrite lookup_insert_eq|].
    split; [intros c ? ?; by rewrite !lookup_insert_ne by done|].
    by rewrite <- Hnorm, normalize_nonempty.
Qed.

Lemma normalize_without_rules (eff : string) :
  eff ≠ "" → normalize_protocol (Some eff) empty_rules = Ok (strip eff).
Proof. intros Hne. by rewrite normalize_nonempty. Qed.

(** X11.  A protocol name that is blank, but not empty, counts as given:
    it is the effective protocol, the series description is not consulted,
    and unless an exact entry or a rule accepts the empty text the normalized
    protocol of the record is empty. *)
Theorem blank_protocol_name_hides_the_description
    (cfg : config) (cols : list string) (r : row) (name : string) :
  "ProtocolName" ∈ cols → r !! "ProtocolName" = Some name →
  name ≠ "" → all_space name = true →
  protocol_effective cols r = name
  ∧ (get_or ∅ (protocol_map cfg) !! "" = None →
     Forall (no_match "") (get_or [] (protocol_regex cfg)) →
     ∃ r', enrich_row cfg cols r = Ok r' ∧ r' !! "ProtocolNorm" = Some "").
Proof.
  intros Hcol Hname Hne Hblank.
  assert (protocol_effective cols r = name) as Heff.
  { unfold protocol_effective, has_column. rewrite (bool_decide_eq_true_2 _ Hcol).
    rewrite Hname. simpl.
    assert (String.eqb name "" = false) as Hnb by (by apply String.eqb_neq).
    rewrite Hnb. destruct (bool_decide _); by rewrite Hnb. }
  split; [done|]. intros Hmap Hrules.
  unfold enrich_row. rewrite Heff, normalize_nonempty by done.
  rewrite (strip_all_space _ Hblank), Hmap, apply_rules_unmatched by done.
  eexists. split; [done|]. by rewrite lookup_insert_eq.
Qed.

End EnrichFacts.

Section EnrichComposition.
Import Config Pipeline.
Context {RE : Regex} {FS : FileSystem} {YA : Yaml}.

(** X12.  Without a configuration file the protocol columns are always
    derived, whatever the regex engine, and the normalized protocol of a
    record is its effective protocol without the white space around it. *)
Theorem without_configuration_the_protocol_is_stripped
    (path : option string) (df : frame) :
  (∀ p, path = Some p → p = "" ∨ os_path_exists p = false) →
  ∃ cfg df',
    load_config path = Ok cfg ∧ enrich cfg df = Ok df'
    ∧ rows df'
      = (λ r, <["ProtocolNorm" := strip (protocol_effective (columns df) r)]>
                (<["ProtocolEffective" := protocol_effective (columns df) r]> r))
          <$> rows df.
Proof.
  intros Hpath.
  assert (load_config path = Ok empty_rules) as Hcfg.
  { unfold load_config. destruct path as [[|c p]|]; [done| |done].
    destruct (Hpath (String c p) eq_refl) as [E|E]; [done|]. by rewrite E. }
  exists empty_rules. eexists. split; [done|].
  unfold enrich.
  erewrite (map_rows_ok (enrich_row empty_rules (columns df))); [split; done|].
  intros r _. unfold enrich_row.
  by rewrite normalize_without_rules by apply protocol_effective_nonempty.
Qed.

End EnrichComposition.

(** ** The filters *)

Section FilterFacts.
Import Config Pipeline.
Context {RE : Regex} {PD : Pandas}.

Lemma select_sub (mask : row → bool) (df : frame) :
  columns (select mask df) = columns df ∧ rows (select mask df) `sublist_of` rows df.
Proof. split; [done|]. apply sublist_filter. Qed.

Lemma select_by_sub (mask : list bool) (df : frame) :
  columns (select_by mask df) = columns df
  ∧ rows (select_by mask df) `sublist_of` rows df.
Proof.
  split; [done|]. simpl.
  trans ((zip (rows df) mask).*1).
  - apply fmap_sublist, sublist_filter.
  - generalize (rows df). intros l. revert mask.
    induction l as [|x l IH]; intros [|b mask]; simpl;
      [apply sublist_nil_l..|by apply sublist_skip].
Qed.

Lemma by_modality_sub ns df :
  columns (by_modality ns df) = columns df
  ∧ rows (by_modality ns df) `sublist_of` rows df.
Proof.
  unfold by_modality. destruct (modality ns); [done|].
  destruct (has_column _ _); [apply select_sub|done].
Qed.

Lemma by_date_sub ns df :
  columns (by_date ns df) = columns df ∧ rows (by_date ns df) `sublist_of` rows df.
Proof.
  unfold by_date. destruct (date_range ns) as [[|c dr]|]; [done| |done].
  destruct (has_column _ _); [|done].
  destruct (split_once _ _) as [[a b]|]; [apply select_sub|done].
Qed.

Lemma by_patient_sub ns df :
  columns (by_patient ns df) = columns df
  ∧ rows (by_patient ns df) `sublist_of` rows df.
Proof.
  unfold by_patient. destruct (patient_ids ns); [done|].
  destruct (has_column _ _); [apply select_sub|done].
Qed.

Lemma by_protocol_sub exclude pat df df' :
  by_protocol exclude pat df = Ok df' →
  columns df' = columns df ∧ rows df' `sublist_of` rows df.
Proof.
  unfold by_protocol. destruct pat as [[|c p]|]; [by intros [= <-]| |by intros [= <-]].
  destruct (has_column _ _); [|by intros [= <-]].
  destruct (str_contains _ _) as [mask|e]; [|done].
  intros [= <-]. apply select_by_sub.
Qed.

(** X13.  The filters only drop records: the table they return has the
    columns of the one they are given and a sub-list of its records, in the
    same order; without any filter option it is the table itself. *)
Theorem filters_only_drop_records (ns : filters) (df df' : frame) :
  apply_filters ns df = Ok df' →
  columns df' = columns df
  ∧ rows df' `sublist_of` rows df
  ∧ apply_filters no_filters df = Ok df.
Proof.
  unfold apply_filters. intros H.
  destruct (by_protocol false _ _) as [d1|e] eqn:H1; [|done].
  apply by_protocol_sub in H as [Hc2 Hr2]. apply by_protocol_sub in H1 as [Hc1 Hr1].
  destruct (by_patient_sub ns (by_date ns (by_modality ns df))) as [Hc3 Hr3].
  destruct (by_date_sub ns (by_modality ns df)) as [Hc4 Hr4].
  destruct (by_modality_sub ns df) as [Hc5 Hr5].
  split; [congruence|]. split; [|done].
  etrans; [done|]. etrans; [done|]. etrans; [done|]. by etrans.
Qed.

Lemma elem_of_select (mask : row → bool) (df : frame) (r : row) :
  r ∈ rows (select mask df) ↔ r ∈ rows df ∧ mask r = true.
Proof. unfold select. simpl. rewrite list_elem_of_filter. tauto. Qed.

Lemma elem_of_select_by {B : Type} (f : row → result bool) (l : list row) : ∀ mask r,
  map_rows f l = Ok mask →
  (r ∈ (filter (λ rb : row * bool, rb.2 = true) (zip l mask)).*1 → f r = Ok true)
  ∧ (r ∈ (filter (λ rb : row * bool, rb.2 = true) (zip l (negb <$> mask))).*1 →
     f r = Ok false).
Proof.
  induction l as [|x l IH]; intros mask r; simpl.
  - intros [= <-]. split; intros Hr; simpl in Hr; by apply elem_of_nil in Hr.
  - destruct (f x) as [b|e] eqn:Hx; [|done].
    destruct (map_rows f l) as [bs|e]; [|done]. intros [= <-].
    destruct (IH bs r eq_refl) as [IH1 IH2]. simpl. rewrite !filter_cons. simpl.
    split; intros Hr; destruct b; simpl in Hr.
    + apply elem_of_cons in Hr as [->|Hr]; [done|by apply IH1].
    + by apply IH1.
    + by apply IH2.
    + apply elem_of_cons in Hr as [->|Hr]; [done|by apply IH2].
Qed.

Lemma str_contains_mask (pat : string) (rs : list row) (mask : list bool) :
  str_contains pat rs = Ok mask →
  map_rows (λ r, match contains_re pat r with
                 | Some b => Ok b
                 | None => Raise ReError
                 end) rs = Ok mask.
Proof. unfold str_contains. by destruct (re_search pat ""). Qed.

Lemma by_protocol_elem (exclude : bool) (pat : string) (df df' : frame) (r : row) :
  pat ≠ "" → "ProtocolNorm" ∈ columns df →
  by_protocol exclude (Some pat) df = Ok df' → r ∈ rows df' →
  contains_re pat r = Some (negb exclude).
Proof.
  intros Hpat Hcol. unfold by_protocol, has_column.
  destruct pat as [|c p]; [done|]. rewrite (bool_decide_eq_true_2 _ Hcol).
  destruct (str_contains _ _) as [mask|e] eqn:Hmask; [|done].
  intros [= <-] Hr. apply str_contains_mask in Hmask.
  destruct (elem_of_select_by (B := bool) _ _ mask r Hmask) as [H1 H2].
  destruct exclude; simpl in Hr; [apply H2 in Hr|apply H1 in Hr];
    by destruct (contains_re _ r) as [[]|].
Qed.

Lemma sublist_elem_of (l k : list row) (r : row) : l `sublist_of` k → r ∈ l → r ∈ k.
Proof. intros Hs. by apply sublist_subseteq. Qed.

(** X14.  A record the filters keep passes every filter that is active (its
    option is given and its column is in the table): its modality and its
    patient are among those asked for, its study date is within the range,
    the include pattern is found in its normalized protocol and the exclude
    pattern is not.  A record whose cell is absent passes none of the first
    three. *)
Theorem kept_records_pass_the_active_filters (ns : filters) (df df' : frame) (r : row) :
  apply_filters ns df = Ok df' → r ∈ rows df' →
  (modality ns ≠ [] → "Modality" ∈ columns df →
     ∃ m, r !! "Modality" = Some m ∧ m ∈ modality ns)
  ∧ (patient_ids ns ≠ [] → "PatientID" ∈ columns df →
     ∃ p, r !! "PatientID" = Some p ∧ p ∈ patient_ids ns)
  ∧ (∀ dr start end_, date_range ns = Some dr → split_once ":" dr = Some (start, end_) →
     "StudyDate" ∈ columns df →
     ∃ d, r !! "StudyDate" = Some d
          ∧ String.leb (or_else (strip start) "00000101") d = true
          ∧ String.leb d (or_else (strip end_) "99991231") = true)
  ∧ (∀ pat, protocol_include ns = Some pat → pat ≠ "" → "ProtocolNorm" ∈ columns df →
     contains_re pat r = Some true)
  ∧ (∀ pat, protocol_exclude ns = Some pat → pat ≠ "" → "ProtocolNorm" ∈ columns df →
     contains_re pat r = Some false).
Proof.
  unfold apply_filters. intros H Hr.
  destruct (by_protocol false _ _) as [d1|e] eqn:H1; [|done].
  destruct (by_protocol_sub _ _ _ _ H) as [Hc2 Hr2].
  destruct (by_protocol_sub _ _ _ _ H1) as [Hc1 Hr1].
  destruct (by_patient_sub ns (by_date ns (by_modality ns df))) as [Hc3 Hr3].
  destruct (by_date_sub ns (by_modality ns df)) as [Hc4 Hr4].
  destruct (by_modality_sub ns df) as [Hc5 Hr5].
  assert (r ∈ rows d1) as Hrd1 by (by eapply sublist_elem_of).
  assert (r ∈ rows (by_patient ns (by_date ns (by_modality ns df)))) as Hrp
    by (by eapply sublist_elem_of).
  assert (r ∈ rows (by_date ns (by_modality ns df))) as Hrd by (by eapply sublist_elem_of).
  assert (r ∈ rows (by_modality ns df)) as Hrm by (by eapply sublist_elem_of).
  split; [|split; [|split; [|split]]].
  - intros Hm Hcol. unfold by_modality, has_column in Hrm.
    destruct (modality ns) as [|m ms] eqn:Hms; [done|].
    rewrite (bool_decide_eq_true_2 _ Hcol) in Hrm.
    apply elem_of_select in Hrm as [_ Hin]. unfold isin in Hin.
    destruct (r !! "Modality") as [v|]; [|done]. exists v. split; [done|].
    by apply bool_decide_eq_true in Hin.
  - intros Hp Hcol. unfold by_patient, has_column in Hrp.
    destruct (patient_ids ns) as [|p ps] eqn:Hps; [done|].
    rewrite Hc4, Hc5 in Hrp. rewrite (bool_decide_eq_true_2 _ Hcol) in Hrp.
    apply elem_of_select in Hrp as [_ Hin]. unfold isin in Hin.
    destruct (r !! "PatientID") as [v|]; [|done]. exists v. split; [done|].
    by apply bool_decide_eq_true in Hin.
  - intros dr start end_ Hdr Hsplit Hcol. unfold by_date, has_column in Hrd.
    rewrite Hdr, Hc5, (bool_decide_eq_true_2 _ Hcol), Hsplit in Hrd.
    destruct dr as [|c dr]; [done|].
    apply elem_of_select in Hrd as [_ Hin]. unfold between in Hin.
    destruct (r !! "StudyDate") as [d|]; [|done]. exists d. split; [done|].
    by apply andb_true_iff in Hin.
  - intros pat Hpat Hne Hcol. rewrite Hpat in H1.
    apply (by_protocol_elem false pat (by_patient ns (by_date ns (by_modality ns df))) d1 r);
      try done.
    by rewrite Hc3, Hc4, Hc5.
  - intros pat Hpat Hne Hcol. rewrite Hpat in H.
    apply (by_protocol_elem true pat d1 df' r); try done.
    by rewrite Hc1, Hc3, Hc4, Hc5.
Qed.

Lemma split_once_none (sep : ascii) (s : string) :
  Organizer.contains sep s = false → split_once sep s = None.
Proof.
  induction s as [|c s IH]; [done|]. simpl. rewrite Ascii.eqb_sym.
  destruct (Ascii.eqb sep c); [done|]. simpl. by intros ->%IH.
Qed.

Lemma by_protocol_raises (exclude : bool) (pat : option string) (df : frame) e :
  by_protocol exclude pat df = Raise e → e = ReError.
Proof.
  unfold by_protocol. destruct pat as [[|c p]|]; [done| |done].
  destruct (has_column _ _); [|done].
  destruct (str_contains _ _) as [mask|e'] eqn:Hm; [done|]. intros [= <-].
  unfold str_contains in Hm. destruct (re_search _ ""); [|by injection Hm].
  clear -Hm. revert Hm. generalize (rows df). intros l.
  induction l as [|x l IH]; [done|]. simpl.
  destruct (contains_re _ x); [|by intros [= <-]].
  destruct (map_rows _ l); [done|]. intros [= <-]. by apply IH.
Qed.

Lemma by_protocol_rejected (exclude : bool) (pat : string) (df : frame) :
  pat ≠ "" → "ProtocolNorm" ∈ columns df → re_search pat "" = None →
  by_protocol exclude (Some pat) df = Raise ReError.
Proof.
  intros Hne Hcol Hbad. unfold by_protocol, has_column, str_contains.
  destruct pat as [|c p]; [done|]. by rewrite (bool_decide_eq_true_2 _ Hcol), Hbad.
Qed.

(** X15.  A date range without a colon is ignored, the run goes on as if
    the option had not been given; a pattern the regex engine rejects is not:
    the error escapes [apply_filters], also when no record is left to be
    searched. *)
Theorem bad_date_range_is_ignored_bad_pattern_is_not (ns : filters) (df : frame) :
  (∀ dr, date_range ns = Some dr → Organizer.contains ":" dr = false →
     apply_filters ns df
     = apply_filters (Filters (modality ns) None (patient_ids ns)
                              (protocol_include ns) (protocol_exclude ns)) df)
  ∧ (∀ pat, protocol_include ns = Some pat ∨ protocol_exclude ns = Some pat →
       pat ≠ "" → "ProtocolNorm" ∈ columns df → re_search pat "" = None →
       apply_filters ns df = Raise ReError).
Proof.
  split.
  - intros dr Hdr Hcolon. unfold apply_filters.
    assert (∀ d, by_date ns d = d) as Hdate.
    { intros d. unfold by_date. rewrite Hdr, (split_once_none _ _ Hcolon).
      destruct dr; [done|]. by destruct (has_column _ _). }
    by rewrite Hdate.
  - intros pat Hpat Hne Hcol Hbad. unfold apply_filters.
    destruct (by_patient_sub ns (by_date ns (by_modality ns df))) as [Hc3 _].
    destruct (by_date_sub ns (by_modality ns df)) as [Hc4 _].
    destruct (by_modality_sub ns df) as [Hc5 _].
    destruct (by_protocol false _ _) as [d1|e] eqn:H1.
    + destruct (by_protocol_sub _ _ _ _ H1) as [Hc1 _].
      destruct Hpat as [Hpat|Hpat].
      * rewrite Hpat in H1. rewrite by_protocol_rejected in H1; [done|done| |done].
        by rewrite Hc3, Hc4, Hc5.
      * rewrite Hpat. apply by_protocol_rejected; [done| |done].
        by rewrite Hc1, Hc3, Hc4, Hc5.
    + by apply by_protocol_raises in H1 as ->.
Qed.

End FilterFacts.


(** ** The protocol columns and the filters on a concrete index *)

Section PipelineExamples.
Import Config Pipeline Sample Cases.

Example enriched_index_is_derived : enrich head_rules protocol_index = Ok enriched_index.
Proof. vm_compute. reflexivity. Qed.

Lemma enrich_witness : length (rows enriched_index) = length (rows protocol_index).
Proof.
  refine (proj1 (proj2 (enrich_fills_the_protocol_columns head_rules protocol_index
                          enriched_index _))).
  vm_compute. reflexivity.
Defined.

Lemma no_configuration_witness :
  ∃ cfg df',
    load_config None = Ok cfg ∧ enrich cfg protocol_index = Ok df'
    ∧ rows df'
      = (λ r, <["ProtocolNorm" := strip (protocol_effective (columns protocol_index) r)]>
                (<["ProtocolEffective" := protocol_effective (columns protocol_index) r]> r))
          <$> rows protocol_index.
Proof.
  apply (without_configuration_the_protocol_is_stripped None protocol_index).
  intros p Hp. discriminate Hp.
Defined.

Lemma blank_name_witness :
  protocol_effective (columns protocol_index) blank_record = " ".
Proof.
  refine (proj1 (blank_protocol_name_hides_the_description head_rules
                   (columns protocol_index) blank_record " " _ _ _ _)).
  - compute_done.
  - vm_compute. reflexivity.
  - discriminate.
  - reflexivity.
Defined.

Lemma filters_witness :
  columns (DataFrame (columns protocol_index) [head_record]) = columns protocol_index.
Proof.
  refine (proj1 (filters_only_drop_records ct_in_2020 protocol_index
                   (DataFrame (columns protocol_index) [head_record]) _)).
  vm_compute. reflexivity.
Defined.

Lemma active_filters_witness :
  ∃ m, head_record !! "Modality" = Some m ∧ m ∈ modality ct_in_2020.
Proof.
  refine (proj1 (kept_records_pass_the_active_filters ct_in_2020 protocol_index
                   (DataFrame (columns protocol_index) [head_record]) head_record _ _) _ _).
  - vm_compute. reflexivity.
  - compute_done.
  - discriminate.
  - compute_done.
Defined.

End PipelineExamples.

(** ** Duplicated instances *)

Section DuplicateFacts.
Context {K A : Type} `{EqDecision K} (key : A → K).
Import Reports.

Lemma occurrences_cons (a x : A) (l : list A) :
  length (filter (λ y, key y = key x) (a :: l))
  = (if decide (key a = key x) then 1 else 0) + length (filter (λ y, key y = key x) l).
Proof. rewrite filter_cons. by destruct (decide (key a = key x)). Qed.

Lemma occurrences_zero (x : A) (l : list A) :
  key x ∉ key <$> l → length (filter (λ y, key y = key x) l) = 0.
Proof.
  intros Hx. rewrite filter_none; [done|]. intros y Hy E. apply Hx. rewrite <- E.
  by apply list_elem_of_fmap_2.
Qed.

Lemma occurrences_pos (x : A) (l : list A) :
  x ∈ l → 0 < length (filter (λ y, key y = key x) l).
Proof.
  intros Hx. assert (x ∈ filter (λ y, key y = key x) l) as Hin
    by (by apply list_elem_of_filter).
  destruct (filter _ l); [by apply elem_of_nil in Hin|simpl; lia].
Qed.

(** No value of the column occurs twice, said with the counts. *)
Lemma NoDup_occurrences (l : list A) :
  NoDup (key <$> l) ↔ ∀ x, x ∈ l → length (filter (λ y, key y = key x) l) < 2.
Proof.
  induction l as [|a l IH].
  - split; [intros _ x Hx; by apply elem_of_nil in Hx|constructor].
  - rewrite fmap_cons, NoDup_cons, IH. split.
    + intros [Ha Hl] x Hx. rewrite occurrences_cons.
      destruct (decide (key a = key x)) as [E|E].
      * rewrite occurrences_zero; [lia|]. by rewrite <- E.
      * apply elem_of_cons in Hx as [->|Hx]; [done|]. specialize (Hl x Hx). lia.
    + intros Hcount. split.
      * intros (y & E & Hy)%list_elem_of_fmap.
        specialize (Hcount y ltac:(by right)). rewrite occurrences_cons in Hcount.
        pose proof (occurrences_pos y l Hy). destruct (decide (key a = key y)); [lia|done].
      * intros x Hx. specialize (Hcount x ltac:(by right)).
        rewrite occurrences_cons in Hcount. lia.
Qed.

Lemma duplicated_same_key (l : list A) (x y : A) :
  key x = key y → duplicated key l x = duplicated key l y.
Proof. unfold duplicated. by intros ->. Qed.

Lemma occurrences_among_duplicates (l : list A) (x : A) :
  duplicated key l x = true →
  filter (λ y, key y = key x) (filter (λ y, duplicated key l y = true) l)
  = filter (λ y, key y = key x) l.
Proof.
  intros Hx. rewrite list_filter_filter. apply list_filter_iff.
  intros y. split; [tauto|]. intros E. split; [done|].
  by rewrite (duplicated_same_key l y x E).
Qed.

Lemma duplicates_not_one (l : list A) :
  length (filter (λ y, duplicated key l y = true) l) ≠ 1.
Proof.
  intros Hlen. destruct (filter _ l) as [|x [|]] eqn:E; try done.
  assert (x ∈ filter (λ y, duplicated key l y = true) l) as Hx by (rewrite E; by left).
  apply list_elem_of_filter in Hx as [Hdup Hx].
  pose proof (occurrences_among_duplicates l x Hdup) as Hocc. rewrite E in Hocc.
  unfold duplicated in Hdup. apply bool_decide_eq_true in Hdup.
  rewrite <- Hocc in Hdup. rewrite filter_cons, filter_nil in Hdup.
  destruct (decide (key x = key x)); simpl in Hdup; lia.
Qed.

Lemma duplicates_none (l : list A) :
  filter (λ y, duplicated key l y = true) l = [] ↔ NoDup (key <$> l).
Proof.
  rewrite NoDup_occurrences. split.
  - intros Hnone x Hx. destruct (decide (length (filter (λ y, key y = key x) l) < 2)); [done|].
    assert (x ∈ filter (λ y, duplicated key l y = true) l) as Hin.
    { apply list_elem_of_filter. split; [|done]. unfold duplicated.
      apply bool_decide_eq_true. lia. }
    rewrite Hnone in Hin. by apply elem_of_nil in Hin.
  - intros Hcount. apply filter_none. intros x Hx Hdup.
    unfold duplicated in Hdup. apply bool_decide_eq_true in Hdup.
    specialize (Hcount x Hx). lia.
Qed.

End DuplicateFacts.

Section DuplicateReport.
Import QA Organizer Reports.

Lemma detect_duplicates_done (df rep : frame) :
  "SOPInstanceUID" ∈ columns df → detect_duplicates df = Done rep →
  ∃ third,
    columns rep = columns df
    ∧ rows rep = sort_by (by_columns "SOPInstanceUID" "SeriesInstanceUID" third)
                         (filter (λ r, duplicated uid_of (rows df) r = true) (rows df)).
Proof.
  intros Hcol. unfold detect_duplicates, has_column.
  rewrite (bool_decide_eq_true_2 _ Hcol). simpl.
  destruct (negb (bool_decide ("SeriesInstanceUID" ∈ columns df))); [done|].
  destruct (negb (bool_decide (_ ∈ columns df))); [done|].
  intros [= <-]. by eexists.
Qed.

Lemma by_columns_total (c1 c2 c3 : string) (x y : row) :
  by_columns c1 c2 c3 x y = true ∨ by_columns c1 c2 c3 y x = true.
Proof.
  unfold by_columns. apply lex_le_total; [|apply lex_le_total]; intros a b;
    apply cell_le_total, String.leb_total.
Qed.

(** X16.  The duplicates report lists, sorted by instance identifier, the
    records whose identifier occurs in at least two records of the table (a
    missing identifier counts as one value): it is empty exactly when the
    identifiers are pairwise different, and it never has just one record. *)
Theorem duplicates_report_lists_repeated_identifiers (df rep : frame) :
  "SOPInstanceUID" ∈ columns df → detect_duplicates df = Done rep →
  columns rep = columns df
  ∧ rows rep ≡ₚ filter (λ r, 2 ≤ length (filter (λ r', uid_of r' = uid_of r) (rows df)))
                       (rows df)
  ∧ Sorted (λ r r', cell_le false String.leb (uid_of r) (uid_of r') = true) (rows rep)
  ∧ (rows rep = [] ↔ NoDup (uid_of <$> rows df))
  ∧ length (rows rep) ≠ 1.
Proof.
  intros Hcol Hrep. destruct (detect_duplicates_done df rep Hcol Hrep) as (third & Hc & Hr).
  assert (rows rep ≡ₚ filter (λ r, duplicated uid_of (rows df) r = true) (rows df)) as Hperm.
  { rewrite Hr. apply sort_by_perm. }
  split; [done|]. split; [|split; [|split]].
  - rewrite Hperm. erewrite list_filter_iff; [done|]. intros r. unfold duplicated.
    by rewrite bool_decide_eq_true.
  - rewrite Hr. eapply Sorted_weaken; [|apply sort_by_sorted, by_columns_total].
    intros r r' Hle. unfold leR, by_columns in Hle. apply lex_le_first in Hle. exact Hle.
  - rewrite <- duplicates_none. split.
    + intros E. rewrite E in Hperm. by apply Permutation_nil_l in Hperm.
    + intros E. rewrite E in Hperm. by apply Permutation_nil_r in Hperm.
  - rewrite Hperm. apply duplicates_not_one.
Qed.

Lemma drop_dups_from_fixed {K A : Type} `{EqDecision K} (key : A → K) (l : list A) :
  ∀ seen, drop_dups_from key seen l = l → NoDup (key <$> l).
Proof.
  induction l as [|x l IH]; intros seen; simpl; [constructor|].
  destruct (decide (key x ∈ seen)) as [Hx|Hx].
  - intros E. pose proof (sublist_length _ _ (drop_dups_from_sublist key l seen)) as Hlen.
    rewrite E in Hlen. simpl in Hlen. lia.
  - intros [= E]. apply NoDup_cons. split; [|by apply (IH (key x :: seen))].
    intros (y & Hk & Hy)%list_elem_of_fmap.
    assert (y ∈ drop_dups_from key (key x :: seen) l) as Hin by (by rewrite E).
    assert (filter (λ z, key z = key x) (drop_dups_from key (key x :: seen) l) = []) as Hnone.
    { rewrite drop_dups_from_filter. rewrite decide_True; [done|by left]. }
    assert (y ∈ filter (λ z, key z = key x) (drop_dups_from key (key x :: seen) l)) as Hy'
      by (by apply list_elem_of_filter).
    rewrite Hnone in Hy'. by apply elem_of_nil in Hy'.
Qed.

(** X17.  The duplicates report and the deduplication of the organizer
    agree: the report is empty exactly when deduplicating the whole table
    drops no record, and then no group of the table loses a record. *)
Theorem empty_duplicates_report_means_nothing_is_dropped (df rep : frame) :
  "SOPInstanceUID" ∈ columns df → detect_duplicates df = Done rep →
  (rows rep = [] ↔ dedup (columns df) (rows df) = rows df)
  ∧ (rows rep = [] → ∀ g, g `sublist_of` rows df → dedup (columns df) g = g).
Proof.
  intros Hcol Hrep. destruct (detect_duplicates_done df rep Hcol Hrep) as (third & Hc & Hr).
  assert (rows rep = [] ↔ NoDup (uid_of <$> rows df)) as Hnone.
  { rewrite <- duplicates_none, Hr. split.
    - intros E. apply Permutation_nil_r. rewrite <- E. symmetry. apply sort_by_perm.
    - by intros ->. }
  assert (∀ g, dedup (columns df) g = drop_duplicates uid_of g) as Hdedup.
  { intros g. unfold dedup, has_column. by rewrite (bool_decide_eq_true_2 _ Hcol). }
  split.
  - rewrite Hnone, Hdedup. split.
    + intros Hnd. by apply drop_dups_from_id; [|intros ? ?; apply not_elem_of_nil].
    + apply drop_dups_from_fixed.
  - intros Hempty g Hg. rewrite Hdedup.
    apply drop_dups_from_id; [|intros ? ?; apply not_elem_of_nil].
    apply (sublist_NoDup _ (uid_of <$> rows df)); [by apply Hnone|by apply fmap_sublist].
Qed.

End DuplicateReport.

(** ** The counts of the gap report and the summary *)

Section SummaryFacts.
Import QA Organizer Reports.
Context {NU : Numeric}.

Lemma elem_of_detect_instance_gaps (df : frame) (rep : gap) :
  rep ∈ detect_instance_gaps df →
  gap_ok (SeriesInstanceUID rep)
         (observed (series (SeriesInstanceUID rep) (rows df))) rep.
Proof.
  unfold detect_instance_gaps. destruct (_ || _); [by intros ?%elem_of_nil|].
  intros ([sid g] & Hin & Hgap)%list_elem_of_omap. simpl in Hgap.
  apply elem_of_series_groups in Hin as [_ ->].
  apply gap_of_ok in Hgap as [_ Hok]. by rewrite (ok_sid _ _ _ Hok).
Qed.

Lemma gap_counts (sid : option string) (obs : list Z) (rep : gap) :
  gap_ok sid obs rep →
  n_expected rep = n_actual rep + n_missing rep
  ∧ 0 < n_actual rep
  ∧ (n_missing rep = 0 ↔ ∀ z, (min rep ≤ z ≤ max rep)%Z → z ∈ obs).
Proof.
  intros [_ [Hmin Hlo] [Hmax Hhi] Hexp Hact (ms & Hms & Hsorted & Hlen & _)].
  assert (NoDup ms) as Hnd by (by apply strictly_sorted_NoDup).
  assert ((list_to_set obs : gset Z) ∪ list_to_set ms
          ≡ list_to_set (seqZ (min rep) (max rep - min rep + 1))) as Hunion.
  { intros z. rewrite elem_of_union, !elem_of_list_to_set, elem_of_seqZ, Hms.
    split.
    - intros [Hz|[Hz _]]; [|lia]. specialize (Hlo z Hz). specialize (Hhi z Hz). lia.
    - intros Hz. destruct (decide (z ∈ obs)); [by left|right]. split; [lia|done]. }
  assert ((list_to_set obs : gset Z) ## list_to_set ms) as Hdisj.
  { intros z. rewrite !elem_of_list_to_set, Hms. tauto. }
  apply leibniz_equiv in Hunion.
  assert (size ((list_to_set obs : gset Z) ∪ list_to_set ms)
          = size (list_to_set (seqZ (min rep) (max rep - min rep + 1)) : gset Z)) as Hsz
    by (by rewrite Hunion).
  rewrite size_union in Hsz by done.
  rewrite (size_list_to_set ms), (size_list_to_set (seqZ _ _)) in Hsz
    by (done || apply NoDup_seqZ).
  rewrite length_seqZ in Hsz.
  split; [lia|]. split.
  - rewrite Hact. destruct (decide (size (list_to_set obs : gset Z) = 0)) as [E|]; [|lia].
    apply size_empty_inv in E. exfalso. apply (not_elem_of_empty (C := gset Z) (min rep)).
    rewrite <- E. by apply elem_of_list_to_set.
  - rewrite Hlen. split.
    + intros Hnil%nil_length_inv z Hz. destruct (decide (z ∈ obs)); [done|].
      assert (z ∈ ms) as Hin by (by apply Hms). rewrite Hnil in Hin.
      by apply elem_of_nil in Hin.
    + intros Hall. destruct ms as [|z ms]; [done|].
      assert (z ∈ z :: ms) as [Hz Hout]%Hms by (by left). by specialize (Hall z Hz).
Qed.

(** X18.  The counts of a row of the gap report add up: the expected
    instances are the observed and the missing ones, at least one instance is
    observed, and none is missing exactly when every number from the smallest
    to the greatest is the instance number of a record of the series. *)
Theorem gap_report_counts_add_up (df : frame) (rep : gap) :
  rep ∈ detect_instance_gaps df →
  n_expected rep = n_actual rep + n_missing rep
  ∧ 0 < n_actual rep
  ∧ (n_missing rep = 0
     ↔ ∀ z, (min rep ≤ z ≤ max rep)%Z →
            z ∈ observed (series (SeriesInstanceUID rep) (rows df))).
Proof. intros Hrep. by eapply gap_counts, elem_of_detect_instance_gaps. Qed.

Lemma empty_false_rows (df : frame) : empty df = false → 0 < length (rows df).
Proof. unfold empty. destruct (columns df), (rows df); simpl; (done || lia). Qed.

(** X19.  What the summary of the QA run says: the count of duplicates is
    zero exactly when the instance identifiers are pairwise different, and it
    is never one (it counts records, not identifiers); the count of records
    with missing tags is zero exactly when every record fills every mandatory
    column of the table; the count of series with gaps is zero exactly when
    no row of the gap report misses an instance. *)
Theorem summary_is_clean_for_a_clean_index (df dups : frame) :
  "SOPInstanceUID" ∈ columns df → detect_duplicates df = Done dups →
  (duplicate_sops (summary_of (detect_instance_gaps df) dups (missing_critical_tags df)) = 0
   ↔ NoDup (uid_of <$> rows df))
  ∧ duplicate_sops (summary_of (detect_instance_gaps df) dups (missing_critical_tags df)) ≠ 1
  ∧ (rows_missing_critical
       (summary_of (detect_instance_gaps df) dups (missing_critical_tags df)) = 0
     ↔ ∀ r c, r ∈ rows df → c ∈ crit → c ∈ columns df → filled c r)
  ∧ (series_with_gaps
       (summary_of (detect_instance_gaps df) dups (missing_critical_tags df)) = 0
     ↔ ∀ rep, rep ∈ detect_instance_gaps df → n_missing rep = 0).
Proof.
  intros Hcol Hrep. destruct (detect_duplicates_done df dups Hcol Hrep) as (third & Hc & Hr).
  assert (rows dups ≡ₚ filter (λ r, duplicated uid_of (rows df) r = true) (rows df)) as Hperm.
  { rewrite Hr. apply sort_by_perm. }
  assert (duplicate_sops (summary_of (detect_instance_gaps df) dups (missing_critical_tags df))
          = length (rows dups)) as ->.
  { simpl. destruct (empty dups) eqn:E; [|done]. unfold empty in E. rewrite Hc in E.
    destruct (columns df); [by apply elem_of_nil in Hcol|]. by destruct (rows dups). }
  split; [|split; [|split]].
  - rewrite <- duplicates_none. split.
    + intros Hnil%nil_length_inv. rewrite Hnil in Hperm. by apply Permutation_nil_l in Hperm.
    + intros E. rewrite E in Hperm. by apply Permutation_nil_r in Hperm as ->.
  - rewrite Hperm. apply duplicates_not_one.
  - rewrite <- report_empty_iff. simpl. destruct (empty (missing_critical_tags df)) eqn:E.
    + done.
    + apply empty_false_rows in E. split; [lia|done].
  - simpl. generalize (detect_instance_gaps df). intros gaps.
    assert (length (filter (λ rep, 0 < n_missing rep) gaps) = 0
            ↔ ∀ rep, rep ∈ gaps → n_missing rep = 0) as Hgaps.
    { split.
      - intros Hnil%nil_length_inv rep Hin.
        destruct (decide (0 < n_missing rep)) as [Hpos|]; [|lia].
        assert (rep ∈ filter (λ rep, 0 < n_missing rep) gaps) as Hf
          by (by apply list_elem_of_filter).
        rewrite Hnil in Hf. by apply elem_of_nil in Hf.
      - intros Hall. rewrite filter_none; [done|]. intros rep Hin. specialize (Hall rep Hin).
        lia. }
    destruct gaps; [|done]. split; [intros _ rep Hin; by apply elem_of_nil in Hin|done].
Qed.

End SummaryFacts.

(** ** The reports on concrete indexes *)

Section ReportExamples.
Import QA Organizer Reports Sample Cases.

(** The two records of the one instance, by instance number. *)
Example twice_indexed_report :
  detect_duplicates twice_indexed_frame
  = Done (DataFrame numbered_columns (reverse twice_indexed)).
Proof. vm_compute. reflexivity. Qed.

Lemma duplicates_report_witness :
  columns (DataFrame numbered_columns (reverse twice_indexed))
  = columns twice_indexed_frame.
Proof.
  refine (proj1 (duplicates_report_lists_repeated_identifiers twice_indexed_frame
                   (DataFrame numbered_columns (reverse twice_indexed)) _ _)).
  - compute_done.
  - vm_compute. reflexivity.
Defined.

Lemma nothing_dropped_witness :
  dedup (columns full_index) (rows full_index) = rows full_index.
Proof.
  refine (proj1 (proj1 (empty_duplicates_report_means_nothing_is_dropped full_index
                          (DataFrame (columns full_index) []) _ _)) _).
  - compute_done.
  - vm_compute. reflexivity.
  - reflexivity.
Defined.

Lemma gap_counts_witness :
  n_expected (Gap (Some "1.2") 1 5 5 4 1 "3")
  = n_actual (Gap (Some "1.2") 1 5 5 4 1 "3") + n_missing (Gap (Some "1.2") 1 5 5 4 1 "3").
Proof.
  refine (proj1 (gap_report_counts_add_up gapped_index (Gap (Some "1.2") 1 5 5 4 1 "3") _)).
  rewrite gapped_index_report. by left.
Defined.

Lemma summary_witness :
  duplicate_sops (summary_of (detect_instance_gaps twice_indexed_frame)
                             (DataFrame numbered_columns (reverse twice_indexed))
                             (missing_critical_tags twice_indexed_frame)) = 0
  ↔ NoDup (uid_of <$> rows twice_indexed_frame).
Proof.
  refine (proj1 (summary_is_clean_for_a_clean_index twice_indexed_frame
                   (DataFrame numbered_columns (reverse twice_indexed)) _ _)).
  - compute_done.
  - vm_compute. reflexivity.
Defined.

(** The summary of that index: two records of a duplicated instance, no
    gap, no missing tag. *)
Example twice_indexed_summary :
  summary_of (detect_instance_gaps twice_indexed_frame)
             (DataFrame numbered_columns (reverse twice_indexed))
             (missing_critical_tags twice_indexed_frame)
  = Summary 0 2 0.
Proof. vm_compute. reflexivity. Qed.

End ReportExamples.

(** ** The index *)

Section IndexerFacts.
Import QA Organizer Reports Indexer.
Context {DI : Dicom} {PO : Pool}.

Lemma cells_cons (k : string) (v : option string) (d : dict) :
  cells ((k, v) :: d) = match v with Some s => <[k := s]> (cells d) | None => cells d end.
Proof. unfold cells. simpl. by destruct v. Qed.

Lemma cells_dict_set_eq (k v : string) (d : dict) :
  cells (dict_set k (Some v) d) !! k = Some v.
Proof.
  induction d as [|[k' v'] d IH]; simpl.
  - rewrite cells_cons. by rewrite lookup_insert_eq.
  - destruct (decide (k' = k)) as [->|Hne].
    + rewrite cells_cons. by rewrite lookup_insert_eq.
    + rewrite cells_cons. destruct v'; [by rewrite lookup_insert_ne|done].
Qed.

Lemma cells_dict_set_ne (k k' : string) (v : option string) (d : dict) :
  k ≠ k' → cells (dict_set k v d) !! k' = cells d !! k'.
Proof.
  intros Hne. induction d as [|[k0 v0] d IH]; simpl.
  - rewrite cells_cons. destruct v; [by rewrite lookup_insert_ne|done].
  - destruct (decide (k0 = k)) as [->|Hne0].
    + rewrite !cells_cons. destruct v, v0; by rewrite ?lookup_insert_ne.
    + rewrite !cells_cons. destruct v0; [|done].
      destruct (decide (k0 = k')) as [->|]; [by rewrite !lookup_insert_eq|].
      by rewrite !lookup_insert_ne.
Qed.

Lemma read_metadata_path (all_tags : bool) (p : string) (d : dict) :
  read_metadata all_tags p = Some d → cells d !! "_path" = Some p.
Proof.
  unfold read_metadata. destruct (dcmread p); [|done]. intros [= <-].
  rewrite cells_dict_set_ne by done. apply cells_dict_set_eq.
Qed.

Lemma read_metadata_readable (all_tags : bool) (p : string) :
  is_Some (read_metadata all_tags p) ↔ is_Some (dcmread p).
Proof. unfold read_metadata. destruct (dcmread p); split; intros [? ?]; by eauto. Qed.

Lemma index_paths (all_tags : bool) (inputs : list string) :
  (λ d, cells d !! "_path") <$> omap id (read_metadata all_tags <$> inputs)
  = Some <$> filter (λ p, is_Some (dcmread p)) inputs.
Proof.
  induction inputs as [|p inputs IH]; [done|].
  rewrite fmap_cons, filter_cons. simpl.
  destruct (read_metadata all_tags p) as [d|] eqn:Hd.
  - rewrite decide_True by (apply (read_metadata_readable all_tags); by eauto).
    simpl. rewrite (read_metadata_path _ _ _ Hd). f_equal. exact IH.
  - rewrite decide_False; [exact IH|].
    intros Hr%(read_metadata_readable all_tags). rewrite Hd in Hr. by destruct Hr.
Qed.

(** X20.  The index has one record for every input file pydicom reads, in
    the order the reads complete, and none for the others; the record holds
    the path of its file, so that the paths of the index are pairwise
    different when the inputs are. *)
Theorem index_has_one_record_per_readable_file (all_tags : bool) (inputs : list string) :
  path_of <$> rows (to_frame (build_index inputs all_tags))
    ≡ₚ Some <$> filter (λ p, is_Some (dcmread p)) inputs
  ∧ length (rows (to_frame (build_index inputs all_tags))) ≤ length inputs
  ∧ (NoDup inputs → NoDup (path_of <$> rows (to_frame (build_index inputs all_tags)))).
Proof.
  assert (path_of <$> rows (to_frame (build_index inputs all_tags))
          ≡ₚ Some <$> filter (λ p, is_Some (dcmread p)) inputs) as Hperm.
  { unfold to_frame, build_index. simpl. rewrite <- list_fmap_compose.
    rewrite <- (index_paths all_tags inputs).
    apply fmap_Permutation, omap_Permutation, as_completed_perm. }
  split; [done|]. split.
  - apply Permutation_length in Hperm. rewrite !length_fmap in Hperm. rewrite Hperm.
    apply sublist_length, sublist_filter.
  - intros Hnd. rewrite Hperm. apply (NoDup_fmap_2 _).
    by apply (sublist_NoDup _ inputs); [|apply sublist_filter].
Qed.

Lemma read_metadata_keys (p : string) (d : dict) :
  read_metadata false p = Some d → d.*1 = DEFAULT_KEYS ++ ["_path"; "_size_bytes"].
Proof.
  unfold read_metadata. destruct (dcmread p) as [ds|]; [|done]. intros [= <-].
  vm_compute. reflexivity.
Qed.

Lemma build_index_keys (inputs : list string) (d : dict) :
  d ∈ build_index inputs false → d.*1 = DEFAULT_KEYS ++ ["_path"; "_size_bytes"].
Proof.
  unfold build_index. intros (o & Ho & Hd)%list_elem_of_omap. simpl in Hd. subst o.
  rewrite as_completed_perm in Ho. apply list_elem_of_fmap in Ho as (p & Hp & _).
  by apply (read_metadata_keys p).
Qed.

Lemma drop_dups_from_seen {K A : Type} `{EqDecision K} (key : A → K) (l : list A) :
  ∀ seen, (∀ x, x ∈ l → key x ∈ seen) → drop_dups_from key seen l = [].
Proof.
  induction l as [|x l IH]; intros seen Hl; [done|]. simpl.
  rewrite decide_True by (apply Hl; by left). apply IH. intros y Hy. apply Hl. by right.
Qed.

Lemma drop_dups_from_app_seen {K A : Type} `{EqDecision K} (key : A → K) (l1 l2 : list A) :
  ∀ seen, (∀ x, x ∈ l2 → key x ∈ key <$> l1 ∨ key x ∈ seen) →
  drop_dups_from key seen (l1 ++ l2) = drop_dups_from key seen l1.
Proof.
  induction l1 as [|x l1 IH]; intros seen Hl2; simpl.
  - apply drop_dups_from_seen. intros y Hy. destruct (Hl2 y Hy) as [Hin|Hin]; [|done].
    by apply elem_of_nil in Hin.
  - destruct (decide (key x ∈ seen)) as [Hx|Hx].
    + apply IH. intros y Hy. destruct (Hl2 y Hy) as [Hin|Hin]; [|by right].
      rewrite fmap_cons in Hin. apply elem_of_cons in Hin as [->|Hin]; [by right|by left].
    + f_equal. apply IH. intros y Hy. destruct (Hl2 y Hy) as [Hin|Hin].
      * rewrite fmap_cons in Hin. apply elem_of_cons in Hin as [->|Hin]; [right; by left|by left].
      * right. by right.
Qed.

Lemma elem_of_concat {A : Type} (x : A) (ls : list (list A)) :
  x ∈ concat ls → ∃ l, l ∈ ls ∧ x ∈ l.
Proof.
  induction ls as [|l ls IH]; simpl; [by intros ?%elem_of_nil|].
  intros [Hx|Hx]%elem_of_app.
  - exists l. split; [by left|done].
  - destruct (IH Hx) as (l' & Hl' & Hx'). exists l'. split; [by right|done].
Qed.

Lemma labels_uniform (recs : list dict) (keys : list string) :
  NoDup keys → recs ≠ [] → (∀ d, d ∈ recs → d.*1 = keys) → labels recs = keys.
Proof.
  intros Hnd Hne Hkeys. destruct recs as [|d recs]; [done|].
  unfold labels, drop_duplicates. rewrite fmap_cons. simpl.
  rewrite (Hkeys d) by (by left).
  rewrite drop_dups_from_app_seen.
  - apply drop_dups_from_id; [by rewrite list_fmap_id|]. intros ? ?. apply not_elem_of_nil.
  - intros k (ks & (d' & -> & Hd')%list_elem_of_fmap & Hk)%elem_of_concat. left.
    rewrite list_fmap_id. rewrite <- (Hkeys d') by (by right). done.
Qed.

Lemma default_columns_NoDup : NoDup (DEFAULT_KEYS ++ ["_path"; "_size_bytes"]).
Proof. apply (bool_decide_unpack _). vm_compute. exact I. Qed.

Lemma fixed_index_columns (inputs : list string) :
  build_index inputs false ≠ [] →
  columns (to_frame (build_index inputs false)) = DEFAULT_KEYS ++ ["_path"; "_size_bytes"].
Proof.
  intros Hne. unfold to_frame. simpl.
  apply labels_uniform; [apply default_columns_NoDup|done|apply build_index_keys].
Qed.

End IndexerFacts.

Section IndexerComposition.
Import QA Organizer Reports Indexer.
Context {DI : Dicom} {PO : Pool} {NU : Numeric}.

(** X21.  When the fixed keys are read, every record of the index has all
    of them, so that the table has every default column, the instance number
    among them.  For this table, and for any table that has its columns
    (the one with the protocol columns), every group is ordered by instance
    number and then path, whatever its records hold: the position, the time
    and the path alone are never what a group is ordered by; the four
    mandatory identifiers are columns, and the duplicates report does not
    end in a [KeyError]. *)
Theorem fixed_keys_index_is_ordered_by_instance_number
    (inputs : list string) (df : frame) :
  build_index inputs false ≠ [] →
  (∀ c, c ∈ columns (to_frame (build_index inputs false)) → c ∈ columns df) →
  columns (to_frame (build_index inputs false)) = DEFAULT_KEYS ++ ["_path"; "_size_bytes"]
  ∧ (∀ g, select_strategy (columns df) g = ByInstanceNumber
          ∧ order (columns df) g = sort_by (strategy_le ByInstanceNumber) g)
  ∧ (∀ c, c ∈ crit → c ∈ columns df)
  ∧ ∃ rep, detect_duplicates df = Done rep.
Proof.
  intros Hne Hsub. pose proof (fixed_index_columns inputs Hne) as Hcols.
  assert (∀ c, c ∈ DEFAULT_KEYS → c ∈ columns df) as Hdef.
  { intros c Hc. apply Hsub. rewrite Hcols. apply elem_of_app. by left. }
  assert ("InstanceNumber" ∈ columns df) as Hin by (apply Hdef; compute_done).
  split; [done|]. split; [|split].
  - intros g.
    assert (select_strategy (columns df) g = ByInstanceNumber) as Hs
      by (unfold select_strategy; by rewrite decide_True).
    split; [done|]. by rewrite order_by_strategy, Hs.
  - intros c Hc. apply Hdef. revert c Hc. apply Forall_forall. unfold crit.
    forall_list; compute_done.
  - unfold detect_duplicates, has_column.
    rewrite (bool_decide_eq_true_2 ("SOPInstanceUID" ∈ columns df)) by (apply Hdef; compute_done).
    rewrite (bool_decide_eq_true_2 ("SeriesInstanceUID" ∈ columns df)) by (apply Hdef; compute_done).
    rewrite (bool_decide_eq_true_2 _ Hin). simpl.
    rewrite (bool_decide_eq_true_2 _ Hin). simpl. by eexists.
Qed.

End IndexerComposition.

(** ** The index of a concrete folder *)

Section IndexerExamples.
Import QA Organizer Reports Indexer Sample Cases.

Lemma fixed_keys_witness :
  columns (to_frame (build_index ["/in/a.dcm"; "/in/b.dcm"] false))
  = DEFAULT_KEYS ++ ["_path"; "_size_bytes"].
Proof.
  refine (proj1 (fixed_keys_index_is_ordered_by_instance_number
                   ["/in/a.dcm"; "/in/b.dcm"]
                   (to_frame (build_index ["/in/a.dcm"; "/in/b.dcm"] false)) _ _)).
  - discriminate.
  - intros c Hc. exact Hc.
Defined.

(** The unreadable file is not in the index; the cells of the record of the
    other one that pydicom has no value for are absent. *)
Example two_file_index :
  rows (to_frame (build_index ["/in/a.dcm"; "/in/b.dcm"] false))
  = [mk [("PatientID", "P1"); ("SOPInstanceUID", "1.2.1"); ("InstanceNumber", "1");
         ("_path", "/in/a.dcm"); ("_size_bytes", "132")]].
Proof. vm_compute. reflexivity. Qed.

End IndexerExamples.

(** ** The files of a patient *)

Section GroupFilterFacts.
Context {K A : Type} `{EqDecision K} (key : A → K).

Lemma filter_all {B : Type} (P : B → Prop) `{∀ x, Decision (P x)} (l : list B) :
  (∀ x, x ∈ l → P x) → filter P l = l.
Proof.
  induction l as [|x l IH]; intros Hl; [done|].
  rewrite filter_cons, decide_True by (apply Hl; by left).
  f_equal. apply IH. intros y Hy. apply Hl. by right.
Qed.

Lemma filter_fmap {B C : Type} (f : B → C) (P : C → Prop) `{∀ x, Decision (P x)}
    (l : list B) :
  filter P (f <$> l) = f <$> filter (λ x, P (f x)) l.
Proof.
  induction l as [|x l IH]; [done|]. rewrite fmap_cons, !filter_cons.
  destruct (decide (P (f x))); by rewrite ?fmap_cons, IH.
Qed.

Lemma filter_groups (P : K → Prop) `{∀ k, Decision (P k)} (gs : list (K * list A)) :
  (∀ kg, kg ∈ gs → ∀ x, x ∈ kg.2 → key x = kg.1) →
  filter (λ x, P (key x)) (concat (gs.*2))
  = concat ((filter (λ kg : K * list A, P kg.1) gs).*2).
Proof.
  induction gs as [|[k g] gs IH]; intros Hgs; [done|].
  rewrite fmap_cons. simpl. rewrite filter_app, filter_cons. simpl.
  rewrite IH by (intros kg Hkg; apply Hgs; by right).
  assert (∀ x, x ∈ g → key x = k) as Hg by (apply (Hgs (k, g)); by left).
  destruct (decide (P k)) as [Hk|Hk].
  - rewrite fmap_cons. simpl. f_equal. apply filter_all. intros x Hx. by rewrite (Hg x Hx).
  - rewrite filter_none; [done|]. intros x Hx. by rewrite (Hg x Hx).
Qed.

(** The groups whose key satisfies [P] hold the elements whose key does. *)
Lemma groupby_filter_keys (P : K → Prop) {HP : ∀ k, Decision (P k)} (l : list A) :
  concat ((filter (λ kg : K * list A, P kg.1) (groupby key l)).*2)
  ≡ₚ filter (λ x, P (key x)) l.
Proof.
  rewrite <- filter_groups.
  - apply filter_Permutation, groupby_concat.
  - intros [k g] Hkg x Hx. destruct (groupby_grouped key l) as (_ & Hg & _).
    destruct (Hg k g Hkg) as [_ Hfilter]. simpl in *. rewrite Hfilter in Hx.
    by apply list_elem_of_filter in Hx as [? _].
Qed.

End GroupFilterFacts.

Section ExportFacts.
Import Aggregator Exports.

Lemma keys_start_with_patient (cols : list string) :
  "PatientID" ∈ cols →
  ∃ rest, filter (λ c, c ∈ cols) series_cols = "PatientID" :: rest.
Proof.
  intros Hcol. unfold series_cols. rewrite filter_cons, decide_True by done. by eexists.
Qed.

(** X22.  The two files of a patient.  The instances file has the records
    of the patient, at least one.  The series file has the rows of the series
    table of that patient, and their instance counts add up to the patient's
    records that have a value in the counted column; but for the records
    without a patient identifier, which are a patient of their own with an
    instances file, the series file is empty: no series row equals the
    missing identifier. *)
Theorem patient_series_file_counts_the_patients_instances
    (df : frame) (table : list series_row) (f : patient_files) :
  series_table series_cols df = Table table →
  f ∈ per_patient df (filter (λ c, c ∈ columns df) series_cols) table →
  ∃ base ssub,
    base_col (columns df) (filter (λ c, c ∈ columns df) series_cols) = Some base
    ∧ series_of_patient f = Some ssub
    ∧ instances f ≠ []
    ∧ instances f = filter (λ r : row, r !! "PatientID" = pid f) (rows df)
    ∧ (pid f = None → ssub = [])
    ∧ (is_Some (pid f) → sum_list (n_instances <$> ssub) = count base (instances f)).
Proof.
  unfold per_patient, has_column.
  intros (_ & _ & base & Hbase & ->)%series_table_returns Hf.
  destruct (decide ("PatientID" ∈ columns df)) as [Hcol|Hcol];
    [|rewrite (bool_decide_eq_false_2 _ Hcol) in Hf; by apply elem_of_nil in Hf].
  rewrite (bool_decide_eq_true_2 _ Hcol) in Hf.
  destruct (keys_start_with_patient _ Hcol) as [rest Hkeys].
  rewrite Hkeys in Hbase, Hf |- *.
  apply list_elem_of_fmap in Hf as ([p g] & -> & Hpg). simpl.
  destruct (groupby_grouped (λ r : row, r !! "PatientID") (rows df)) as (_ & Hg & _).
  destruct (Hg p g Hpg) as [Hne Hfilter].
  assert (∀ s v, from_option (λ c, eq_cell c (Some v)) false
                   (key_cell ("PatientID" :: rest) "PatientID" s) = true
                 ↔ head (key s) = Some (Some v)) as Hsome.
  { intros s v. unfold key_cell. simpl. rewrite <- head_lookup.
    destruct (head (key s)) as [[c|]|]; simpl; [|done..].
    rewrite String.eqb_eq. split; [by intros ->|by intros [= ->]]. }
  assert (∀ s, from_option (λ c, eq_cell c None) false
                 (key_cell ("PatientID" :: rest) "PatientID" s) = false) as Hnone.
  { intros s. unfold key_cell. simpl. by destruct (key s !! 0) as [[c|]|]. }
  exists base. eexists. split; [done|]. split.
  { unfold series_subset, has_column. rewrite bool_decide_eq_true_2; [done|]. by left. }
  split; [done|]. split; [done|]. split.
  - intros ->. apply filter_none. intros s _ Hs. by rewrite Hnone in Hs.
  - intros [v ->].
    assert (∀ table : list series_row,
              filter (λ s, from_option (λ c, eq_cell c (Some v)) false
                             (key_cell ("PatientID" :: rest) "PatientID" s) = true) table
              = filter (λ s, head (key s) = Some (Some v)) table) as ->
      by (intros table; apply list_filter_iff; intros s; apply Hsome).
    unfold aggregate. rewrite filter_fmap, <- !list_fmap_compose.
    assert (∀ gs : list (list (option string) * list row),
              (n_instances ∘ (λ kg, SeriesRow kg.1 (count base kg.2))) <$> gs
              = count base <$> (gs.*2)) as ->
      by (intros gs; by rewrite <- list_fmap_compose).
    rewrite count_concat.
    pose proof (groupby_filter_keys (key_of ("PatientID" :: rest))
                  (λ k, head k = Some (Some v)) (rows df)) as Hperm.
    etrans; [exact (count_perm base _ _ Hperm)|].
    rewrite Hfilter. f_equal. apply list_filter_iff. intros r.
    unfold key_of. simpl. split; [by intros [= ->]|by intros ->].
Qed.

End ExportFacts.

Section ExportExamples.
Import Aggregator Exports Sample Cases.

(** The record without a patient identifier has an instances file and a
    row in the series table, and an empty series file. *)
Example anonymous_patient_files :
  series_table series_cols anonymous_index = Table anonymous_series
  ∧ per_patient anonymous_index ["PatientID"; "SeriesInstanceUID"; "ProtocolNorm"]
                anonymous_series
    = [PatientFiles (Some "P1")
         [mk [("PatientID", "P1"); ("SeriesInstanceUID", "1.2"); ("SOPInstanceUID", "1.2.1");
              ("ProtocolNorm", "NA"); ("_path", "/in/a.dcm")]]
         (Some [SeriesRow [Some "P1"; Some "1.2"; Some "NA"] 1]);
       PatientFiles None [anonymous_record] (Some [])].
Proof. split; vm_compute; reflexivity. Qed.

Lemma patient_files_witness :
  ∃ base ssub,
    base_col (columns anonymous_index)
             (filter (λ c, c ∈ columns anonymous_index) series_cols) = Some base
    ∧ series_of_patient (PatientFiles None [anonymous_record] (Some [])) = Some ssub
    ∧ instances (PatientFiles None [anonymous_record] (Some [])) ≠ []
    ∧ instances (PatientFiles None [anonymous_record] (Some []))
      = filter (λ r : row, r !! "PatientID"
                           = pid (PatientFiles None [anonymous_record] (Some [])))
               (rows anonymous_index)
    ∧ (pid (PatientFiles None [anonymous_record] (Some [])) = None → ssub = [])
    ∧ (is_Some (pid (PatientFiles None [anonymous_record] (Some []))) →
       sum_list (n_instances <$> ssub)
       = count base (instances (PatientFiles None [anonymous_record] (Some [])))).
Proof.
  apply (patient_series_file_counts_the_patients_instances anonymous_index anonymous_series
           (PatientFiles None [anonymous_record] (Some []))).
  - vm_compute. reflexivity.
  - destruct anonymous_patient_files as [_ Hfiles].
    change (filter (λ c, c ∈ columns anonymous_index) series_cols)
      with ["PatientID"; "SeriesInstanceUID"; "ProtocolNorm"].
    rewrite Hfiles. right. left.
Defined.

End ExportExamples.

(** ** The columns, the groups and the directories of the organizer *)

Section LayoutFacts.
Import Config Organizer Utils Reports Pipeline Layout.
Context {RE : Regex} {PD : Pandas}.

Lemma all_chars_app (p : ascii → bool) (s t : string) :
  all_chars p (String.append s t) = all_chars p s && all_chars p t.
Proof.
  induction s as [|c s IH]; [done|]. rewrite str_app_cons. simpl.
  by rewrite IH, andb_assoc.
Qed.

Lemma component_allowed (k : option string) :
  all_chars (allowed default_keep) (component k) = true.
Proof.
  unfold component.
  eapply all_chars_weaken; [|apply map_chars_all].
  intros c [Hc|Hc%Ascii.eqb_eq]%orb_true_iff; [done|]. by subst.
Qed.

(** X23.  The directory of a group is named by a text of letters, digits
    and the characters [-_. ] only, whatever the cells of the group hold: the
    name has no path separator, and the directory lies in the output
    directory itself. *)
Theorem test_directory_name_has_no_separator (cols : list string) (r : row) :
  ∃ name,
    test_dirname (key_of (series_cols cols) r) = Some name
    ∧ all_chars (allowed default_keep) name = true
    ∧ contains "/" name = false
    ∧ contains backslash name = false.
Proof.
  unfold series_cols, key_of. simpl. eexists. split; [done|].
  match goal with |- all_chars _ ?n = true ∧ _ =>
    assert (all_chars (allowed default_keep) n = true) as Hall end.
  { rewrite !all_chars_app, !component_allowed. reflexivity. }
  split; [done|]. split.
  - destruct (contains "/" _) eqn:E; [|done].
    by apply (all_chars_contains _ _ _ Hall) in E.
  - destruct (contains backslash _) eqn:E; [|done].
    by apply (all_chars_contains _ _ _ Hall) in E.
Qed.

Lemma add_missing_columns (df : frame) (col c : string) :
  c ∈ columns (add_missing df col) ↔ c = col ∨ c ∈ columns df.
Proof.
  unfold add_missing, has_column. case_bool_decide as Hcol; simpl.
  - split; [by right|]. by intros [->|?].
  - rewrite elem_of_app, list_elem_of_singleton. tauto.
Qed.

Lemma ensure_base_columns_columns (df : frame) (c : string) :
  c ∈ columns (ensure_base_columns df)
  ↔ c ∈ ["PatientName"; "PatientID"; "SeriesInstanceUID"] ∨ c ∈ columns df.
Proof.
  unfold ensure_base_columns. simpl. rewrite !add_missing_columns.
  rewrite !elem_of_cons, elem_of_nil. tauto.
Qed.

(** X24.  Of the six columns the organizer groups by, only the study
    identifier can be missing when the groups are formed: the protocol
    columns are derived and the patient and series columns are guaranteed
    before, and the filters keep the columns.  The grouping ends in a
    [KeyError] exactly when the index has no study-identifier column. *)
Theorem grouping_fails_only_for_want_of_the_study_column
    (cfg : config) (ns : filters) (df enriched filtered : frame) :
  enrich cfg df = Ok enriched → apply_filters ns enriched = Ok filtered →
  (∀ c, c ∈ series_cols (columns (ensure_base_columns filtered)) →
        c ≠ "StudyInstanceUID" → c ∈ columns (ensure_base_columns filtered))
  ∧ ("StudyInstanceUID" ∉ columns df
     ↔ series_groups (ensure_base_columns filtered) = KeyError "StudyInstanceUID")
  ∧ ("StudyInstanceUID" ∈ columns df
     ↔ series_groups (ensure_base_columns filtered)
       = Done (groupby (key_of (series_cols (columns (ensure_base_columns filtered))))
                       (rows (ensure_base_columns filtered)))).
Proof.
  intros Henrich Hfilter.
  assert (∀ c, c ∈ columns enriched
               ↔ c = "ProtocolEffective" ∨ c = "ProtocolNorm" ∨ c ∈ columns df) as Hcols1.
  { unfold enrich in Henrich. destruct (map_rows _ _); [|done]. injection Henrich as <-.
    simpl. intros c. rewrite !elem_of_assign_column. tauto. }
  assert (columns filtered = columns enriched) as Hcols2.
  { unfold apply_filters in Hfilter.
    destruct (by_protocol false _ _) as [d1|e] eqn:H1; [|done].
    apply by_protocol_sub in Hfilter as [-> _]. apply by_protocol_sub in H1 as [-> _].
    destruct (by_patient_sub ns (by_date ns (by_modality ns enriched))) as [-> _].
    destruct (by_date_sub ns (by_modality ns enriched)) as [-> _].
    by destruct (by_modality_sub ns enriched) as [-> _]. }
  set (final := ensure_base_columns filtered).
  assert (∀ c, c ∈ columns final
               ↔ c ∈ ["PatientName"; "PatientID"; "SeriesInstanceUID"]
                 ∨ c = "ProtocolEffective" ∨ c = "ProtocolNorm" ∨ c ∈ columns df) as Hfinal.
  { intros c. unfold final. by rewrite ensure_base_columns_columns, Hcols2, Hcols1. }
  assert ("StudyInstanceUID" ∈ columns final ↔ "StudyInstanceUID" ∈ columns df) as Hstudy.
  { rewrite Hfinal, !elem_of_cons, elem_of_nil. split; [|tauto].
    intros [[?|[?|[?|[]]]]|[?|[?|?]]]; done. }
  assert (∀ c, c ∈ series_cols (columns final) → c ≠ "StudyInstanceUID" → c ∈ columns final)
    as Hothers.
  { intros c Hc Hne. unfold series_cols, has_column in Hc.
    rewrite !elem_of_cons, elem_of_nil in Hc.
    destruct Hc as [->|[->|[->|[->|[->|[Hc|[]]]]]]]; try done;
      try (apply Hfinal; rewrite !elem_of_cons; tauto).
    case_bool_decide as Hsn; subst c; [done|].
    apply Hfinal; rewrite !elem_of_cons; tauto. }
  split; [done|].
  assert (filter (λ c, c ∉ columns final) (series_cols (columns final))
          = if decide ("StudyInstanceUID" ∈ columns final) then [] else ["StudyInstanceUID"])
    as Hmissing.
  { assert (∀ c, c ∈ series_cols (columns final) → c ≠ "StudyInstanceUID" →
                 ¬ (c ∉ columns final)) as Hin by (intros c ? ? Hc; by apply Hc, Hothers).
    unfold series_cols in *.
    rewrite filter_cons, decide_False by (apply Hin; [by left|done]).
    rewrite filter_cons, decide_False by (apply Hin; [right; by left|done]).
    rewrite filter_cons, decide_False by (apply Hin; [do 2 right; by left|done]).
    rewrite filter_cons.
    assert (filter (λ c, c ∉ columns final)
              ["SeriesInstanceUID";
               if has_column "SeriesNumber" (columns final)
               then "SeriesNumber" else "SeriesInstanceUID"] = []) as ->.
    { rewrite filter_cons, decide_False by (apply Hin; [do 4 right; by left|done]).
      rewrite filter_cons, decide_False; [done|].
      apply Hin; [do 5 right; by left|]. by destruct (has_column _ _). }
    destruct (decide ("StudyInstanceUID" ∈ columns final));
      [by rewrite decide_False by tauto|by rewrite decide_True]. }
  unfold series_groups. fold final. rewrite Hmissing, <- Hstudy.
  destruct (decide ("StudyInstanceUID" ∈ columns final)); split; split; done.
Qed.

End LayoutFacts.

Section LayoutExamples.
Import Config Organizer Utils Reports Pipeline Layout Sample Cases.

Lemma study_column_witness :
  series_groups (ensure_base_columns enriched_index) = KeyError "StudyInstanceUID".
Proof.
  refine (proj1 (proj1 (proj2 (grouping_fails_only_for_want_of_the_study_column
                                 head_rules no_filters protocol_index enriched_index
                                 enriched_index _ _))) _).
  - vm_compute. reflexivity.
  - vm_compute. reflexivity.
  - compute_done.
Defined.

(** The directory of a group without a patient name or a series number. *)
Example directory_of_a_nameless_group :
  test_dirname [None; Some "P 1"; Some "CT/HEAD"; Some "1"; Some "1.2"; None]
  = Some "Prueba_nan__CT_HEAD__Series_nan_1.2".
Proof. vm_compute. reflexivity. Qed.

End LayoutExamples.

(** ** The protocols of a sample *)

Section PreviewFacts.
Import Preview.

Lemma count_one_groups (p : string) (x : row) (gs : list (string * list row)) :
  (λ kg : string * list row, (kg.1, length kg.2)) <$> add_to_group p x gs
  = count_one p ((λ kg : string * list row, (kg.1, length kg.2)) <$> gs).
Proof.
  induction gs as [|[k g] gs IH]; [done|]. simpl.
  destruct (decide (p = k)); simpl; [|f_equal; exact IH].
  by rewrite length_app, Nat.add_1_r.
Qed.

(** The tally is the sizes of the groups by protocol. *)
Lemma protocols_groups (instances : list row) :
  protocols instances
  = (λ kg : string * list row, (kg.1, length kg.2)) <$> groupby proto instances.
Proof.
  unfold protocols, groupby.
  change (@nil (string * nat))
    with ((λ kg : string * list row, (kg.1, length kg.2)) <$> []).
  generalize (@nil (string * list row)).
  induction instances as [|r instances IH]; intros gs; [done|]. simpl.
  by rewrite <- (count_one_groups _ r), IH.
Qed.

Lemma by_count_total (x y : string * nat) : by_count x y = true ∨ by_count y x = true.
Proof.
  unfold by_count. apply lex_le_total.
  - intros a b. rewrite !Nat.leb_le. lia.
  - intros a b. apply String.leb_total.
Qed.

Lemma Sorted_take_prefix {A : Type} (R : relation A) (l : list A) :
  Sorted R l → ∀ n, Sorted R (take n l).
Proof.
  induction 1 as [|x l Hl IH Hhd]; intros [|n]; simpl; try constructor.
  - apply IH.
  - destruct Hhd as [|y l' Hxy]; destruct n; simpl; by constructor.
Qed.

(** X25.  The tally of the preview counts, for every protocol of the
    sample, the sampled instances that have it: the protocols of the tally
    are pairwise different, each with its number of instances, and the
    numbers add up to the size of the sample.  The top list is made of at
    most ten entries of the tally, in descending order of their numbers. *)
Theorem protocol_tally_counts_the_sample (instances : list row) :
  NoDup ((protocols instances).*1)
  ∧ (∀ p n, (p, n) ∈ protocols instances
            ↔ 0 < n ∧ n = length (filter (λ r, proto r = p) instances))
  ∧ sum_list ((protocols instances).*2) = length instances
  ∧ length (top_protocols instances) ≤ 10
  ∧ (∀ pn, pn ∈ top_protocols instances → pn ∈ protocols instances)
  ∧ Sorted (λ x y : string * nat, y.2 ≤ x.2) (top_protocols instances).
Proof.
  destruct (groupby_grouped proto instances) as (Hnd & Hg & Hall).
  rewrite protocols_groups. split; [|split; [|split; [|split; [|split]]]].
  - by rewrite <- list_fmap_compose.
  - intros p n. rewrite list_elem_of_fmap. split.
    + intros ([k g] & [= -> ->] & Hkg). destruct (Hg k g Hkg) as [Hne Hfilter]. simpl.
      split; [destruct g; [done|simpl; lia]|by rewrite <- Hfilter].
    + intros [Hpos ->].
      destruct (filter (λ r, proto r = p) instances) as [|r rs] eqn:Hf; [simpl in Hpos; lia|].
      assert (r ∈ filter (λ r, proto r = p) instances) as Hr by (rewrite Hf; by left).
      apply list_elem_of_filter in Hr as [Hp Hr].
      apply Hall, list_elem_of_fmap in Hr as ([k g] & Hk & Hkg). simpl in Hk.
      exists (k, g). split; [|done]. destruct (Hg k g Hkg) as [_ ->]. simpl.
      by rewrite <- Hk, Hp, Hf.
  - rewrite <- list_fmap_compose.
    rewrite <- (Permutation_length (groupby_concat proto instances)).
    generalize (groupby proto instances). intros gs.
    induction gs as [|[k g] gs IH]; [done|]. rewrite !fmap_cons. simpl.
    rewrite length_app. f_equal. exact IH.
  - unfold top_protocols. rewrite length_take. lia.
  - intros pn Hpn. unfold top_protocols in Hpn. apply elem_of_take in Hpn as (i & Hpn & _).
    apply list_elem_of_lookup_2 in Hpn. rewrite elem_of_sort_by in Hpn.
    by rewrite protocols_groups in Hpn.
  - unfold top_protocols.
    assert (Sorted (λ x y : string * nat, y.2 ≤ x.2) (sort_by by_count (protocols instances)))
      as Hsorted.
    { eapply Sorted_weaken; [|apply sort_by_sorted, by_count_total].
      intros x y Hle. unfold leR, by_count in Hle. apply lex_le_first in Hle.
      by apply Nat.leb_le in Hle. }
    by apply Sorted_take_prefix.
Qed.

End PreviewFacts.
